(** * Job recommendation pipeline: sampler, similarity vectorizers, top-N extractor

    A shallow embedding of [notebook/generate_data.py] (and of the copy of
    [get_top_n_recs] and of the similarity block in
    [notebook/generate_sample_data.py]).

    Conventions of the embedding:
    - a pandas [DataFrame] is the list of its rows, a [Series] indexed by
      labels is an association list in index order, a Python [dict] is an
      association list in insertion order;
    - NumPy and Python floats are modelled by the rationals they stand for
      ([Q]); comparisons, [int()] and [round()] are the exact ones on that
      rational. The division and the product of the sampler, whose result
      [int()] truncates, are rounded to float64 as the machine does; the
      similarity scores, which are rounded to 4 decimals before they are
      emitted, are computed exactly;
    - [np.argsort] and [DataFrame.sample] are parameters with the contract
      of the library function;
    - Python exceptions are results [Raise e]; loops carry fuel, and
      [OutOfFuel] is the answer of a loop that was not given enough. *)

From Stdlib Require Import String Ascii ZArith QArith Qabs Qround Qpower Bool Lia Lqa List
  Permutation Sorted.
Import ListNotations.

Local Open Scope string_scope.
Local Open Scope list_scope.

(** ** Results of fallible code *)

Inductive exn : Type :=
| IndexError
| ValueError.

Inductive result (A : Type) : Type :=
| Ok (a : A)
| Raise (e : exn)
| OutOfFuel.

Arguments Ok {A} a.
Arguments Raise {A} e.
Arguments OutOfFuel {A}.

Definition bind {A B : Type} (r : result A) (k : A -> result B) : result B :=
  match r with
  | Ok a => k a
  | Raise e => Raise e
  | OutOfFuel => OutOfFuel
  end.

Notation "x <- r ;; k" := (bind r (fun x => k))
  (at level 61, r at next level, right associativity).

(** [xs[i]] for a list, a NumPy row or [df.iloc[i]], with a non-negative
    index: out of range raises [IndexError]. *)
Definition item {A : Type} (xs : list A) (i : nat) : result A :=
  match nth_error xs i with
  | Some x => Ok x
  | None => Raise IndexError
  end.

(** [xs[i] = v] on a copy of the row. *)
Fixpoint set_item {A : Type} (xs : list A) (i : nat) (v : A) : result (list A) :=
  match xs, i with
  | [], _ => Raise IndexError
  | _ :: xs', O => Ok (v :: xs')
  | x :: xs', S i' => ys <- set_item xs' i' v ;; Ok (x :: ys)
  end.

(** A list comprehension [[f(j) for j in js]] whose body may raise. *)
Fixpoint for_each {A B : Type} (f : A -> result B) (js : list A) : result (list B) :=
  match js with
  | [] => Ok []
  | j :: js' => y <- f j ;; ys <- for_each f js' ;; Ok (y :: ys)
  end.

(** ** Job records *)

Record Job : Type := mkJob {
  id : string;
  title : string;
  company : string;
  city : string;
  state : string;
  country : string;
  remote : bool;
  description : string;
  education : string;
  job_type : string;
  category : string;
  experience : string;
  url : string;
  date : string
}.

Definition DataFrame : Type := list Job.

(** ** Numbers *)

(** [int(x)] on a float: truncation toward zero. *)
Definition int_of_float (x : Q) : Z := Z.quot (Qnum x) (Zpos (Qden x)).

(** [round(x)]: the nearest integer, a tie going to the even one. *)
Definition round_half_even (x : Q) : Z :=
  let n := Qnum x in
  let d := Zpos (Qden x) in
  let f := (n / d)%Z in
  match (2 * (n mod d) ?= d)%Z with
  | Lt => f
  | Gt => (f + 1)%Z
  | Eq => if Z.even f then f else (f + 1)%Z
  end.

(** [round(x, 4)]. *)
Definition round4 (x : Q) : Q := Qmake (round_half_even (x * 10000)) 10000.

(** The exponent [e] of the binade of a rational that is not zero:
    [2^e <= |x| < 2^(e+1)]. *)
Definition binade (x : Q) : Z :=
  let d := (Z.log2 (Z.abs (Qnum x)) - Z.log2 (Zpos (Qden x)))%Z in
  if Qle_bool (2 ^ d) (Qabs x) then d else (d - 1)%Z.

(** The float64 nearest to a rational: a significand of 53 bits, the
    nearest value, a tie going to the even significand. The exponent is
    not bounded: a share of the frame and its product with the target
    size are far from the overflow and underflow thresholds of float64. *)
Definition float64 (x : Q) : Q :=
  match Qnum x with
  | Z0 => 0
  | _ => let ulp := (2 ^ (binade x - 52))%Q in
         Qred (inject_Z (round_half_even (x / ulp)) * ulp)
  end.

(** The conversion of an integer to float64, and the float64 operations
    [a / b] and [a * b]: the exact result, rounded. *)
Definition float_of_int (z : Z) : Q := float64 (inject_Z z).

Definition float_div (a b : Q) : Q := float64 (a / b).

Definition float_mul (a b : Q) : Q := float64 (a * b).

(** ** Top-N extractor *)

Definition Matrix : Type := list (list Q).

Definition score (scores : list Q) (i : nat) : Q := nth i scores 0%Q.

(** [ascending scores a b]: the score at index [a] is not above the score
    at index [b]. *)
Definition ascending (scores : list Q) (a b : nat) : Prop :=
  (score scores a <= score scores b)%Q.

(** [np.argsort(scores)]: the indices of the row by ascending score. The
    code calls it with the default kind, which NumPy documents as not
    stable: which of two equal scores comes first is left to the sort
    NumPy runs. The sort is therefore a parameter, with the contract of
    [np.argsort]: the result holds every index of the row once, and the
    scores do not decrease along it. *)
Class Argsort : Type := {
  argsort : list Q -> list nat;
  argsort_perm : forall scores : list Q,
      Permutation (argsort scores) (seq 0 (length scores));
  argsort_ascending : forall scores : list Q,
      StronglySorted (ascending scores) (argsort scores)
}.

(** [np.argsort(scores)[::-1][:n]]. *)
Definition top_indices {np : Argsort} (scores : list Q) (n : nat) : list nat :=
  firstn n (rev (argsort scores)).

(** The dict [{'id': ..., 'score': ...}] of one recommendation. *)
Definition Rec : Type := (string * Q)%type.

Definition rec_entry (df : DataFrame) (scores : list Q) (top_n : list nat) (j : nat)
  : result Rec :=
  c <- item top_n j ;;
  job <- item df c ;;
  s <- item scores c ;;
  Ok (id job, round4 s).

(** The row of the matrix with the self-entry set to -1. *)
Definition masked_row (sim_matrix : Matrix) (i : nat) : result (list Q) :=
  row <- item sim_matrix i ;;
  set_item row i (-1)%Q.

(** The body of the loop over [i]: the list stored under the id of row [i]. *)
Definition recs_of_row {np : Argsort} (sim_matrix : Matrix) (df : DataFrame)
  (n i : nat) : result (list Rec) :=
  scores <- masked_row sim_matrix i ;;
  for_each (rec_entry df scores (top_indices scores n)) (seq 0 n).

Definition Recs : Type := list (string * list Rec).

(** [d[k] = v] on a dict: an existing key keeps its place. *)
Fixpoint dict_set {V : Type} (k : string) (v : V) (d : list (string * V))
  : list (string * V) :=
  match d with
  | [] => [(k, v)]
  | (k', v') :: d' =>
      if String.eqb k' k then (k, v) :: d' else (k', v') :: dict_set k v d'
  end.

Fixpoint dict_get {V : Type} (k : string) (d : list (string * V)) : option V :=
  match d with
  | [] => None
  | (k', v') :: d' => if String.eqb k' k then Some v' else dict_get k d'
  end.

Fixpoint get_top_n_loop {np : Argsort} (sim_matrix : Matrix) (df : DataFrame)
  (n : nat) (rows : list nat) (recs : Recs) : result Recs :=
  match rows with
  | [] => Ok recs
  | i :: rows' =>
      l <- recs_of_row sim_matrix df n i ;;
      job <- item df i ;;
      get_top_n_loop sim_matrix df n rows' (dict_set (id job) l recs)
  end.

Definition get_top_n_recs {np : Argsort} (sim_matrix : Matrix) (df : DataFrame)
  (n : nat) : result Recs :=
  get_top_n_loop sim_matrix df n (seq 0 (length df)) [].

Definition TOP_N : nat := 3.

(** A sort to run examples with: the insertion sort over the indices of
    the row, which leaves equal scores in ascending index order (the
    answer of [np.argsort(scores, kind='stable')]). The index [i], which
    stood before every index of [sorted] in the row, stays before the
    first index whose score is not smaller. *)
Fixpoint insert_index (scores : list Q) (i : nat) (sorted : list nat) : list nat :=
  match sorted with
  | [] => [i]
  | k :: rest =>
      if Qle_bool (score scores i) (score scores k) then i :: sorted
      else k :: insert_index scores i rest
  end.

Definition stable_indices (scores : list Q) : list nat :=
  fold_right (insert_index scores) [] (seq 0 (length scores)).

(** Another sort that meets the contract: the insertion sort that puts
    the index [i] behind the indices of the same score, which leaves equal
    scores in descending index order. *)
Fixpoint insert_index_behind (scores : list Q) (i : nat) (sorted : list nat) : list nat :=
  match sorted with
  | [] => [i]
  | k :: rest =>
      if Qle_bool (score scores k) (score scores i)
      then k :: insert_index_behind scores i rest
      else i :: sorted
  end.

Definition tie_reversing_indices (scores : list Q) : list nat :=
  fold_right (insert_index_behind scores) [] (seq 0 (length scores)).

(** ** Stratified sampler *)

(** The columns [drop_duplicates] compares: title, company and city. *)
Definition same_key (a b : Job) : bool :=
  String.eqb (title a) (title b) && String.eqb (company a) (company b)
  && String.eqb (city a) (city b).

(** [df.drop_duplicates(subset=[...])]: the first row of each key stays. *)
Fixpoint drop_duplicates_from (seen : list Job) (df : DataFrame) : DataFrame :=
  match df with
  | [] => []
  | j :: df' =>
      if existsb (same_key j) seen then drop_duplicates_from seen df'
      else j :: drop_duplicates_from (j :: seen) df'
  end.

Definition drop_duplicates (df : DataFrame) : DataFrame :=
  drop_duplicates_from [] df.

(** [s.replace('', default)] on one cell. *)
Definition replace_empty (default s : string) : string :=
  if String.eqb s "" then default else s.

Definition with_category (f : string -> string) (j : Job) : Job :=
  mkJob (id j) (title j) (company j) (city j) (state j) (country j) (remote j)
    (description j) (education j) (job_type j) (f (category j)) (experience j)
    (url j) (date j).

(** A Series of integers indexed by category label. *)
Definition Series : Type := list (string * Z).

Definition series_sum (s : Series) : Z := fold_right Z.add 0%Z (map snd s).

(** The labels of a column in the order they are first seen. *)
Fixpoint uniq (labels : list string) : list string :=
  match labels with
  | [] => []
  | x :: rest => x :: filter (fun y => negb (String.eqb y x)) (uniq rest)
  end.

Fixpoint insert_count (p : string * Z) (sorted : Series) : Series :=
  match sorted with
  | [] => [p]
  | q :: rest =>
      if (snd q <=? snd p)%Z then p :: sorted else q :: insert_count p rest
  end.

(** [column.value_counts()]: one entry per label, by descending count,
    equal counts in first-seen order. *)
Definition value_counts (labels : list string) : Series :=
  fold_right insert_count []
    (map (fun c => (c, Z.of_nat (count_occ string_dec labels c))) (uniq labels)).

(** [cat_counts / cat_counts.sum()]: the true division of two integer
    arrays, which converts both sides to float64. *)
Definition proportions (cat_counts : Series) : list (string * Q) :=
  let total := series_sum cat_counts in
  map (fun p => (fst p, float_div (float_of_int (snd p)) (float_of_int total))) cat_counts.

(** [(cat_proportions * n).apply(lambda x: max(int(x), min_per_group))]:
    the product of the float64 column with the integer [n] is a float64
    column. *)
Definition initial_quotas (n min_per_group : Z) (cat_proportions : list (string * Q))
  : Series :=
  map (fun p => (fst p,
                 Z.max (int_of_float (float_mul (snd p) (float_of_int n))) min_per_group))
      cat_proportions.

(** [s.idxmax()]: the label of the first largest entry; an empty Series
    raises [ValueError]. *)
Fixpoint idxmax_from (best : string * Z) (s : Series) : string :=
  match s with
  | [] => fst best
  | p :: s' => if (snd best <? snd p)%Z then idxmax_from p s' else idxmax_from best s'
  end.

Definition idxmax (s : Series) : result string :=
  match s with
  | [] => Raise ValueError
  | p :: s' => Ok (idxmax_from p s')
  end.

(** [s[label] += d]. *)
Definition series_add (label : string) (d : Z) (s : Series) : Series :=
  map (fun p => if String.eqb (fst p) label then (fst p, (snd p + d)%Z) else p) s.

(** [while cat_samples.sum() > n: cat_samples[cat_samples.idxmax()] -= 1]. *)
Fixpoint shrink_quotas (fuel : nat) (n : Z) (cat_samples : Series) : result Series :=
  if (n <? series_sum cat_samples)%Z then
    largest <- idxmax cat_samples ;;
    match fuel with
    | O => OutOfFuel
    | S fuel' => shrink_quotas fuel' n (series_add largest (-1) cat_samples)
    end
  else Ok cat_samples.

(** [while cat_samples.sum() < n: cat_samples[cat_samples.idxmax()] += 1]. *)
Fixpoint grow_quotas (fuel : nat) (n : Z) (cat_samples : Series) : result Series :=
  if (series_sum cat_samples <? n)%Z then
    largest <- idxmax cat_samples ;;
    match fuel with
    | O => OutOfFuel
    | S fuel' => grow_quotas fuel' n (series_add largest 1 cat_samples)
    end
  else Ok cat_samples.

(** The two adjustment loops, one after the other. *)
Definition adjust_quotas (fuel : nat) (n : Z) (cat_samples : Series) : result Series :=
  shrunk <- shrink_quotas fuel n cat_samples ;;
  grow_quotas fuel n shrunk.

(** [cat_df.sample(n=k, random_state=42)] draws [k] rows without
    replacement with a seeded generator. Which rows come out is the
    generator's business; the sampler is a parameter with the contract of
    [DataFrame.sample]: the rows drawn are [k] rows of the frame. *)
Record RowSampler : Type := {
  draw : DataFrame -> nat -> DataFrame;
  draw_length : forall (rows : DataFrame) (k : nat),
      (k <= length rows)%nat -> length (draw rows k) = k;
  draw_incl : forall (rows : DataFrame) (k : nat), incl (draw rows k) rows
}.

(** [cat_df.sample(n=sample_n, ...)]: a negative [n], or one larger than
    the frame, raises [ValueError]. *)
Definition sample_rows (S : RowSampler) (cat_df : DataFrame) (sample_n : Z)
  : result DataFrame :=
  if (sample_n <? 0)%Z || (Z.of_nat (length cat_df) <? sample_n)%Z
  then Raise ValueError
  else Ok (draw S cat_df (Z.to_nat sample_n)).

(** The loop over [cat_samples.items()]. *)
Fixpoint sample_groups (S : RowSampler) (df_dedup : DataFrame) (cat_samples : Series)
  : result (list DataFrame) :=
  match cat_samples with
  | [] => Ok []
  | (cat, count) :: rest =>
      let cat_df := filter (fun j => String.eqb (category j) cat) df_dedup in
      let sample_n := Z.min count (Z.of_nat (length cat_df)) in
      g <- sample_rows S cat_df sample_n ;;
      gs <- sample_groups S df_dedup rest ;;
      Ok (g :: gs)
  end.

(** [pd.concat(frames)]: no frame at all raises [ValueError]. *)
Definition pd_concat (frames : list DataFrame) : result DataFrame :=
  match frames with
  | [] => Raise ValueError
  | _ :: _ => Ok (concat frames)
  end.

(** The deduplicated frame with its category column filled. *)
Definition dedup (df : DataFrame) : DataFrame :=
  map (with_category (replace_empty "Other")) (drop_duplicates df).

(** The quotas before the adjustment loops. *)
Definition cat_samples0 (df_dedup : DataFrame) (n min_per_group : Z) : Series :=
  initial_quotas n min_per_group (proportions (value_counts (map category df_dedup))).

Definition stratified_sample (S : RowSampler) (fuel : nat) (df : DataFrame)
  (n min_per_group : Z) : result DataFrame :=
  let df_dedup := dedup df in
  cat_samples <- adjust_quotas fuel n (cat_samples0 df_dedup n min_per_group) ;;
  sampled <- sample_groups S df_dedup cat_samples ;;
  pd_concat sampled.

(** A sampler to run examples with: the first [k] rows. *)
Definition head_rows : RowSampler.
Proof.
  refine {| draw := fun rows k => firstn k rows |}.
  - intros rows k H. apply firstn_length_le, H.
  - intros rows k x H. apply (In_nth_error) in H. destruct H as [i H].
    revert rows i H. induction k as [|k IH]; intros [|r rows] i H; simpl in *;
      try (destruct i; discriminate).
    destruct i as [|i]; simpl in H.
    + left. congruence.
    + right. eapply IH, H.
Defined.

(** ** Feature similarity matrices *)

(** [a[:, None] OP a[None, :]]: the matrix of [f] over all pairs of rows. *)
Definition pairwise {A : Type} (f : A -> A -> Q) (xs : list A) : Matrix :=
  map (fun a => map (fun b => f a b) xs) xs.

(** [m[i][j]]. *)
Definition entry (m : Matrix) (i j : nat) : option Q :=
  match nth_error m i with
  | Some row => nth_error row j
  | None => None
  end.

(** [(x[:, None] == x[None, :]).astype(np.float32)] on one pair. *)
Definition indicator (a b : string) : Q := if String.eqb a b then 1%Q else 0%Q.

Definition cat_sim (df : DataFrame) : Matrix :=
  pairwise (fun a b => indicator (category a) (category b)) df.

Definition type_sim (df : DataFrame) : Matrix :=
  pairwise (fun a b => indicator (job_type a) (job_type b)) df.

(** The nested [np.where] of the location similarity on one pair. *)
Definition loc_pair (a b : Job) : Q :=
  if String.eqb (city a) (city b) then 1%Q
  else if String.eqb (state a) (state b) then (1 # 2)%Q
  else if String.eqb (country a) (country b) then (1 # 5)%Q
  else 0%Q.

Definition loc_sim (df : DataFrame) : Matrix := pairwise loc_pair df.

Definition exp_map : list (string * Q) :=
  [("Entry level", 0%Q); ("Internship", 0%Q); ("Associate", 1%Q);
   ("Mid-Senior level", 2%Q); ("Not Specified", 2%Q);
   ("Director", 3%Q); ("Executive", 4%Q)].

(** [exp_map.get(e, 2)]. *)
Definition exp_val (e : string) : Q :=
  match dict_get e exp_map with
  | Some v => v
  | None => 2%Q
  end.

Definition Qmax2 (a b : Q) : Q := if Qle_bool a b then b else a.

(** [m.max()]: an array without entries raises [ValueError]. *)
Definition matrix_max (m : Matrix) : result Q :=
  match concat m with
  | [] => Raise ValueError
  | x :: xs => Ok (fold_left Qmax2 xs x)
  end.

Definition exp_sim (df : DataFrame) : result Matrix :=
  let exp_dist := pairwise (fun a b => Qabs (exp_val (experience a) - exp_val (experience b))) df in
  max_dist <- matrix_max exp_dist ;;
  if Qlt_le_dec 0 max_dist
  then Ok (map (map (fun d => (1 - d / max_dist)%Q)) exp_dist)
  else Ok (map (map (fun _ => 1%Q)) exp_dist).

(** The fill of the empty cells that [main] does before the similarity
    computations. *)
Definition fill_missing (j : Job) : Job :=
  mkJob (id j) (title j) (company j)
    (replace_empty "Unknown" (city j))
    (replace_empty "Unknown" (state j))
    (replace_empty "Unknown" (country j))
    (remote j) (description j)
    (replace_empty "Not Specified" (education j))
    (replace_empty "Not Specified" (job_type j))
    (replace_empty "Other" (category j))
    (replace_empty "Not Specified" (experience j))
    (url j) (date j).

(** ** Similarity composer *)

Record Weights : Type := {
  w_description : Q;
  w_title : Q;
  w_category : Q;
  w_location : Q;
  w_job_type : Q;
  w_experience : Q
}.

Definition WEIGHTS : Weights := {|
  w_description := 35 # 100;
  w_title := 25 # 100;
  w_category := 15 # 100;
  w_location := 10 # 100;
  w_job_type := 8 # 100;
  w_experience := 7 # 100
|}.

Definition weights_sum (w : Weights) : Q :=
  (w_description w + w_title w + w_category w + w_location w + w_job_type w
   + w_experience w)%Q.

Fixpoint zip_with {A B C : Type} (f : A -> B -> C) (xs : list A) (ys : list B) : list C :=
  match xs, ys with
  | x :: xs', y :: ys' => f x y :: zip_with f xs' ys'
  | _, _ => []
  end.

(** [w * m] and [a + b] on arrays of one shape. *)
Definition mat_scale (w : Q) (m : Matrix) : Matrix := map (map (Qmult w)) m.

Definition mat_add (a b : Matrix) : Matrix := zip_with (zip_with Qplus) a b.

Definition weighted_sim (w : Weights)
  (desc_sim title_sim_matrix cat loc type exp : Matrix) : Matrix :=
  mat_add (mat_add (mat_add (mat_add (mat_add
    (mat_scale (w_description w) desc_sim)
    (mat_scale (w_title w) title_sim_matrix))
    (mat_scale (w_category w) cat))
    (mat_scale (w_location w) loc))
    (mat_scale (w_job_type w) type))
    (mat_scale (w_experience w) exp).

(** The weighted model of [main], from the filled frame and the two text
    similarity matrices that scikit-learn computes, to the recommendations. *)
Definition weighted_recs {np : Argsort} (w : Weights) (df : DataFrame)
  (desc_sim title_sim_matrix : Matrix) (n : nat) : result Recs :=
  exp <- exp_sim df ;;
  get_top_n_recs
    (weighted_sim w desc_sim title_sim_matrix (cat_sim df) (loc_sim df) (type_sim df) exp)
    df n.

(** ** The closing checks of [main] *)

(** The assertions that [main] runs over one recommendation map: the key
    is an exported job id, the list has [n] entries, every recommended id
    is an exported job id. [true] when no assertion fails. *)
Definition sanity_check (job_ids : list string) (n : nat) (recs : Recs) : bool :=
  forallb (fun entry : string * list Rec =>
             existsb (String.eqb (fst entry)) job_ids
             && Nat.eqb (length (snd entry)) n
             && forallb (fun r : Rec => existsb (String.eqb (fst r)) job_ids) (snd entry))
          recs.

(** A matrix whose entries lie between 0 and 1. *)
Definition unit_range (m : Matrix) : Prop :=
  forall i j v, entry m i j = Some v -> (0 <= v <= 1)%Q.

(** The key of a row for [drop_duplicates]. *)
Definition key_of (j : Job) : string * string * string :=
  (title j, company j, city j).

(** The rows of a category. *)
Definition rows_of (cat : string) (rows : DataFrame) : DataFrame :=
  filter (fun j => String.eqb (category j) cat) rows.

(** ** Text normalization *)

(** Texts are taken to be ASCII: a character is its code, [lower()] and
    the classes [\s], [a-z], [0-9] and [\w] are the ASCII ones. *)

(** [\s], and the characters [str.strip] removes: tab to carriage
    return, the four separators 28 to 31, and the space. *)
Definition is_space (c : ascii) : bool :=
  let n := nat_of_ascii c in
  ((9 <=? n) && (n <=? 13) || (28 <=? n) && (n <=? 32))%nat.

Definition is_upper (c : ascii) : bool :=
  let n := nat_of_ascii c in ((65 <=? n) && (n <=? 90))%nat.

Definition is_lower (c : ascii) : bool :=
  let n := nat_of_ascii c in ((97 <=? n) && (n <=? 122))%nat.

Definition is_digit (c : ascii) : bool :=
  let n := nat_of_ascii c in ((48 <=? n) && (n <=? 57))%nat.

(** [str.lower] on one character. *)
Definition lower_char (c : ascii) : ascii :=
  if is_upper c then ascii_of_nat (nat_of_ascii c + 32) else c.

(** [re.sub(r'[^a-z0-9\s]', ' ', text)] on one character. *)
Definition keep_char (c : ascii) : ascii :=
  if is_lower c || is_digit c || is_space c then c else " "%char.

(** [re.sub(r'\s+', ' ', text)]: every run of whitespace becomes one
    space. A whitespace character followed by another one is dropped, the
    last of a run is written as a space. *)
Fixpoint collapse_ws (l : list ascii) : list ascii :=
  match l with
  | [] => []
  | c :: r =>
      if is_space c then
        match r with
        | [] => [" "%char]
        | c' :: _ => if is_space c' then collapse_ws r else " "%char :: collapse_ws r
        end
      else c :: collapse_ws r
  end.

Fixpoint lstrip (l : list ascii) : list ascii :=
  match l with
  | [] => []
  | c :: r => if is_space c then lstrip r else l
  end.

Fixpoint rstrip (l : list ascii) : list ascii :=
  match l with
  | [] => []
  | c :: r =>
      match rstrip r with
      | [] => if is_space c then [] else [c]
      | r' => c :: r'
      end
  end.

(** [text.strip()]. *)
Definition strip (l : list ascii) : list ascii := rstrip (lstrip l).

Definition preprocess_chars (l : list ascii) : list ascii :=
  strip (collapse_ws (map keep_char (map lower_char l))).

Definition preprocess_text (text : string) : string :=
  match text with
  | EmptyString => ""
  | _ => string_of_list_ascii (preprocess_chars (list_ascii_of_string text))
  end.

(** Whitespace only as single spaces between other characters. *)
Fixpoint single_spaced (l : list ascii) : Prop :=
  match l with
  | [] => True
  | c :: r =>
      (is_space c = true ->
       c = " "%char /\ match r with [] => True | c' :: _ => is_space c' = false end)
      /\ single_spaced r
  end.

(** No whitespace at either end. *)
Definition trimmed (l : list ascii) : Prop :=
  match l with
  | [] => True
  | c :: _ => is_space c = false /\ is_space (last l c) = false
  end.

(** ** Feed parsing *)

(** A [job] element of the feed as the parser reads it: its children by
    tag, with their text. The XML reader that yields the elements is
    outside. *)
Definition Element : Type := list (string * string).

(** [(elem.findtext(tag) or '').strip()]. *)
Definition field (elem : Element) (tag : string) : string :=
  match dict_get tag elem with
  | Some text => string_of_list_ascii (strip (list_ascii_of_string text))
  | None => ""
  end.

(** [s.lower()]. *)
Definition lower_text (s : string) : string :=
  string_of_list_ascii (map lower_char (list_ascii_of_string s)).

Definition job_of_element (elem : Element) : Job :=
  mkJob (field elem "referencenumber") (field elem "title") (field elem "company")
    (field elem "city") (field elem "state") (field elem "country")
    (String.eqb (lower_text (field elem "remote")) "true")
    (field elem "description") (field elem "education") (field elem "jobtype")
    (field elem "category") (field elem "experience") (field elem "url")
    (field elem "date").

(** The truth value of a string: not empty. *)
Definition nonempty (s : string) : bool :=
  match s with EmptyString => false | _ => true end.

(** [job['id'] and job['title'] and job['description']]. *)
Definition valid_job (job : Job) : bool :=
  nonempty (id job) && nonempty (title job) && nonempty (description job).

(** [max_jobs and len(jobs) >= max_jobs]; [None] is the default. *)
Definition limit_reached (max_jobs : option Z) (jobs : list Job) : bool :=
  match max_jobs with
  | None => false
  | Some k => negb (k =? 0)%Z && (k <=? Z.of_nat (length jobs))%Z
  end.

(** The loop of [parse_feed] over the elements, with the jobs so far. *)
Fixpoint parse_loop (max_jobs : option Z) (elems : list Element) (jobs : list Job)
  : list Job :=
  match elems with
  | [] => jobs
  | elem :: rest =>
      let job := job_of_element elem in
      let jobs' := if valid_job job then jobs ++ [job] else jobs in
      if limit_reached max_jobs jobs' then jobs'
      else parse_loop max_jobs rest jobs'
  end.

Definition parse_feed (max_jobs : option Z) (elems : list Element) : list Job :=
  parse_loop max_jobs elems [].

(** A feed of three elements; the second has no title. *)
Definition three_elements : list Element :=
  [[("referencenumber", " A1 "); ("title", "Engineer"); ("description", "<p>Build</p>");
    ("remote", " TRUE ")];
   [("referencenumber", "A2"); ("description", "x")];
   [("referencenumber", "A3"); ("title", "Nurse"); ("description", "Care");
    ("city", "  ")]].

(** ** HTML to text, as the sample-data script does it *)

(** The longest prefix of characters in a class, and the rest. *)
Fixpoint span_of (p : ascii -> bool) (l : list ascii) : list ascii * list ascii :=
  match l with
  | [] => ([], [])
  | c :: r =>
      if p c then let (a, b) := span_of p r in (c :: a, b) else ([], l)
  end.

(** [re.sub(pattern, ' ', text)] for a pattern made of an opening
    character, one or more characters of a class and a closing character
    that is not in the class: [<[^>]+>] and [&\w+;]. At an opening
    character the class is followed as far as it goes; with at least one
    character and the closing one behind, the match becomes a space and
    the scan goes on after it, else the opening character stays and the
    scan goes on with the next character. The fuel is the length of the
    text. *)
Fixpoint sub_bracketed (opening closing : ascii) (inside : ascii -> bool)
  (fuel : nat) (l : list ascii) : list ascii :=
  match fuel, l with
  | O, _ => l
  | _, [] => []
  | S fuel', c :: r =>
      if Ascii.eqb c opening then
        match span_of inside r with
        | (_ :: _, c' :: rest) =>
            if Ascii.eqb c' closing
            then " "%char :: sub_bracketed opening closing inside fuel' rest
            else c :: sub_bracketed opening closing inside fuel' r
        | _ => c :: sub_bracketed opening closing inside fuel' r
        end
      else c :: sub_bracketed opening closing inside fuel' r
  end.

(** [re.sub(r'<[^>]+>', ' ', text)]. *)
Definition sub_tags (l : list ascii) : list ascii :=
  sub_bracketed "<" ">" (fun c => negb (Ascii.eqb c ">")) (length l) l.

(** [\w]. *)
Definition is_word (c : ascii) : bool :=
  is_lower c || is_upper c || is_digit c || Ascii.eqb c "_".

(** [re.sub(r'&\w+;', ' ', text)]. *)
Definition sub_entities (l : list ascii) : list ascii :=
  sub_bracketed "&" ";" is_word (length l) l.

Definition clean_html_chars (l : list ascii) : list ascii :=
  strip (collapse_ws (sub_entities (sub_tags l))).

(** [clean_html] of [generate_sample_data.py]. *)
Definition clean_html (raw_html : string) : string :=
  match raw_html with
  | EmptyString => ""
  | _ => string_of_list_ascii (clean_html_chars (list_ascii_of_string raw_html))
  end.

(** What may follow a [<] that is no tag: nothing, a [>] at once, or a
    rest without [>]. *)
Definition no_tag_ahead (r : list ascii) : Prop :=
  match r with
  | [] => True
  | c :: _ => c = ">"%char \/ ~ In ">"%char r
  end.

(** No [<] of the text opens a tag. *)
Fixpoint tag_free (l : list ascii) : Prop :=
  match l with
  | [] => True
  | c :: r => (c = "<"%char -> no_tag_ahead r) /\ tag_free r
  end.

(** ** The overlap analysis of [main] *)

(** [{r['id'] for r in rec_list}]. *)
Definition id_set (rec_list : list Rec) : list string := uniq (map fst rec_list).

(** [len(base_ids & wtd_ids)]. *)
Definition overlap (base wtd : list Rec) : nat :=
  length (filter (fun k => existsb (String.eqb k) (id_set wtd)) (id_set base)).

(** The loop over the keys of the baseline map; [None] stands for the
    [KeyError] of a key that the weighted map lacks. *)
Fixpoint overlaps_loop (keys : list string) (baseline_recs weighted_recs : Recs)
  : option (list nat) :=
  match keys with
  | [] => Some []
  | job_id :: rest =>
      match dict_get job_id baseline_recs, dict_get job_id weighted_recs with
      | Some base, Some wtd =>
          option_map (cons (overlap base wtd)) (overlaps_loop rest baseline_recs weighted_recs)
      | _, _ => None
      end
  end.

Definition overlaps (baseline_recs weighted_recs : Recs) : option (list nat) :=
  overlaps_loop (map fst baseline_recs) baseline_recs weighted_recs.

(** ** Predicates of the statements *)

(** A [k] by [k] matrix. *)
Definition square (m : Matrix) (k : nat) : Prop :=
  length m = k /\ Forall (fun row => length row = k) m.


(** The recommendation emitted for column [c] of the masked row. *)
Definition emits (df : DataFrame) (scores : list Q) (c : nat) (r : Rec) : Prop :=
  exists job, nth_error df c = Some job /\ r = (id job, round4 (score scores c)).

(** The list [l] stored under the key [k] is the one the loop body
    computes for a row whose job has id [k]. *)
Definition row_result {np : Argsort} (sim : Matrix) (df : DataFrame) (n : nat)
  (k : string) (l : list Rec) : Prop :=
  exists i job, nth_error df i = Some job /\ id job = k
                /\ recs_of_row sim df n i = Ok l.

(** The share of a category in the deduplicated frame. *)
Definition share (df_dedup : DataFrame) (cat : string) : Q :=
  (inject_Z (Z.of_nat (count_occ string_dec (map category df_dedup) cat))
   / inject_Z (Z.of_nat (length df_dedup)))%Q.

(** The entry of [cat_proportions] for a category: the float64 quotient
    of its number of rows and the number of rows of the frame. *)
Definition cat_proportion (df_dedup : DataFrame) (cat : string) : Q :=
  float_div (float_of_int (Z.of_nat (count_occ string_dec (map category df_dedup) cat)))
            (float_of_int (Z.of_nat (length df_dedup))).

(** The entry of [cat_proportions * n] for a category: the float64
    product that [int()] truncates. *)
Definition scaled_proportion (df_dedup : DataFrame) (cat : string) (n : Z) : Q :=
  float_mul (cat_proportion df_dedup cat) (float_of_int n).

(** The number of rows of a category. *)
Definition cat_size (df_dedup : DataFrame) (cat : string) : Z :=
  Z.of_nat (length (filter (fun j => String.eqb (category j) cat) df_dedup)).

(** The initial quota in the words of the specification:
    [max(round(share * N), M)]. *)
Definition spec_initial_quota (share : Q) (n min_per_group : Z) : Z :=
  Z.max (round_half_even (share * inject_Z n)) min_per_group.

(** Quotas that are not negative. *)
Definition nonneg (s : Series) : Prop := Forall (fun p => (0 <= snd p)%Z) s.

(** The number of rows the sampling loop draws under the given quotas:
    for each category the smaller of its quota and its number of rows. *)
Definition drawn (df_dedup : DataFrame) (quotas : Series) : Z :=
  series_sum (map (fun p => (fst p, Z.min (snd p) (cat_size df_dedup (fst p)))) quotas).

(** The sum of [f] over a list of labels. *)
Definition sum_over (f : string -> Z) (u : list string) : Z :=
  fold_right Z.add 0%Z (map f u).

(** ** Inputs of the examples *)

(** A job with an id and nothing else. *)
Definition job_with_id (i : string) : Job :=
  mkJob i "" "" "" "" "" false "" "" "" "" "" "" "".

(** A job with an id, a title and a category. *)
Definition job_in (i t c : string) : Job :=
  mkJob i t "" "" "" "" false "" "" "" c "" "" "".

(** A job with an id, a city, a state and a country. *)
Definition job_at (i c s k : string) : Job :=
  mkJob i "" "" c s k false "" "" "" "" "" "" "".

Definition two_jobs : DataFrame := [job_with_id "a"; job_with_id "b"].

Definition two_sim : Matrix := [[1; 1#2]; [1#2; 1]]%Q.

Definition three_jobs : DataFrame :=
  [job_with_id "a"; job_with_id "b"; job_with_id "c"].

(** A similarity matrix over three jobs without equal scores in a row,
    and one whose first row has the same score in columns 1 and 2. *)
Definition three_sim : Matrix :=
  [[1; 1#2; 1#4]; [1#2; 1; 1#3]; [1#4; 1#3; 1]]%Q.

Definition tied_sim : Matrix :=
  [[1; 1#2; 1#2]; [1#2; 1; 1#3]; [1#2; 1#3; 1]]%Q.


(** A frame of a single job. *)
Definition one_job : DataFrame := [job_in "1" "t1" "A"].

(** Two jobs of category A and one of category B. *)
Definition two_one_jobs : DataFrame :=
  [job_in "1" "t1" "A"; job_in "2" "t2" "A"; job_in "3" "t3" "B"].

(** Six jobs of category A and five of category B, all with different
    titles. *)
Definition eleven_jobs : DataFrame :=
  map (fun i => job_in i i "A") ["1"; "2"; "3"; "4"; "5"; "6"]
  ++ map (fun i => job_in i i "B") ["7"; "8"; "9"; "10"; "11"].

(** Nine jobs of category A and one of category B, all with different
    titles. *)
Definition ten_jobs : DataFrame :=
  map (fun i => job_in i i "A") ["1"; "2"; "3"; "4"; "5"; "6"; "7"; "8"; "9"]
  ++ [job_in "10" "10" "B"].

(** Two jobs without a city, in different states and countries. *)
Definition no_city_jobs : DataFrame :=
  [job_at "a" "" "Texas" "US"; job_at "b" "" "Bavaria" "DE"].

(** * Properties *)

(** ** Results, lists and rows *)

Lemma item_Ok {A : Type} (xs : list A) (i : nat) (x : A) :
  item xs i = Ok x <-> nth_error xs i = Some x.
Proof.
  unfold item. destruct (nth_error xs i); split; intros H; inversion H; reflexivity.
Qed.

Lemma item_lt {A : Type} (xs : list A) (i : nat) :
  (i < length xs)%nat -> exists x, item xs i = Ok x.
Proof.
  intros H. unfold item. destruct (nth_error xs i) eqn:E.
  - eauto.
  - apply nth_error_None in E. lia.
Qed.

Lemma item_ge {A : Type} (xs : list A) (i : nat) :
  (length xs <= i)%nat -> item xs i = Raise IndexError.
Proof.
  intros H. unfold item. apply nth_error_None in H. rewrite H. reflexivity.
Qed.

Lemma set_item_lt {A : Type} (xs : list A) (i : nat) (v : A) :
  (i < length xs)%nat ->
  exists ys, set_item xs i v = Ok ys /\ length ys = length xs
             /\ nth_error ys i = Some v
             /\ (forall k, k <> i -> nth_error ys k = nth_error xs k).
Proof.
  revert i. induction xs as [|x xs IH]; intros i H; simpl in H; [lia|].
  destruct i as [|i]; simpl.
  - exists (v :: xs). repeat split. intros [|k] Hk; [congruence | reflexivity].
  - destruct (IH i) as (ys & E & L & N & O); [lia|].
    rewrite E. simpl. exists (x :: ys). repeat split; simpl; auto.
    intros [|k] Hk; [reflexivity|]. apply O. congruence.
Qed.

Lemma for_each_Forall2 {A B : Type} (f : A -> result B) (js : list A) (ys : list B) :
  for_each f js = Ok ys <-> Forall2 (fun j y => f j = Ok y) js ys.
Proof.
  revert ys. induction js as [|j js IH]; intros ys; simpl.
  - split; intros H; [inversion H; constructor | inversion H; reflexivity].
  - split.
    + destruct (f j) eqn:E; simpl; try discriminate.
      destruct (for_each f js) eqn:E'; simpl; try discriminate.
      intros H; inversion H; subst. constructor; [assumption|]. apply IH. reflexivity.
    + intros H. inversion H as [|? y ? ys' Hf Hr]; subst.
      rewrite Hf. simpl. apply IH in Hr. rewrite Hr. reflexivity.
Qed.

Lemma Forall2_In_l {A B : Type} (R : A -> B -> Prop) (l : list A) (l' : list B) (x : A) :
  Forall2 R l l' -> In x l -> exists y, In y l' /\ R x y.
Proof.
  induction 1 as [|a b l l' Hab _ IH]; intros Hin; simpl in *; [contradiction|].
  destruct Hin as [<- | Hin].
  - exists b. auto.
  - destruct (IH Hin) as (y & Hy & Hr). exists y. auto.
Qed.

Lemma Forall2_In_r {A B : Type} (R : A -> B -> Prop) (l : list A) (l' : list B) (y : B) :
  Forall2 R l l' -> In y l' -> exists x, In x l /\ R x y.
Proof.
  induction 1 as [|a b l l' Hab _ IH]; intros Hin; simpl in *; [contradiction|].
  destruct Hin as [<- | Hin].
  - exists a. auto.
  - destruct (IH Hin) as (x & Hx & Hr). exists x. auto.
Qed.

Lemma for_each_total {A B : Type} (f : A -> result B) (js : list A) :
  (forall j, In j js -> exists y, f j = Ok y) ->
  exists ys, for_each f js = Ok ys.
Proof.
  induction js as [|j js IH]; intros H; simpl.
  - eauto.
  - destruct (H j) as [y E]; [left; reflexivity|]. rewrite E. simpl.
    destruct IH as [ys E']; [intros; apply H; right; assumption|].
    rewrite E'. simpl. eauto.
Qed.

(** ** The ranking step *)

Lemma insert_index_perm (s : list Q) (i : nat) (l : list nat) :
  Permutation (insert_index s i l) (i :: l).
Proof.
  induction l as [|k l IH]; simpl.
  - reflexivity.
  - destruct (Qle_bool (score s i) (score s k)).
    + reflexivity.
    + rewrite IH. apply perm_swap.
Qed.

Lemma stable_indices_perm (s : list Q) :
  Permutation (stable_indices s) (seq 0 (length s)).
Proof.
  unfold stable_indices. induction (seq 0 (length s)) as [|x l IH]; simpl.
  - reflexivity.
  - rewrite insert_index_perm. constructor. exact IH.
Qed.

Lemma insert_index_sorted (s : list Q) (i : nat) (l : list nat) :
  StronglySorted (ascending s) l -> StronglySorted (ascending s) (insert_index s i l).
Proof.
  induction l as [|k l IH]; intros Hs; simpl.
  - repeat constructor.
  - inversion Hs as [|? ? Hs' Hk]; subst.
    destruct (Qle_bool (score s i) (score s k)) eqn:E.
    + apply Qle_bool_iff in E. constructor; [assumption|].
      constructor; [exact E|].
      rewrite Forall_forall in *. intros y Hy. unfold ascending in *.
      eapply Qle_trans; [exact E | auto].
    + constructor; [auto|].
      assert (L : (score s k < score s i)%Q).
      { apply Qnot_le_lt. intros C. apply Qle_bool_iff in C. congruence. }
      rewrite Forall_forall in *. intros y Hy.
      apply (Permutation_in _ (insert_index_perm s i l)) in Hy.
      destruct Hy as [<- | Hy]; [apply Qlt_le_weak, L | auto].
Qed.

Lemma stable_indices_sorted (s : list Q) : StronglySorted (ascending s) (stable_indices s).
Proof.
  unfold stable_indices. induction (seq 0 (length s)) as [|x l IH]; simpl.
  - constructor.
  - apply insert_index_sorted, IH.
Qed.

(** The insertion sort meets the contract of [np.argsort]. *)
Definition stable_sort : Argsort := {|
  argsort := stable_indices;
  argsort_perm := stable_indices_perm;
  argsort_ascending := stable_indices_sorted
|}.

Lemma insert_index_behind_perm (s : list Q) (i : nat) (l : list nat) :
  Permutation (insert_index_behind s i l) (i :: l).
Proof.
  induction l as [|k l IH]; simpl.
  - reflexivity.
  - destruct (Qle_bool (score s k) (score s i)).
    + rewrite IH. apply perm_swap.
    + reflexivity.
Qed.

Lemma tie_reversing_indices_perm (s : list Q) :
  Permutation (tie_reversing_indices s) (seq 0 (length s)).
Proof.
  unfold tie_reversing_indices. induction (seq 0 (length s)) as [|x l IH]; simpl.
  - reflexivity.
  - rewrite insert_index_behind_perm. constructor. exact IH.
Qed.

Lemma insert_index_behind_sorted (s : list Q) (i : nat) (l : list nat) :
  StronglySorted (ascending s) l ->
  StronglySorted (ascending s) (insert_index_behind s i l).
Proof.
  induction l as [|k l IH]; intros Hs; simpl.
  - repeat constructor.
  - inversion Hs as [|? ? Hs' Hk]; subst.
    destruct (Qle_bool (score s k) (score s i)) eqn:E.
    + apply Qle_bool_iff in E. constructor; [auto|].
      rewrite Forall_forall in *. intros y Hy.
      apply (Permutation_in _ (insert_index_behind_perm s i l)) in Hy.
      destruct Hy as [<- | Hy]; [exact E | auto].
    + assert (L : (score s i < score s k)%Q).
      { apply Qnot_le_lt. intros C. apply Qle_bool_iff in C. congruence. }
      constructor; [assumption|]. constructor; [apply Qlt_le_weak, L|].
      rewrite Forall_forall in *. intros y Hy. unfold ascending in *.
      eapply Qle_trans; [apply Qlt_le_weak, L | auto].
Qed.

Lemma tie_reversing_indices_sorted (s : list Q) :
  StronglySorted (ascending s) (tie_reversing_indices s).
Proof.
  unfold tie_reversing_indices. induction (seq 0 (length s)) as [|x l IH]; simpl.
  - constructor.
  - apply insert_index_behind_sorted, IH.
Qed.

Definition tie_reversing_sort : Argsort := {|
  argsort := tie_reversing_indices;
  argsort_perm := tie_reversing_indices_perm;
  argsort_ascending := tie_reversing_indices_sorted
|}.

Lemma argsort_length {np : Argsort} (s : list Q) : length (argsort s) = length s.
Proof.
  rewrite (Permutation_length (argsort_perm s)). apply length_seq.
Qed.

Lemma argsort_In {np : Argsort} (s : list Q) (c : nat) :
  In c (argsort s) <-> (c < length s)%nat.
Proof.
  split; intros H.
  - apply (Permutation_in _ (argsort_perm s)) in H. apply in_seq in H. lia.
  - apply (Permutation_in _ (Permutation_sym (argsort_perm s))). apply in_seq. lia.
Qed.

Lemma argsort_NoDup {np : Argsort} (s : list Q) : NoDup (argsort s).
Proof.
  apply (Permutation_NoDup (Permutation_sym (argsort_perm s))). apply seq_NoDup.
Qed.

(** A list has one arrangement that is sorted by an order without ties
    among its elements. *)
Lemma sorted_perm_unique (R : nat -> nat -> Prop) (l l' : list nat) :
  (forall a b, In a l -> In b l -> R a b -> R b a -> a = b) ->
  Permutation l l' -> StronglySorted R l -> StronglySorted R l' -> l = l'.
Proof.
  revert l'. induction l as [|a t IH]; intros l' Anti P Hs Hs'.
  - apply Permutation_nil in P. congruence.
  - destruct l' as [|b t']; [apply Permutation_sym, Permutation_nil in P; discriminate|].
    inversion Hs as [|? ? Ht Ha]; subst. inversion Hs' as [|? ? Ht' Hb]; subst.
    rewrite Forall_forall in Ha, Hb.
    assert (a = b) as <-.
    { assert (Ia : In a (b :: t')) by (apply (Permutation_in _ P); left; reflexivity).
      assert (Ib : In b (a :: t))
        by (apply (Permutation_in _ (Permutation_sym P)); left; reflexivity).
      destruct Ia as [E | Ia]; [congruence|].
      destruct Ib as [E | Ib]; [congruence|].
      apply Anti; [left; reflexivity | right; exact Ib | apply Ha, Ib | apply Hb, Ia]. }
    f_equal. apply IH; [| eapply Permutation_cons_inv, P | assumption | assumption].
    intros x y Hx Hy. apply Anti; right; assumption.
Qed.

(** On a row without equal scores every sort that meets the contract
    returns the same indices. *)
Lemma argsort_no_ties (np np' : Argsort) (s : list Q) :
  (forall a b, (a < length s)%nat -> (b < length s)%nat ->
     (score s a == score s b)%Q -> a = b) ->
  argsort (Argsort := np) s = argsort (Argsort := np') s.
Proof.
  intros Hd. apply (sorted_perm_unique (ascending s)).
  - intros a b Ha Hb Hab Hba. apply Hd.
    + apply (argsort_In (np := np)), Ha.
    + apply (argsort_In (np := np)), Hb.
    + apply Qle_antisym; assumption.
  - rewrite (argsort_perm (Argsort := np) s). symmetry. apply argsort_perm.
  - apply argsort_ascending.
  - apply argsort_ascending.
Qed.

Lemma StronglySorted_snoc {A : Type} (R : A -> A -> Prop) (l : list A) (x : A) :
  StronglySorted R l -> Forall (fun y => R y x) l -> StronglySorted R (l ++ [x]).
Proof.
  induction l as [|a l IH]; intros Hs Hx; simpl.
  - repeat constructor.
  - inversion Hs as [|? ? Hs' Ha]; subst. inversion Hx as [|? ? Hax Hx']; subst.
    constructor; [auto|]. apply Forall_app. split; [assumption | repeat constructor; assumption].
Qed.

Lemma StronglySorted_rev {A : Type} (R : A -> A -> Prop) (l : list A) :
  StronglySorted R l -> StronglySorted (fun a b => R b a) (rev l).
Proof.
  induction 1 as [|a l Hs IH Ha]; simpl.
  - constructor.
  - apply StronglySorted_snoc; [assumption|].
    rewrite Forall_forall in *. intros y Hy. apply Ha, in_rev, Hy.
Qed.

Lemma In_firstn {A : Type} (n : nat) (l : list A) (x : A) :
  In x (firstn n l) -> In x l.
Proof.
  revert l. induction n as [|n IH]; intros [|a l] H; simpl in *; try contradiction.
  destruct H as [H | H]; [left; assumption | right; apply IH, H].
Qed.


Lemma NoDup_firstn {A : Type} (n : nat) (l : list A) : NoDup l -> NoDup (firstn n l).
Proof.
  revert l. induction n as [|n IH]; intros [|a l] H; simpl; try constructor.
  - inversion H; subst. intros C. apply In_firstn in C. contradiction.
  - inversion H; subst. apply IH. assumption.
Qed.


Lemma top_indices_length {np : Argsort} (s : list Q) (n : nat) :
  length (top_indices s n) = Nat.min n (length s).
Proof.
  unfold top_indices. rewrite length_firstn, length_rev, argsort_length. reflexivity.
Qed.

Lemma top_indices_In {np : Argsort} (s : list Q) (n c : nat) :
  In c (top_indices s n) -> (c < length s)%nat.
Proof.
  unfold top_indices. intros H. apply In_firstn in H. apply in_rev in H.
  apply argsort_In, H.
Qed.

Lemma top_indices_NoDup {np : Argsort} (s : list Q) (n : nat) : NoDup (top_indices s n).
Proof.
  unfold top_indices. apply NoDup_firstn, NoDup_rev, argsort_NoDup.
Qed.

(** ** One row of the extractor *)

Lemma set_item_Ok {A : Type} (xs ys : list A) (i : nat) (v : A) :
  set_item xs i v = Ok ys ->
  (i < length xs)%nat /\ length ys = length xs /\ nth_error ys i = Some v
  /\ (forall k, k <> i -> nth_error ys k = nth_error xs k).
Proof.
  intros H. assert (L : (i < length xs)%nat).
  { revert i ys H. induction xs as [|x xs IH]; intros i ys H; simpl in *; [discriminate|].
    destruct i as [|i]; [lia|]. destruct (set_item xs i v) eqn:E; try discriminate.
    apply IH in E. lia. }
  split; [exact L|]. destruct (set_item_lt xs i v L) as (ys' & E & P).
  rewrite E in H. inversion H; subst. exact P.
Qed.

Lemma score_nth_error (s : list Q) (c : nat) (x : Q) :
  nth_error s c = Some x -> score s c = x.
Proof. intros H. unfold score. apply nth_error_nth, H. Qed.

(** What [masked_row] returns: the row with -1 at the item's own column. *)
Lemma masked_row_Ok (sim : Matrix) (i : nat) (scores : list Q) :
  masked_row sim i = Ok scores ->
  exists row, nth_error sim i = Some row /\ (i < length row)%nat
    /\ length scores = length row /\ score scores i = (-1)%Q
    /\ (forall k, k <> i -> score scores k = score row k).
Proof.
  unfold masked_row. destruct (item sim i) as [row| |] eqn:E; simpl; try discriminate.
  intros H. apply item_Ok in E. apply set_item_Ok in H. destruct H as (L & Len & N & O).
  exists row. repeat split; auto.
  - apply score_nth_error, N.
  - intros k Hk. unfold score. specialize (O k Hk).
    destruct (nth_error row k) eqn:Er.
    + rewrite (nth_error_nth _ _ _ O), (nth_error_nth _ _ _ Er). reflexivity.
    + rewrite !nth_overflow; [reflexivity| |]; apply nth_error_None; assumption.
Qed.

Lemma rec_entry_Ok (df : DataFrame) (scores : list Q) (top : list nat) (j : nat) (r : Rec) :
  rec_entry df scores top j = Ok r ->
  exists c, nth_error top j = Some c /\ emits df scores c r.
Proof.
  unfold rec_entry. destruct (item top j) as [c| |] eqn:Ec; simpl; try discriminate.
  destruct (item df c) as [job| |] eqn:Ej; simpl; try discriminate.
  destruct (item scores c) as [x| |] eqn:Es; simpl; try discriminate.
  intros H. inversion H; subst. apply item_Ok in Ec, Ej, Es.
  exists c. split; [assumption|]. exists job. split; [assumption|].
  rewrite (score_nth_error _ _ _ Es). reflexivity.
Qed.

Lemma for_each_rec_entry (df : DataFrame) (scores : list Q) (pre top : list nat)
  (l : list Rec) :
  for_each (rec_entry df scores (pre ++ top)) (seq (length pre) (length top)) = Ok l ->
  Forall2 (emits df scores) top l.
Proof.
  revert pre l. induction top as [|c top IH]; intros pre l; simpl.
  - intros H. inversion H. constructor.
  - destruct (rec_entry df scores (pre ++ c :: top) (length pre)) as [r| |] eqn:E;
      simpl; try discriminate.
    destruct (for_each _ (seq (S (length pre)) (length top))) as [rs| |] eqn:E';
      simpl; try discriminate.
    intros H. inversion H; subst. constructor.
    + apply rec_entry_Ok in E. destruct E as (c' & N & Em).
      rewrite nth_error_app2 in N by lia. rewrite Nat.sub_diag in N. simpl in N.
      inversion N; subst. assumption.
    + apply (IH (pre ++ [c])). rewrite <- app_assoc, length_app. simpl.
      rewrite Nat.add_1_r. exact E'.
Qed.

Lemma recs_of_row_Ok {np : Argsort} (sim : Matrix) (df : DataFrame) (n i : nat) (l : list Rec) :
  recs_of_row sim df n i = Ok l ->
  exists scores, masked_row sim i = Ok scores
    /\ length (top_indices scores n) = n /\ length l = n
    /\ Forall2 (emits df scores) (top_indices scores n) l.
Proof.
  unfold recs_of_row. destruct (masked_row sim i) as [scores| |] eqn:E; simpl; try discriminate.
  intros H. exists scores. split; [reflexivity|].
  assert (L : length (top_indices scores n) = n).
  { pose proof (top_indices_length scores n) as Hl.
    destruct (Nat.le_gt_cases n (length (top_indices scores n))) as [G | G]; [lia|].
    exfalso. apply for_each_Forall2 in H.
    assert (Hin : In (length (top_indices scores n)) (seq 0 n)) by (apply in_seq; lia).
    destruct (Forall2_In_l _ _ _ _ H Hin) as (r & _ & Hr).
    apply rec_entry_Ok in Hr. destruct Hr as (c & N & _).
    assert (nth_error (top_indices scores n) (length (top_indices scores n)) <> None)
      by congruence.
    apply nth_error_Some in H0. lia. }
  assert (F : Forall2 (emits df scores) (top_indices scores n) l).
  { apply (for_each_rec_entry df scores []). simpl. rewrite L. exact H. }
  repeat split; auto. rewrite <- (Forall2_length F). exact L.
Qed.

Lemma recs_of_row_total {np : Argsort} (sim : Matrix) (df : DataFrame) (n i : nat) :
  square sim (length df) -> (n <= length df)%nat -> (i < length df)%nat ->
  exists l, recs_of_row sim df n i = Ok l.
Proof.
  intros [Hl Hr] Hn Hi. unfold recs_of_row, masked_row.
  destruct (item_lt sim i) as [row E]; [lia|]. rewrite E. simpl.
  assert (Lr : length row = length df).
  { apply item_Ok in E. apply nth_error_In in E. rewrite Forall_forall in Hr. auto. }
  destruct (set_item_lt row i (-1)%Q) as (scores & Es & Ls & _); [lia|].
  rewrite Es. simpl. apply for_each_total. intros j Hj. apply in_seq in Hj.
  unfold rec_entry.
  destruct (item_lt (top_indices scores n) j) as [c Ec].
  { rewrite top_indices_length. lia. }
  rewrite Ec. simpl. apply item_Ok in Ec. apply nth_error_In, top_indices_In in Ec.
  destruct (item_lt df c) as [job Ej]; [lia|]. rewrite Ej. simpl.
  destruct (item_lt scores c) as [x Ex]; [lia|]. rewrite Ex. simpl. eauto.
Qed.

(** ** The dict of recommendations *)

Lemma In_dict_set {V : Type} (k k0 : string) (v v0 : V) (d : list (string * V)) :
  In (k, v) (dict_set k0 v0 d) -> (k, v) = (k0, v0) \/ In (k, v) d.
Proof.
  induction d as [|[k' v'] d IH]; simpl.
  - intros [H | []]. left. congruence.
  - destruct (String.eqb k' k0); simpl.
    + intros [H | H]; [left; congruence | right; right; assumption].
    + intros [H | H]; [right; left; assumption|].
      destruct (IH H); [left | right; right]; assumption.
Qed.

Lemma dict_get_set {V : Type} (k k0 : string) (v0 : V) (d : list (string * V)) :
  dict_get k (dict_set k0 v0 d) = if String.eqb k0 k then Some v0 else dict_get k d.
Proof.
  induction d as [|[k' v'] d IH]; simpl.
  - reflexivity.
  - destruct (String.eqb k' k0) eqn:E; simpl.
    + apply String.eqb_eq in E. subst k'. destruct (String.eqb k0 k); reflexivity.
    + destruct (String.eqb k' k) eqn:E'.
      * apply String.eqb_eq in E'. subst k'. rewrite String.eqb_sym, E. reflexivity.
      * exact IH.
Qed.

Lemma get_top_n_loop_Ok {np : Argsort} (sim : Matrix) (df : DataFrame) (n : nat) (rows : list nat)
  (recs recs' : Recs) :
  get_top_n_loop sim df n rows recs = Ok recs' ->
  (forall k l, In (k, l) recs -> row_result sim df n k l) ->
  forall k l, In (k, l) recs' -> row_result sim df n k l.
Proof.
  revert recs. induction rows as [|i rows IH]; intros recs H Hinv; simpl in H.
  - inversion H; subst. assumption.
  - destruct (recs_of_row sim df n i) as [l0| |] eqn:E; simpl in H; try discriminate.
    destruct (item df i) as [job| |] eqn:Ej; simpl in H; try discriminate.
    apply (IH _ H). intros k l Hin. apply In_dict_set in Hin.
    destruct Hin as [Heq | Hin]; [|auto]. inversion Heq; subst.
    exists i, job. apply item_Ok in Ej. auto.
Qed.

Lemma get_top_n_loop_keys {np : Argsort} (sim : Matrix) (df : DataFrame) (n : nat) (rows : list nat)
  (recs recs' : Recs) :
  get_top_n_loop sim df n rows recs = Ok recs' ->
  forall k, (dict_get k recs <> None
             \/ exists i job, In i rows /\ nth_error df i = Some job /\ id job = k) ->
            dict_get k recs' <> None.
Proof.
  revert recs. induction rows as [|i rows IH]; intros recs H k Hk; simpl in H.
  - inversion H; subst. destruct Hk as [Hk | (i & job & [] & _)]. assumption.
  - destruct (recs_of_row sim df n i) as [l0| |] eqn:E; simpl in H; try discriminate.
    destruct (item df i) as [job| |] eqn:Ej; simpl in H; try discriminate.
    apply (IH _ H). rewrite dict_get_set. apply item_Ok in Ej.
    destruct (String.eqb (id job) k) eqn:Ek; [left; discriminate|].
    destruct Hk as [Hk | (i' & job' & [<- | Hin] & Hn & Hid)].
    + left. assumption.
    + rewrite Hn in Ej. inversion Ej; subst. rewrite String.eqb_refl in Ek. discriminate.
    + right. eauto.
Qed.

Lemma get_top_n_loop_total {np : Argsort} (sim : Matrix) (df : DataFrame) (n : nat) (rows : list nat)
  (recs : Recs) :
  (forall i, In i rows -> (i < length df)%nat /\ exists l, recs_of_row sim df n i = Ok l) ->
  exists recs', get_top_n_loop sim df n rows recs = Ok recs'.
Proof.
  revert recs. induction rows as [|i rows IH]; intros recs H; simpl.
  - eauto.
  - destruct (H i) as (Hi & l & E); [left; reflexivity|]. rewrite E. simpl.
    destruct (item_lt df i Hi) as [job Ej]. rewrite Ej. simpl.
    apply IH. intros; apply H; right; assumption.
Qed.

(** The extractor on a square matrix with at least [n] columns: it
    returns, every job has an entry, and every entry is the result of the
    loop body on a row of that job id. *)
Lemma get_top_n_recs_total {np : Argsort} (sim : Matrix) (df : DataFrame) (n : nat) :
  square sim (length df) -> (n <= length df)%nat ->
  exists recs, get_top_n_recs sim df n = Ok recs
    /\ (forall job, In job df -> dict_get (id job) recs <> None)
    /\ (forall k l, In (k, l) recs -> row_result sim df n k l).
Proof.
  intros Hsq Hn. unfold get_top_n_recs.
  destruct (get_top_n_loop_total sim df n (seq 0 (length df)) []) as [recs E].
  { intros i Hi. apply in_seq in Hi. split; [lia|].
    apply recs_of_row_total; auto; lia. }
  exists recs. split; [exact E|]. split.
  - intros job Hin. apply (get_top_n_loop_keys _ _ _ _ _ _ E). right.
    apply In_nth_error in Hin. destruct Hin as [i Hi]. exists i, job.
    repeat split; auto. apply in_seq. split; [lia|]. simpl.
    apply nth_error_Some. congruence.
  - apply (get_top_n_loop_Ok _ _ _ _ _ _ E). intros k l [].
Qed.

(** ** Rounding *)

Lemma round_half_even_spec (x : Q) :
  let r := round_half_even x in
  let n := Qnum x in
  let d := Zpos (Qden x) in
  ((2 * r - 1) * d <= 2 * n <= (2 * r + 1) * d)%Z
  /\ ((2 * n = (2 * r + 1) * d \/ 2 * n = (2 * r - 1) * d)%Z -> Z.even r = true).
Proof.
  unfold round_half_even. destruct x as [n d]. cbn [Qnum Qden].
  pose proof (Z.div_mod n (Zpos d) ltac:(lia)) as Hdm.
  pose proof (Z.mod_pos_bound n (Zpos d) ltac:(lia)) as Hb.
  set (f := (n / Zpos d)%Z) in *. set (m := (n mod Zpos d)%Z) in *.
  clearbody f m.
  destruct (Z.compare_spec (2 * m) (Zpos d)) as [E | E | E].
  - destruct (Z.even f) eqn:Ev.
    + split; [nia|]. intros _. exact Ev.
    + split; [nia|]. intros _. rewrite Z.even_add, Ev. reflexivity.
  - split; [nia|]. intros [H | H]; exfalso; nia.
  - split; [nia|]. intros [H | H]; exfalso; nia.
Qed.

Lemma round_half_even_mono (x y : Q) :
  (x <= y)%Q -> (round_half_even x <= round_half_even y)%Z.
Proof.
  intros H. unfold Qle in H.
  destruct (round_half_even_spec x) as [[Lx Ux] Ex].
  destruct (round_half_even_spec y) as [[Ly Uy] Ey].
  set (rx := round_half_even x) in *. set (ry := round_half_even y) in *.
  set (nx := Qnum x) in *. set (ny := Qnum y) in *.
  set (dx := Zpos (Qden x)) in *. set (dy := Zpos (Qden y)) in *.
  assert (Px : (0 < dx)%Z) by (subst dx; lia).
  assert (Py : (0 < dy)%Z) by (subst dy; lia).
  clearbody rx ry nx ny dx dy.
  destruct (Z.le_gt_cases rx ry) as [G | G]; [exact G | exfalso].
  assert (A1 : ((2 * ry + 1) * dx * dy <= 2 * nx * dy)%Z) by nia.
  assert (A2 : (2 * ny * dx <= (2 * ry + 1) * dx * dy)%Z) by nia.
  assert (B1 : (2 * nx = (2 * ry + 1) * dx)%Z) by nia.
  assert (B2 : (2 * ny = (2 * ry + 1) * dy)%Z) by nia.
  assert (R : (rx = ry + 1)%Z) by nia.
  assert (Evy : Z.even ry = true) by (apply Ey; left; exact B2).
  assert (Evx : Z.even rx = true) by (apply Ex; right; rewrite B1, R; ring).
  rewrite R, Z.even_add, Evy in Evx. discriminate.
Qed.

Lemma round4_mono (x y : Q) : (x <= y)%Q -> (round4 x <= round4 y)%Q.
Proof.
  intros H. unfold round4, Qle. cbn [Qnum Qden].
  assert (M : (round_half_even (x * 10000) <= round_half_even (y * 10000))%Z).
  { apply round_half_even_mono. apply Qmult_le_compat_r; [exact H | discriminate]. }
  lia.
Qed.

(** The rounded score is within half a unit of the fourth decimal. *)
Lemma round4_close (x : Q) : (Qabs (round4 x - x) <= 1 # 20000)%Q.
Proof.
  destruct (round_half_even_spec (x * 10000)) as [[L U] _].
  unfold round4. set (r := round_half_even (x * 10000)) in *. clearbody r.
  destruct x as [n d]. cbn [Qnum Qden Qmult] in L, U.
  apply Qabs_Qle_condition. unfold Qle, Qminus, Qplus, Qopp. cbn [Qnum Qden].
  split; nia.
Qed.

(** ** Rounding to float64 *)

(** [round] moves a value by at most one half, and leaves an integer
    where it is. *)
Lemma round_half_even_close (x : Q) :
  (Qabs (inject_Z (round_half_even x) - x) <= 1 # 2)%Q.
Proof.
  destruct (round_half_even_spec x) as [[L U] _].
  set (r := round_half_even x) in *. clearbody r.
  destruct x as [n d]. cbn [Qnum Qden] in L, U.
  apply Qabs_Qle_condition. unfold Qle, Qminus, Qplus, Qopp, inject_Z. cbn [Qnum Qden].
  split; nia.
Qed.

Lemma round_half_even_int (k : Z) (x : Q) :
  (x == inject_Z k)%Q -> round_half_even x = k.
Proof.
  intros H. apply Z.le_antisymm.
  - replace k with (round_half_even (inject_Z k)).
    + apply round_half_even_mono. rewrite H. apply Qle_refl.
    + unfold round_half_even, inject_Z. cbn [Qnum Qden].
      rewrite Z.div_1_r, Z.mod_1_r. reflexivity.
  - replace k with (round_half_even (inject_Z k)) at 1.
    + apply round_half_even_mono. rewrite H. apply Qle_refl.
    + unfold round_half_even, inject_Z. cbn [Qnum Qden].
      rewrite Z.div_1_r, Z.mod_1_r. reflexivity.
Qed.

(** Powers of two with an integer exponent. *)
Lemma two_power_pos (k : Z) : (0 < 2 ^ k)%Q.
Proof. apply Qpower_0_lt. reflexivity. Qed.

Lemma two_power_nat (k : Z) : (0 <= k)%Z -> (2 ^ k == inject_Z (2 ^ k))%Q.
Proof. intros H. rewrite (Zpower_Qpower 2 k H). reflexivity. Qed.

Lemma two_power_add (a b : Z) : (2 ^ (a + b) == 2 ^ a * 2 ^ b)%Q.
Proof. apply Qpower_plus. discriminate. Qed.

Lemma two_power_opp (a : Z) : (2 ^ (- a) == / 2 ^ a)%Q.
Proof. apply Qpower_opp. Qed.

(** A ratio of positive integers against a ratio of powers of two. *)
Lemma ratio_ge_powers (a : Z) (b : positive) (i j : Z) :
  (0 <= i)%Z -> (0 <= j)%Z -> (2 ^ i <= a)%Z -> (Zpos b <= 2 ^ j)%Z ->
  (2 ^ (i - j) <= a # b)%Q.
Proof.
  intros Hi Hj Ha Hb. unfold Z.sub. rewrite two_power_add, two_power_opp.
  rewrite (two_power_nat i Hi), (two_power_nat j Hj).
  assert (Pj : (0 < 2 ^ j)%Z) by (apply Z.pow_pos_nonneg; lia).
  assert (Pi : (0 < 2 ^ i)%Z) by (apply Z.pow_pos_nonneg; lia).
  apply Qle_shift_div_r.
  - unfold Qlt, inject_Z. simpl. lia.
  - unfold Qle, Qmult, inject_Z. cbn [Qnum Qden]. rewrite Pos.mul_1_r.
    set (A := (2 ^ i)%Z) in *. set (B := (2 ^ j)%Z) in *. clearbody A B. nia.
Qed.

Lemma ratio_lt_powers (a : Z) (b : positive) (i j : Z) :
  (0 <= i)%Z -> (0 <= j)%Z -> (0 < a < 2 ^ i)%Z -> (2 ^ j <= Zpos b)%Z ->
  (a # b < 2 ^ (i - j))%Q.
Proof.
  intros Hi Hj Ha Hb. unfold Z.sub. rewrite two_power_add, two_power_opp.
  rewrite (two_power_nat i Hi), (two_power_nat j Hj).
  assert (Pj : (0 < 2 ^ j)%Z) by (apply Z.pow_pos_nonneg; lia).
  apply Qlt_shift_div_l.
  - unfold Qlt, inject_Z. simpl. lia.
  - unfold Qlt, Qmult, inject_Z. cbn [Qnum Qden]. rewrite Pos.mul_1_r.
    set (A := (2 ^ i)%Z) in *. set (B := (2 ^ j)%Z) in *. clearbody A B. nia.
Qed.

(** The binade of a rational that is not zero. *)
Lemma binade_spec (x : Q) :
  ~ (x == 0)%Q -> (2 ^ binade x <= Qabs x)%Q /\ (Qabs x < 2 ^ (binade x + 1))%Q.
Proof.
  intros Hx. unfold binade. destruct x as [n d]. cbn [Qnum Qden Qabs].
  assert (Pa : (0 < Z.abs n)%Z).
  { destruct n; [exfalso; apply Hx; reflexivity | reflexivity | reflexivity]. }
  destruct (Z.log2_spec (Z.abs n) Pa) as [La Ua].
  destruct (Z.log2_spec (Zpos d) ltac:(lia)) as [Lb Ub].
  pose proof (Z.log2_nonneg (Z.abs n)) as Na.
  pose proof (Z.log2_nonneg (Zpos d)) as Nb.
  set (la := Z.log2 (Z.abs n)) in *. set (lb := Z.log2 (Zpos d)) in *.
  destruct (Qle_bool (2 ^ (la - lb)) (Z.abs n # d)) eqn:E.
  - split; [apply Qle_bool_iff, E|].
    replace (la - lb + 1)%Z with (Z.succ la - lb)%Z by lia.
    apply ratio_lt_powers; lia.
  - split.
    + replace (la - lb - 1)%Z with (la - Z.succ lb)%Z by lia.
      apply ratio_ge_powers; lia.
    + replace (la - lb - 1 + 1)%Z with (la - lb)%Z by lia.
      apply Qnot_le_lt. intros C. apply Qle_bool_iff in C. congruence.
Qed.

(** The value of [float64 x]: the significand [round(x / ulp)] times the
    unit in the last place of the binade of [x]. *)
Lemma float64_eq (x : Q) :
  ~ (x == 0)%Q ->
  (float64 x == inject_Z (round_half_even (x / 2 ^ (binade x - 52))) * 2 ^ (binade x - 52))%Q.
Proof.
  intros Hx. unfold float64.
  destruct (Qnum x) eqn:E.
  - exfalso. apply Hx. destruct x as [n d]. simpl in E. subst n. reflexivity.
  - apply Qred_correct.
  - apply Qred_correct.
Qed.

Lemma float64_zero (x : Q) : (x == 0)%Q -> float64 x = 0%Q.
Proof.
  intros H. unfold float64. destruct x as [[|p|p] d]; try reflexivity; discriminate H.
Qed.

Lemma float64_nonneg (x : Q) : (0 <= x)%Q -> (0 <= float64 x)%Q.
Proof.
  intros H. destruct (Qeq_dec x 0) as [E | E].
  - rewrite (float64_zero x E). apply Qle_refl.
  - rewrite (float64_eq x E). apply Qmult_le_0_compat.
    + change 0%Q with (inject_Z 0). rewrite <- Zle_Qle.
      change 0%Z with (round_half_even 0). apply round_half_even_mono.
      apply Qle_shift_div_l; [apply two_power_pos|]. rewrite Qmult_0_l. exact H.
    + apply Qlt_le_weak, two_power_pos.
Qed.

(** Rounding to float64 moves a value by at most half a unit of its last
    place: a relative error of at most 2^-53. *)
Lemma float64_close (x : Q) : (Qabs (float64 x - x) <= Qabs x * (1 # 9007199254740992))%Q.
Proof.
  destruct (Qeq_dec x 0) as [E | E].
  - rewrite (float64_zero x E), E. discriminate.
  - rewrite (float64_eq x E).
    destruct (binade_spec x E) as [L _].
    set (e := binade x) in *. clearbody e.
    pose proof (two_power_pos (e - 52)) as P.
    pose proof (round_half_even_close (x / 2 ^ (e - 52))) as C.
    set (y := (x / 2 ^ (e - 52))%Q) in *.
    assert (Hy : (x == y * 2 ^ (e - 52))%Q).
    { unfold y. field. intros Z0. rewrite Z0 in P. discriminate P. }
    set (r := inject_Z (round_half_even y)) in *. clearbody r.
    assert (D : (r * 2 ^ (e - 52) - x == (r - y) * 2 ^ (e - 52))%Q) by (rewrite Hy at 1; ring).
    rewrite D, Qabs_Qmult, (Qabs_pos (2 ^ (e - 52))) by (apply Qlt_le_weak, P).
    assert (T : (2 ^ (e - 52) == 2 ^ e * (1 # 4503599627370496))%Q).
    { unfold Z.sub. rewrite two_power_add. reflexivity. }
    rewrite T in *. clear T D Hy.
    set (u := (2 ^ e)%Q) in *. clearbody u. set (a := Qabs (r - y)) in *. clearbody a.
    set (b := Qabs x) in *. clearbody b.
    assert (Hu : (0 < u)%Q).
    { apply Qnot_le_lt. intros N. apply (Qlt_irrefl 0).
      eapply Qlt_le_trans; [exact P|].
      setoid_replace 0%Q with (0 * (1 # 4503599627370496))%Q by reflexivity.
      apply Qmult_le_compat_r; [exact N | discriminate]. }
    clear P. nra.
Qed.

Lemma two_power_le (a b : Z) : (a <= b)%Z -> (2 ^ a <= 2 ^ b)%Q.
Proof.
  intros H. replace b with (a + (b - a))%Z by lia. rewrite two_power_add.
  rewrite <- (Qmult_1_r (2 ^ a)) at 1.
  apply Qmult_le_l; [apply two_power_pos|].
  rewrite two_power_nat by lia. change 1%Q with (inject_Z 1). rewrite <- Zle_Qle.
  assert (0 < 2 ^ (b - a))%Z by (apply Z.pow_pos_nonneg; lia). lia.
Qed.

(** An integer of at most 53 bits is a float64. *)
Lemma float_of_int_exact (z : Z) :
  (Z.abs z < 2 ^ 53)%Z -> (float_of_int z == inject_Z z)%Q.
Proof.
  intros Hz. unfold float_of_int. destruct (Z.eq_dec z 0) as [-> | Nz]; [reflexivity|].
  assert (E : ~ (inject_Z z == 0)%Q).
  { unfold Qeq, inject_Z. cbn [Qnum Qden]. lia. }
  rewrite (float64_eq _ E). destruct (binade_spec _ E) as [L _].
  set (e := binade (inject_Z z)) in *. clearbody e.
  assert (He : (e <= 52)%Z).
  { destruct (Z.le_gt_cases e 52) as [G | G]; [exact G | exfalso].
    apply (Qlt_irrefl (2 ^ 53)). apply Qle_lt_trans with (Qabs (inject_Z z)).
    - eapply Qle_trans; [apply (two_power_le 53 e); lia | exact L].
    - change (Qabs (inject_Z z)) with (inject_Z (Z.abs z)).
      rewrite (two_power_nat 53) by lia. rewrite <- Zlt_Qlt. exact Hz. }
  assert (S : (2 ^ (e - 52) == / inject_Z (2 ^ (52 - e)))%Q).
  { replace (e - 52)%Z with (- (52 - e))%Z by lia.
    rewrite two_power_opp, two_power_nat by lia. reflexivity. }
  assert (P : (0 < 2 ^ (52 - e))%Z) by (apply Z.pow_pos_nonneg; lia).
  assert (Nz' : ~ (inject_Z (2 ^ (52 - e)) == 0)%Q).
  { unfold Qeq, inject_Z. cbn [Qnum Qden]. lia. }
  rewrite (round_half_even_int (z * 2 ^ (52 - e))).
  - rewrite S, inject_Z_mult. field. exact Nz'.
  - rewrite S, inject_Z_mult. field. exact Nz'.
Qed.

Lemma round_half_even_wd (x y : Q) : (x == y)%Q -> round_half_even x = round_half_even y.
Proof.
  intros H. apply Z.le_antisymm; apply round_half_even_mono; rewrite H; apply Qle_refl.
Qed.

Lemma binade_unique (x : Q) (e : Z) :
  ~ (x == 0)%Q -> (2 ^ e <= Qabs x)%Q -> (Qabs x < 2 ^ (e + 1))%Q -> binade x = e.
Proof.
  intros Hx L U. destruct (binade_spec x Hx) as [L' U'].
  destruct (Z.lt_trichotomy (binade x) e) as [C | [C | C]]; [exfalso | exact C | exfalso].
  - apply (Qlt_irrefl (Qabs x)). eapply Qlt_le_trans; [exact U'|].
    eapply Qle_trans; [apply (two_power_le (binade x + 1) e); lia | exact L].
  - apply (Qlt_irrefl (Qabs x)). eapply Qlt_le_trans; [exact U|].
    eapply Qle_trans; [apply (two_power_le (e + 1) (binade x)); lia | exact L'].
Qed.

(** [float64] is a function of the value of the rational, whatever the
    fraction that stands for it. *)
Lemma float64_wd (x y : Q) : (x == y)%Q -> float64 x = float64 y.
Proof.
  intros H. destruct (Qeq_dec x 0) as [E | E].
  - rewrite (float64_zero x E), (float64_zero y); [reflexivity | rewrite <- H; exact E].
  - assert (E' : ~ (y == 0)%Q) by (rewrite <- H; exact E).
    assert (B : binade y = binade x).
    { destruct (binade_spec x E) as [L U]. apply binade_unique; [exact E' | |];
        rewrite <- H; assumption. }
    unfold float64.
    destruct (Qnum x) eqn:Nx.
    { exfalso. apply E. destruct x as [n d]. simpl in Nx. subst n. reflexivity. }
    all: destruct (Qnum y) eqn:Ny;
      [exfalso; apply E'; destruct y as [n d]; simpl in Ny; subst n; reflexivity | |].
    all: apply Qred_complete; rewrite B;
      rewrite (round_half_even_wd (x / 2 ^ (binade x - 52)) (y / 2 ^ (binade x - 52)))
        by (apply Qdiv_comp; [exact H | reflexivity]);
      reflexivity.
Qed.

(** The float64 product of a share and a target size against the exact
    product: two roundings, each by a relative 2^-53 at most. *)
Lemma float_product_close (c t n : Z) :
  (0 <= c < 2 ^ 53)%Z -> (0 < t < 2 ^ 53)%Z -> (0 <= n < 2 ^ 53)%Z ->
  (Qabs (float_mul (float_div (float_of_int c) (float_of_int t)) (float_of_int n)
         - inject_Z c / inject_Z t * inject_Z n)
   <= inject_Z c / inject_Z t * inject_Z n * (3 # 9007199254740992))%Q.
Proof.
  intros Hc Ht Hn. unfold float_mul, float_div.
  rewrite (float64_wd (float_of_int c / float_of_int t) (inject_Z c / inject_Z t))
    by (rewrite !float_of_int_exact by lia; reflexivity).
  set (s := (inject_Z c / inject_Z t)%Q).
  assert (Hs : (0 <= s)%Q).
  { unfold s. apply Qle_shift_div_l.
    - change 0%Q with (inject_Z 0). rewrite <- Zlt_Qlt. lia.
    - rewrite Qmult_0_l. change 0%Q with (inject_Z 0). rewrite <- Zle_Qle. lia. }
  assert (Hq : (0 <= inject_Z n)%Q).
  { change 0%Q with (inject_Z 0). rewrite <- Zle_Qle. lia. }
  pose proof (float64_close s) as Cp. pose proof (float64_nonneg s Hs) as Np.
  set (p := float64 s) in *.
  rewrite (float64_wd (p * float_of_int n) (p * inject_Z n))
    by (rewrite float_of_int_exact by lia; reflexivity).
  pose proof (float64_close (p * inject_Z n)) as Cx.
  set (x := float64 (p * inject_Z n)) in *. clearbody x p s.
  set (q := inject_Z n) in *. clearbody q.
  rewrite (Qabs_pos s) in Cp by exact Hs.
  rewrite (Qabs_pos (p * q)) in Cx by (apply Qmult_le_0_compat; assumption).
  apply Qabs_Qle_condition in Cp. apply Qabs_Qle_condition in Cx.
  apply Qabs_Qle_condition. destruct Cp as [Cp1 Cp2]. destruct Cx as [Cx1 Cx2].
  assert (A1 : (p * q <= s * q + s * q * (1 # 9007199254740992))%Q) by nra.
  assert (A2 : (s * q - s * q * (1 # 9007199254740992) <= p * q)%Q) by nra.
  assert (A3 : (0 <= s * q)%Q) by (apply Qmult_le_0_compat; assumption).
  split; nra.
Qed.

(** ** The extractor *)



Lemma rec_entry_raises (df : DataFrame) (scores : list Q) (top : list nat) (j : nat) :
  (exists r, rec_entry df scores top j = Ok r)
  \/ rec_entry df scores top j = Raise IndexError.
Proof.
  unfold rec_entry, item.
  destruct (nth_error top j) as [c|]; simpl; [|right; reflexivity].
  destruct (nth_error df c) as [job|]; simpl; [|right; reflexivity].
  destruct (nth_error scores c) as [x|]; simpl; [left; eauto | right; reflexivity].
Qed.

Lemma for_each_raises {A B : Type} (f : A -> result B) (js : list A) (j : A) :
  (forall k, (exists r, f k = Ok r) \/ f k = Raise IndexError) ->
  In j js -> f j = Raise IndexError -> for_each f js = Raise IndexError.
Proof.
  intros Hf. induction js as [|k js IH]; intros Hin Hj; simpl in *; [contradiction|].
  destruct (Hf k) as [[r E] | E]; rewrite E; simpl; [|reflexivity].
  destruct Hin as [-> | Hin]; [congruence|]. rewrite (IH Hin Hj). reflexivity.
Qed.

(** With at least one and fewer than [n] items the first row already
    asks for a column that does not exist. *)
Lemma get_top_n_recs_short {np : Argsort} (sim : Matrix) (df : DataFrame) (n : nat) :
  square sim (length df) -> (0 < length df < n)%nat ->
  get_top_n_recs sim df n = Raise IndexError.
Proof.
  intros [Hl Hr] [Hpos Hn]. unfold get_top_n_recs.
  destruct (length df) as [|m] eqn:Em; [lia|]. simpl.
  assert (E : recs_of_row sim df n 0 = Raise IndexError); [|rewrite E; reflexivity].
  unfold recs_of_row, masked_row.
  destruct (item_lt sim 0) as [row Er]; [lia|]. rewrite Er. simpl.
  assert (Lr : length row = S m).
  { apply item_Ok in Er. apply nth_error_In in Er. rewrite Forall_forall in Hr. auto. }
  destruct (set_item_lt row 0 (-1)%Q) as (scores & Es & Ls & _); [lia|].
  rewrite Es. simpl.
  apply (for_each_raises _ _ (S m)); [intros; apply rec_entry_raises | apply in_seq; lia |].
  unfold rec_entry. rewrite item_ge; [reflexivity|]. rewrite top_indices_length. lia.
Qed.

(** With no item at all the loop does not run: the map is empty. *)
Lemma get_top_n_recs_empty {np : Argsort} (sim : Matrix) (n : nat) :
  get_top_n_recs sim [] n = Ok [].
Proof. reflexivity. Qed.

(** C1 (amended): the extractor on a sampled set of fewer than [n + 1]
    items. With at least one and fewer than [n] items it raises
    [IndexError] and returns no map, instead of lists of as many neighbors
    as exist; with no item it returns the empty map; with exactly [n]
    items it returns a map with an entry for every item. *)
Theorem get_top_n_recs_small_set {np : Argsort} (sim : Matrix) (df : DataFrame) (n : nat) :
  square sim (length df) -> (length df < n + 1)%nat ->
  ((0 < length df < n)%nat -> get_top_n_recs sim df n = Raise IndexError)
  /\ (length df = 0%nat -> get_top_n_recs sim df n = Ok [])
  /\ (length df = n ->
      exists recs, get_top_n_recs sim df n = Ok recs
        /\ forall job, In job df -> exists l, dict_get (id job) recs = Some l).
Proof.
  intros Hsq Hlen. split; [|split].
  - intros H. apply get_top_n_recs_short; assumption.
  - intros H. destruct df; [apply get_top_n_recs_empty | discriminate].
  - intros H.
    destruct (get_top_n_recs_total sim df n Hsq) as (recs & E & K & _); [lia|].
    exists recs. split; [exact E|]. intros job Hin. specialize (K job Hin).
    destruct (dict_get (id job) recs) as [l|]; [eauto | congruence].
Qed.

(** C1, the claim as stated, fails: on a sampled set of one item with
    [TOP_N = 3] the extractor raises [IndexError], whatever [np.argsort]
    does with the row; no map with an empty list comes back. *)
Lemma single_item_raises :
  get_top_n_recs (np := stable_sort) [[1%Q]] [job_with_id "a"] TOP_N = Raise IndexError
  /\ ~ exists (np : Argsort) (recs : Recs),
         get_top_n_recs (np := np) [[1%Q]] [job_with_id "a"] TOP_N = Ok recs.
Proof.
  split; [reflexivity|]. intros (np & recs & H).
  rewrite get_top_n_recs_short in H; [discriminate | | simpl; unfold TOP_N; lia].
  split; [reflexivity | repeat constructor].
Qed.

(** Two sorts that agree on the masked rows of a matrix give the same
    recommendations. *)
Lemma get_top_n_loop_same_order (np np' : Argsort) (sim : Matrix) (df : DataFrame)
  (n : nat) (rows : list nat) (recs : Recs) :
  (forall i scores, masked_row sim i = Ok scores ->
     argsort (Argsort := np) scores = argsort (Argsort := np') scores) ->
  get_top_n_loop (np := np) sim df n rows recs
  = get_top_n_loop (np := np') sim df n rows recs.
Proof.
  intros H. revert recs. induction rows as [|i rows IH]; intros recs; simpl; [reflexivity|].
  assert (E : recs_of_row (np := np) sim df n i = recs_of_row (np := np') sim df n i).
  { unfold recs_of_row. destruct (masked_row sim i) as [scores| |] eqn:Em; simpl;
      try reflexivity.
    unfold top_indices. rewrite (H _ _ Em). reflexivity. }
  rewrite E. destruct (recs_of_row (np := np') sim df n i) as [l| |]; simpl;
    try reflexivity.
  destruct (item df i) as [job| |]; simpl; try reflexivity. apply IH.
Qed.

(** Columns [a] and [b] of a row of three scores that are all different. *)
Ltac no_ties_of_three :=
  let a := fresh "a" in
  let b := fresh "b" in
  let Ha := fresh "Ha" in
  let Hb := fresh "Hb" in
  let E := fresh "E" in
  intros a b Ha Hb E; simpl in Ha, Hb;
  destruct a as [|[|[|a]]]; destruct b as [|[|[|b]]]; try lia; try reflexivity;
  vm_compute in E; discriminate E.

(** No row of [three_sim] has two equal scores once its self-entry is
    masked, so every sort ranks its rows the same way. *)
Lemma three_sim_one_order (np : Argsort) (i : nat) (scores : list Q) :
  masked_row three_sim i = Ok scores ->
  argsort (Argsort := np) scores = argsort (Argsort := stable_sort) scores.
Proof.
  intros H. apply argsort_no_ties.
  destruct i as [|[|[|i]]]; [| | |destruct i; discriminate H];
    inversion H; subst scores; clear H; no_ties_of_three.
Qed.

(** C2: on a sampled set of exactly [TOP_N] items the self-entry, masked
    to -1, is still among the [TOP_N] highest of its row: each job is its
    own third recommendation, with score -1. The rows have no equal
    scores, so this is the result with any sort. *)
Theorem self_recommended_at_top_n_items {np : Argsort} :
  get_top_n_recs three_sim three_jobs TOP_N
  = Ok [("a", [("b", 5000 # 10000); ("c", 2500 # 10000); ("a", -10000 # 10000)]%Q);
        ("b", [("a", 5000 # 10000); ("c", 3333 # 10000); ("b", -10000 # 10000)]%Q);
        ("c", [("b", 3333 # 10000); ("a", 2500 # 10000); ("c", -10000 # 10000)]%Q)].
Proof.
  unfold get_top_n_recs.
  rewrite (get_top_n_loop_same_order np stable_sort); [reflexivity|].
  apply three_sim_one_order.
Qed.

Lemma three_sim_square : square three_sim (length three_jobs).
Proof. split; [reflexivity | repeat constructor]. Qed.


Lemma get_top_n_recs_small_set_witness :
  (square [[1%Q]] (length [job_with_id "a"])
   /\ (length [job_with_id "a"] < TOP_N + 1)%nat
   /\ (0 < length [job_with_id "a"] < TOP_N)%nat
   /\ get_top_n_recs (np := stable_sort) [[1%Q]] [job_with_id "a"] TOP_N
      = Raise IndexError)
  /\ (square two_sim (length two_jobs) /\ (length two_jobs < TOP_N + 1)%nat
      /\ (0 < length two_jobs < TOP_N)%nat
      /\ get_top_n_recs (np := stable_sort) two_sim two_jobs TOP_N = Raise IndexError)
  /\ (square three_sim (length three_jobs) /\ (length three_jobs < TOP_N + 1)%nat
      /\ length three_jobs = TOP_N
      /\ exists recs, get_top_n_recs (np := stable_sort) three_sim three_jobs TOP_N = Ok recs
           /\ forall job, In job three_jobs -> exists l, dict_get (id job) recs = Some l).
Proof.
  assert (S1 : square [[1%Q]] (length [job_with_id "a"]))
    by (split; [reflexivity | repeat constructor]).
  assert (S2 : square two_sim (length two_jobs))
    by (split; [reflexivity | repeat constructor]).
  assert (L1 : (length [job_with_id "a"] < TOP_N + 1)%nat) by (simpl; unfold TOP_N; lia).
  assert (L2 : (length two_jobs < TOP_N + 1)%nat) by (simpl; unfold TOP_N; lia).
  assert (L3 : (length three_jobs < TOP_N + 1)%nat) by (simpl; unfold TOP_N; lia).
  assert (P1 : (0 < length [job_with_id "a"] < TOP_N)%nat) by (simpl; unfold TOP_N; lia).
  assert (P2 : (0 < length two_jobs < TOP_N)%nat) by (simpl; unfold TOP_N; lia).
  split; [|split].
  - split; [exact S1|]. split; [exact L1|]. split; [exact P1|].
    exact (proj1 (get_top_n_recs_small_set (np := stable_sort)
                    [[1%Q]] [job_with_id "a"] TOP_N S1 L1) P1).
  - split; [exact S2|]. split; [exact L2|]. split; [exact P2|].
    exact (proj1 (get_top_n_recs_small_set (np := stable_sort)
                    two_sim two_jobs TOP_N S2 L2) P2).
  - split; [exact three_sim_square|]. split; [exact L3|]. split; [reflexivity|].
    exact (proj2 (proj2 (get_top_n_recs_small_set (np := stable_sort)
                           three_sim three_jobs TOP_N three_sim_square L3)) eq_refl).
Defined.

(** The self-entry is the lowest of its masked row as soon as every other
    entry is above -1, and then it is not among the first [n] of a row of
    more than [n] columns. *)
Lemma self_not_in_top {np : Argsort} (scores : list Q) (i n : nat) :
  (i < length scores)%nat -> (n < length scores)%nat ->
  score scores i = (-1)%Q ->
  (forall k, (k < length scores)%nat -> k <> i -> (-1 < score scores k)%Q) ->
  ~ In i (top_indices scores n).
Proof.
  intros Hi Hn Hs Hk. unfold top_indices.
  pose proof (argsort_ascending scores) as Sorted.
  pose proof (argsort_NoDup scores) as ND.
  pose proof (argsort_length scores) as Len.
  pose proof (proj2 (argsort_In scores i) Hi) as Ini.
  destruct (argsort scores) as [|h t] eqn:E; [simpl in Len; lia|].
  assert (h = i) as ->.
  { destruct (Nat.eq_dec h i) as [|Ne]; [assumption | exfalso].
    destruct Ini as [|Ini]; [contradiction|].
    inversion Sorted as [|? ? _ Hall]; subst. rewrite Forall_forall in Hall.
    apply (Qlt_irrefl (-1)). apply Qlt_le_trans with (score scores h).
    - apply Hk; [|assumption]. apply argsort_In. rewrite E. left. reflexivity.
    - rewrite <- Hs. apply Hall, Ini. }
  simpl. rewrite firstn_app. simpl in Len. rewrite length_rev.
  replace (n - length t)%nat with 0%nat by lia. simpl. rewrite app_nil_r.
  intros C. apply In_firstn, in_rev in C. inversion ND; subst. contradiction.
Qed.

Lemma dict_get_In {V : Type} (k : string) (v : V) (d : list (string * V)) :
  dict_get k d = Some v -> In (k, v) d.
Proof.
  induction d as [|[k' v'] d IH]; simpl; [discriminate|].
  destruct (String.eqb k' k) eqn:E.
  - apply String.eqb_eq in E. intros H. inversion H; subst. left. reflexivity.
  - intros H. right. apply IH, H.
Qed.

Lemma unique_id_index (df : DataFrame) (a b : nat) (ja jb : Job) :
  NoDup (map id df) -> nth_error df a = Some ja -> nth_error df b = Some jb ->
  id ja = id jb -> a = b.
Proof.
  intros ND Ha Hb Hid. apply (proj1 (NoDup_nth_error (map id df)) ND).
  - rewrite length_map. apply nth_error_Some. congruence.
  - rewrite !nth_error_map, Ha, Hb. simpl. congruence.
Qed.

(** The sentinel at work: on a sampled set of more than [n] items with
    unique ids, whose similarities off the diagonal are above -1, no job is
    among its own recommendations. *)
Theorem self_not_recommended {np : Argsort} (sim : Matrix) (df : DataFrame) (n : nat) :
  square sim (length df) -> (n < length df)%nat -> NoDup (map id df) ->
  (forall i j v, i <> j -> entry sim i j = Some v -> (-1 < v)%Q) ->
  exists recs, get_top_n_recs sim df n = Ok recs
    /\ forall job l, In job df -> dict_get (id job) recs = Some l ->
         ~ In (id job) (map fst l).
Proof.
  intros Hsq Hn ND Hv.
  destruct (get_top_n_recs_total sim df n Hsq) as (recs & E & _ & R); [lia|].
  exists recs. split; [exact E|]. intros job l Hin Hget Hself.
  apply dict_get_In in Hget. destruct (R _ _ Hget) as (i & job' & Hi & Hid & Hrow).
  apply recs_of_row_Ok in Hrow. destruct Hrow as (scores & Hm & _ & _ & F).
  apply in_map_iff in Hself. destruct Hself as ([k x] & Hk & Hr). simpl in Hk. subst k.
  destruct (Forall2_In_r _ _ _ _ F Hr) as (c & Hc & jc & Hjc & Heq).
  inversion Heq as [[Hidc _]].
  assert (c = i) as -> by (eapply unique_id_index; eauto; congruence).
  revert Hc. destruct (masked_row_Ok _ _ _ Hm) as (row & Hrow & Lt & Len & Hs & Ho).
  assert (Lrow : length row = length df).
  { destruct Hsq as [_ Hr']. rewrite Forall_forall in Hr'.
    apply Hr'. eapply nth_error_In, Hrow. }
  apply self_not_in_top; try lia; [exact Hs|].
  intros k Hk Hne. rewrite (Ho k Hne). apply (Hv i k); [congruence|].
  unfold entry. rewrite Hrow. unfold score.
  apply nth_error_nth'. lia.
Qed.

Lemma three_jobs_ids : NoDup (map id three_jobs).
Proof. repeat constructor; simpl; intuition discriminate. Qed.

Lemma three_sim_above_sentinel (i j : nat) (v : Q) :
  i <> j -> entry three_sim i j = Some v -> (-1 < v)%Q.
Proof.
  destruct i as [|[|[|i]]]; destruct j as [|[|[|j]]]; intros Hne H; try congruence;
    try (destruct i; discriminate); try (destruct j; discriminate);
    inversion H; subst; reflexivity.
Qed.

Lemma self_not_recommended_witness :
  square three_sim (length three_jobs) /\ (2 < length three_jobs)%nat
  /\ NoDup (map id three_jobs)
  /\ exists recs, get_top_n_recs (np := stable_sort) three_sim three_jobs 2 = Ok recs
       /\ forall job l, In job three_jobs -> dict_get (id job) recs = Some l ->
            ~ In (id job) (map fst l).
Proof.
  split; [exact three_sim_square|]. split; [simpl; lia|]. split; [exact three_jobs_ids|].
  apply (self_not_recommended (np := stable_sort) three_sim three_jobs 2).
  - exact three_sim_square.
  - simpl. lia.
  - exact three_jobs_ids.
  - exact three_sim_above_sentinel.
Defined.





(** Where two scores of a row are equal, the contract of [np.argsort]
    leaves their order open: on the first row of [tied_sim], whose columns
    1 and 2 both score 1/2, the two sorts above rank them in opposite
    orders, and the lists of job a differ. With the sort that leaves equal
    scores in index order the reversal puts column 2 before column 1. *)
Lemma tie_order_not_fixed :
  argsort (Argsort := stable_sort) [-1; 1#2; 1#2]%Q = [0; 1; 2]%nat
  /\ argsort (Argsort := tie_reversing_sort) [-1; 1#2; 1#2]%Q = [0; 2; 1]%nat
  /\ recs_of_row (np := stable_sort) tied_sim three_jobs 2 0
     = Ok [("c", 5000 # 10000); ("b", 5000 # 10000)]%Q
  /\ recs_of_row (np := tie_reversing_sort) tied_sim three_jobs 2 0
     = Ok [("b", 5000 # 10000); ("c", 5000 # 10000)]%Q.
Proof. repeat split; reflexivity. Qed.

(** ** Category counts *)

Lemma uniq_In (labels : list string) (c : string) : In c (uniq labels) <-> In c labels.
Proof.
  induction labels as [|x rest IH]; simpl; [tauto|].
  rewrite filter_In, IH. destruct (String.eqb_spec c x) as [-> | Ne]; simpl.
  - split; [intros _; left; reflexivity | intros _; left; reflexivity].
  - split.
    + intros [H | [H _]]; [left; assumption | right; assumption].
    + intros [H | H]; [congruence | right; split; [assumption | reflexivity]].
Qed.

Lemma uniq_NoDup (labels : list string) : NoDup (uniq labels).
Proof.
  induction labels as [|x rest IH]; simpl; constructor.
  - rewrite filter_In. intros [_ H]. rewrite String.eqb_refl in H. discriminate.
  - apply NoDup_filter, IH.
Qed.

Lemma filter_other_id (x : string) (u : list string) :
  ~ In x u -> filter (fun y => negb (String.eqb y x)) u = u.
Proof.
  induction u as [|a u IH]; intros H; simpl; [reflexivity|].
  destruct (String.eqb_spec a x) as [-> | Ne]; simpl.
  - exfalso. apply H. left. reflexivity.
  - rewrite IH; [reflexivity|]. intros C. apply H. right. assumption.
Qed.

Lemma sum_over_filter (f : string -> Z) (x : string) (u : list string) :
  NoDup u -> (~ In x u -> f x = 0%Z) ->
  sum_over f u = (f x + sum_over f (filter (fun y => negb (String.eqb y x)) u))%Z.
Proof.
  unfold sum_over. induction 1 as [|a u Ha ND IH]; intros H0; simpl.
  - rewrite H0 by tauto. reflexivity.
  - destruct (String.eqb_spec a x) as [-> | Ne]; simpl.
    + rewrite filter_other_id by assumption. reflexivity.
    + rewrite IH; [lia|]. intros C. apply H0. intros [E | E]; [congruence | contradiction].
Qed.

Lemma sum_over_ext (f g : string -> Z) (u : list string) :
  (forall c, In c u -> f c = g c) -> sum_over f u = sum_over g u.
Proof.
  unfold sum_over. induction u as [|a u IH]; intros H; simpl; [reflexivity|].
  rewrite (H a), IH; [reflexivity | | left; reflexivity].
  intros c Hc. apply H. right. assumption.
Qed.

(** The counts of the distinct labels add up to the length of the column. *)
Lemma sum_counts (labels : list string) :
  sum_over (fun c => Z.of_nat (count_occ string_dec labels c)) (uniq labels)
  = Z.of_nat (length labels).
Proof.
  induction labels as [|x rest IH]; [reflexivity|].
  change (uniq (x :: rest)) with (x :: filter (fun y => negb (String.eqb y x)) (uniq rest)).
  unfold sum_over in *. cbn [map fold_right].
  rewrite count_occ_cons_eq by reflexivity.
  fold (sum_over (fun c => Z.of_nat (count_occ string_dec (x :: rest) c))
          (filter (fun y => negb (String.eqb y x)) (uniq rest))).
  rewrite (sum_over_ext _ (fun c => Z.of_nat (count_occ string_dec rest c))).
  - fold (sum_over (fun c => Z.of_nat (count_occ string_dec rest c)) (uniq rest)) in IH.
    rewrite (sum_over_filter _ x _ (uniq_NoDup rest)) in IH.
    + cbn [length]. lia.
    + intros H. rewrite uniq_In in H. apply (count_occ_not_In string_dec) in H. rewrite H. reflexivity.
  - intros c Hc. apply filter_In in Hc. destruct Hc as [_ Hc].
    rewrite count_occ_cons_neq; [reflexivity|].
    intros ->. rewrite String.eqb_refl in Hc. discriminate.
Qed.

Lemma insert_count_perm (p : string * Z) (l : Series) :
  Permutation (insert_count p l) (p :: l).
Proof.
  induction l as [|q l IH]; simpl.
  - reflexivity.
  - destruct (snd q <=? snd p)%Z.
    + reflexivity.
    + rewrite IH. apply perm_swap.
Qed.

Lemma sort_counts_perm (l : Series) : Permutation (fold_right insert_count [] l) l.
Proof.
  induction l as [|p l IH]; simpl.
  - reflexivity.
  - rewrite insert_count_perm. constructor. exact IH.
Qed.

Lemma series_sum_perm (a b : Series) : Permutation a b -> series_sum a = series_sum b.
Proof.
  unfold series_sum. induction 1; simpl; lia.
Qed.

Lemma value_counts_perm (labels : list string) :
  Permutation (value_counts labels)
    (map (fun c => (c, Z.of_nat (count_occ string_dec labels c))) (uniq labels)).
Proof. apply sort_counts_perm. Qed.

Lemma value_counts_keys (labels : list string) :
  Permutation (map fst (value_counts labels)) (uniq labels).
Proof.
  rewrite (Permutation_map fst (value_counts_perm labels)), map_map. simpl.
  rewrite map_id. reflexivity.
Qed.

Lemma value_counts_NoDup (labels : list string) : NoDup (map fst (value_counts labels)).
Proof.
  apply (Permutation_NoDup (Permutation_sym (value_counts_keys labels))), uniq_NoDup.
Qed.

Lemma value_counts_In (labels : list string) (c : string) (k : Z) :
  In (c, k) (value_counts labels)
  <-> In c labels /\ k = Z.of_nat (count_occ string_dec labels c).
Proof.
  split.
  - intros H. apply (Permutation_in _ (value_counts_perm labels)) in H.
    apply in_map_iff in H. destruct H as (c' & E & Hc). inversion E; subst.
    split; [apply uniq_In, Hc | reflexivity].
  - intros [H ->]. apply (Permutation_in _ (Permutation_sym (value_counts_perm labels))).
    apply in_map_iff. exists c. split; [reflexivity | apply uniq_In, H].
Qed.

Lemma value_counts_sum (labels : list string) :
  series_sum (value_counts labels) = Z.of_nat (length labels).
Proof.
  rewrite (series_sum_perm _ _ (value_counts_perm labels)).
  unfold series_sum. rewrite map_map. simpl. apply sum_counts.
Qed.

Lemma value_counts_nonempty (labels : list string) :
  labels <> [] -> value_counts labels <> [].
Proof.
  intros H E. apply H. pose proof (value_counts_sum labels) as S.
  rewrite E in S. destruct labels; [reflexivity | discriminate S].
Qed.

(** ** Initial quotas *)

Lemma dict_get_NoDup {V : Type} (k : string) (v : V) (d : list (string * V)) :
  NoDup (map fst d) -> In (k, v) d -> dict_get k d = Some v.
Proof.
  induction d as [|[k' v'] d IH]; simpl; intros ND Hin; [contradiction|].
  inversion ND as [|? ? Hk ND']; subst.
  destruct Hin as [E | Hin].
  - inversion E; subst. rewrite String.eqb_refl. reflexivity.
  - destruct (String.eqb_spec k' k) as [-> | Ne]; [|auto].
    exfalso. apply Hk. apply in_map_iff. exists (k, v). auto.
Qed.

Lemma cat_samples0_keys (df_dedup : DataFrame) (n M : Z) :
  map fst (cat_samples0 df_dedup n M) = map fst (value_counts (map category df_dedup)).
Proof.
  unfold cat_samples0, initial_quotas, proportions. rewrite !map_map. reflexivity.
Qed.

Lemma cat_samples0_In (df_dedup : DataFrame) (n M : Z) (cat : string) :
  In cat (map category df_dedup) ->
  In (cat, Z.max (int_of_float (scaled_proportion df_dedup cat n)) M)
     (cat_samples0 df_dedup n M).
Proof.
  intros H. unfold cat_samples0, initial_quotas, proportions. rewrite map_map. simpl.
  apply in_map_iff.
  exists (cat, Z.of_nat (count_occ string_dec (map category df_dedup) cat)). split.
  - simpl. rewrite value_counts_sum, length_map. reflexivity.
  - apply value_counts_In. auto.
Qed.

Lemma Qnum_nonneg (x : Q) : (0 <= x)%Q -> (0 <= Qnum x)%Z.
Proof. unfold Qle. simpl. lia. Qed.

Lemma int_of_float_floor (x : Q) : (0 <= x)%Q -> int_of_float x = Qfloor x.
Proof.
  intros H. apply Qnum_nonneg in H. destruct x as [a d]. unfold int_of_float. simpl in *.
  apply Z.quot_div_nonneg; lia.
Qed.

Lemma float_of_int_nonneg (z : Z) : (0 <= z)%Z -> (0 <= float_of_int z)%Q.
Proof.
  intros H. apply float64_nonneg. change 0%Q with (inject_Z 0). rewrite <- Zle_Qle. exact H.
Qed.

Lemma cat_proportion_nonneg (df_dedup : DataFrame) (cat : string) :
  (0 <= cat_proportion df_dedup cat)%Q.
Proof.
  unfold cat_proportion, float_div. apply float64_nonneg. apply Qmult_le_0_compat.
  - apply float_of_int_nonneg. lia.
  - apply Qinv_le_0_compat, float_of_int_nonneg. lia.
Qed.

Lemma scaled_proportion_nonneg (df_dedup : DataFrame) (cat : string) (n : Z) :
  (0 <= n)%Z -> (0 <= scaled_proportion df_dedup cat n)%Q.
Proof.
  intros H. unfold scaled_proportion, float_mul. apply float64_nonneg.
  apply Qmult_le_0_compat; [apply cat_proportion_nonneg | apply float_of_int_nonneg, H].
Qed.

(** C6 (amended): for every category present in the deduplicated frame
    the initial quota is [max(int(x), M)], where [x] is the float64
    product of the float64 share of the category and [N], and [int] is
    the truncation of the float, which is the floor when [N] is not
    negative; the product is not rounded to the nearest integer. With
    fewer than 2^53 rows and [N] below 2^53 the float64 product is within
    a relative 3 * 2^-53 of the exact product of the share and [N]. *)
Theorem initial_quota_truncates (df : DataFrame) (n M : Z) (cat : string) :
  In cat (map category (dedup df)) ->
  dict_get cat (cat_samples0 (dedup df) n M)
  = Some (Z.max (int_of_float (scaled_proportion (dedup df) cat n)) M)
  /\ ((0 <= n)%Z ->
      int_of_float (scaled_proportion (dedup df) cat n)
      = Qfloor (scaled_proportion (dedup df) cat n))
  /\ ((0 <= n < 2 ^ 53)%Z -> (Z.of_nat (length (dedup df)) < 2 ^ 53)%Z ->
      (Qabs (scaled_proportion (dedup df) cat n - share (dedup df) cat * inject_Z n)
       <= share (dedup df) cat * inject_Z n * (3 # 9007199254740992))%Q).
Proof.
  intros H. split; [|split].
  - apply dict_get_NoDup; [|apply cat_samples0_In, H].
    rewrite cat_samples0_keys. apply value_counts_NoDup.
  - intros Hn. apply int_of_float_floor, scaled_proportion_nonneg, Hn.
  - intros Hn Hlen. unfold scaled_proportion, cat_proportion, share.
    pose proof (count_occ_bound string_dec cat (map category (dedup df))) as B.
    rewrite length_map in B.
    assert (P : (0 < length (dedup df))%nat).
    { destruct (dedup df); [contradiction H | simpl; lia]. }
    apply float_product_close; lia.
Qed.

(** With six of eleven jobs in category A and [N = 55] the exact product
    is 30, and the float64 product 29.999999999999996: the quota starts
    at 29. *)
Lemma initial_quota_truncates_witness :
  In "A" (map category (dedup eleven_jobs))
  /\ dict_get "A" (cat_samples0 (dedup eleven_jobs) 55 5)
     = Some (Z.max (int_of_float (scaled_proportion (dedup eleven_jobs) "A" 55)) 5)
  /\ ((0 <= 55)%Z ->
      int_of_float (scaled_proportion (dedup eleven_jobs) "A" 55)
      = Qfloor (scaled_proportion (dedup eleven_jobs) "A" 55))
  /\ ((0 <= 55 < 2 ^ 53)%Z -> (Z.of_nat (length (dedup eleven_jobs)) < 2 ^ 53)%Z ->
      (Qabs (scaled_proportion (dedup eleven_jobs) "A" 55
             - share (dedup eleven_jobs) "A" * inject_Z 55)
       <= share (dedup eleven_jobs) "A" * inject_Z 55 * (3 # 9007199254740992))%Q).
Proof.
  split; [simpl; left; reflexivity|].
  apply (initial_quota_truncates eleven_jobs 55 5 "A").
  simpl. left. reflexivity.
Defined.

(** The quotas of that frame as the code starts them, next to the exact
    products 30 and 25; and the float64 product for 29 of 50 jobs with
    [N = 100], 57.99999999999999, where the exact product is 58. *)
Example initial_quotas_of_eleven_jobs :
  cat_samples0 (dedup eleven_jobs) 55 5 = [("A", 29%Z); ("B", 25%Z)]
  /\ (scaled_proportion (dedup eleven_jobs) "A" 55
      == 8444249301319679 # 281474976710656)%Q
  /\ (share (dedup eleven_jobs) "A" * inject_Z 55 == 30)%Q
  /\ (share (dedup eleven_jobs) "B" * inject_Z 55 == 25)%Q
  /\ int_of_float (float_mul (float_div (float_of_int 29) (float_of_int 50))
                             (float_of_int 100)) = 57%Z.
Proof. repeat split; reflexivity. Qed.

(** C6, the claim as stated, fails: with two of three jobs in category A,
    [N = 10] and [M = 1], the share times [N] is 20/3; the sampler starts
    category A at 6, and [max(round(share * N), M)] is 7. *)
Lemma initial_quota_not_rounded :
  dict_get "A" (cat_samples0 (dedup two_one_jobs) 10 1) = Some 6%Z
  /\ spec_initial_quota (share (dedup two_one_jobs) "A") 10 1 = 7%Z.
Proof. split; reflexivity. Qed.

(** ** The quota adjustment loops *)

Lemma shrink_quotas_eq (fuel : nat) (n : Z) (s : Series) :
  shrink_quotas fuel n s
  = if (n <? series_sum s)%Z then
      largest <- idxmax s ;;
      match fuel with
      | O => OutOfFuel
      | S fuel' => shrink_quotas fuel' n (series_add largest (-1) s)
      end
    else Ok s.
Proof. destruct fuel; reflexivity. Qed.

Lemma grow_quotas_eq (fuel : nat) (n : Z) (s : Series) :
  grow_quotas fuel n s
  = if (series_sum s <? n)%Z then
      largest <- idxmax s ;;
      match fuel with
      | O => OutOfFuel
      | S fuel' => grow_quotas fuel' n (series_add largest 1 s)
      end
    else Ok s.
Proof. destruct fuel; reflexivity. Qed.

Lemma series_add_keys (label : string) (d : Z) (s : Series) :
  map fst (series_add label d s) = map fst s.
Proof.
  unfold series_add. rewrite map_map. apply map_ext.
  intros [k v]. simpl. destruct (String.eqb k label); reflexivity.
Qed.

Lemma series_add_absent (label : string) (d : Z) (s : Series) :
  ~ In label (map fst s) -> series_add label d s = s.
Proof.
  induction s as [|[k v] s IH]; simpl; intros H; [reflexivity|].
  destruct (String.eqb_spec k label) as [-> | Ne]; [tauto|].
  f_equal. apply IH. tauto.
Qed.

(** One pass through a loop body moves the sum by exactly [d]. *)
Lemma series_add_sum (label : string) (d : Z) (s : Series) :
  NoDup (map fst s) -> In label (map fst s) ->
  series_sum (series_add label d s) = (series_sum s + d)%Z.
Proof.
  unfold series_sum. induction s as [|[k v] s IH]; simpl; intros ND Hin; [contradiction|].
  inversion ND as [|? ? Hk ND']; subst.
  destruct (String.eqb_spec k label) as [-> | Ne]; simpl.
  - fold (series_add label d s). rewrite series_add_absent by assumption. lia.
  - fold (series_add label d s). rewrite IH; [lia | assumption | tauto].
Qed.

Lemma idxmax_from_max (best : string * Z) (s : Series) :
  exists v, In (idxmax_from best s, v) (best :: s)
            /\ forall p, In p (best :: s) -> (snd p <= v)%Z.
Proof.
  revert best. induction s as [|p s IH]; intros best; simpl.
  - exists (snd best). split; [left; destruct best; reflexivity|].
    intros q [<- | []]. lia.
  - destruct (Z.ltb_spec (snd best) (snd p)) as [L | L].
    + destruct (IH p) as (v & Hin & Hmax). exists v. split.
      * simpl in Hin. tauto.
      * intros q [<- | Hq]; [|apply Hmax, Hq].
        specialize (Hmax p (or_introl eq_refl)). lia.
    + destruct (IH best) as (v & Hin & Hmax). exists v. split.
      * simpl in Hin. simpl. tauto.
      * intros q [<- | [<- | Hq]].
        -- apply Hmax. left. reflexivity.
        -- specialize (Hmax best (or_introl eq_refl)). lia.
        -- apply Hmax. right. assumption.
Qed.

Lemma idxmax_Ok (s : Series) :
  s <> [] ->
  exists largest v, idxmax s = Ok largest /\ In (largest, v) s
                    /\ forall p, In p s -> (snd p <= v)%Z.
Proof.
  destruct s as [|p s]; intros H; [congruence|]. simpl.
  destruct (idxmax_from_max p s) as (v & Hin & Hmax). eauto.
Qed.

Lemma series_add_nonempty (label : string) (d : Z) (s : Series) :
  s <> [] -> series_add label d s <> [].
Proof. destruct s; simpl; congruence. Qed.

Lemma series_sum_bound (v : Z) (s : Series) :
  (forall p, In p s -> (snd p <= v)%Z) -> (v <= 0)%Z -> (series_sum s <= 0)%Z.
Proof.
  unfold series_sum. induction s as [|p s IH]; simpl; intros H Hv; [lia|].
  specialize (H p (or_introl eq_refl)) as Hp.
  assert (fold_right Z.add 0 (map snd s) <= 0)%Z by (apply IH; auto). lia.
Qed.

Lemma unique_key (k : string) (v v' : Z) (s : Series) :
  NoDup (map fst s) -> In (k, v) s -> In (k, v') s -> v = v'.
Proof.
  intros ND H H'. apply (dict_get_NoDup k v s ND) in H.
  apply (dict_get_NoDup k v' s ND) in H'. congruence.
Qed.

Lemma series_add_nonneg (label : string) (d v : Z) (s : Series) :
  NoDup (map fst s) -> In (label, v) s -> (0 <= v + d)%Z ->
  nonneg s -> nonneg (series_add label d s).
Proof.
  intros ND Hin Hv Hs. unfold nonneg, series_add in *. rewrite Forall_forall in *.
  intros q Hq. apply in_map_iff in Hq. destruct Hq as ([k w] & <- & Hp). simpl.
  destruct (String.eqb_spec k label) as [-> | Ne]; simpl.
  - rewrite (unique_key label w v s ND Hp Hin). exact Hv.
  - apply (Hs _ Hp).
Qed.

Lemma shrink_quotas_spec (fuel : nat) (n : Z) (s : Series) :
  s <> [] -> NoDup (map fst s) -> (Z.to_nat (series_sum s - n) <= fuel)%nat ->
  exists s', shrink_quotas fuel n s = Ok s'
    /\ series_sum s' = Z.min (series_sum s) n
    /\ map fst s' = map fst s
    /\ ((0 <= n)%Z -> nonneg s -> nonneg s').
Proof.
  revert s. induction fuel as [|fuel IH]; intros s Hne ND Hfuel;
    rewrite shrink_quotas_eq; destruct (Z.ltb_spec n (series_sum s)) as [L | L];
    try lia; try (exists s; repeat split; auto; lia).
  destruct (idxmax_Ok s Hne) as (largest & v & E & Hin & Hmax). rewrite E. simpl.
  assert (Hkey : In largest (map fst s)).
  { apply in_map_iff. exists (largest, v). auto. }
  destruct (IH (series_add largest (-1) s)) as (s' & E' & Hsum & Hkeys & Hnn).
  - apply series_add_nonempty, Hne.
  - rewrite series_add_keys. exact ND.
  - rewrite series_add_sum by assumption. lia.
  - exists s'. rewrite series_add_sum in Hsum by assumption.
    rewrite series_add_keys in Hkeys. repeat split; auto; [lia|].
    intros Hn Hs. apply Hnn; [exact Hn|].
    apply (series_add_nonneg largest (-1) v); auto.
    destruct (Z.le_gt_cases v 0) as [Hv | Hv]; [|lia].
    pose proof (series_sum_bound v s Hmax Hv). lia.
Qed.

Lemma grow_quotas_spec (fuel : nat) (n : Z) (s : Series) :
  s <> [] -> NoDup (map fst s) -> (Z.to_nat (n - series_sum s) <= fuel)%nat ->
  exists s', grow_quotas fuel n s = Ok s'
    /\ series_sum s' = Z.max (series_sum s) n
    /\ map fst s' = map fst s
    /\ (nonneg s -> nonneg s').
Proof.
  revert s. induction fuel as [|fuel IH]; intros s Hne ND Hfuel;
    rewrite grow_quotas_eq; destruct (Z.ltb_spec (series_sum s) n) as [L | L];
    try lia; try (exists s; repeat split; auto; lia).
  destruct (idxmax_Ok s Hne) as (largest & v & E & Hin & Hmax). rewrite E. simpl.
  assert (Hkey : In largest (map fst s)).
  { apply in_map_iff. exists (largest, v). auto. }
  destruct (IH (series_add largest 1 s)) as (s' & E' & Hsum & Hkeys & Hnn).
  - apply series_add_nonempty, Hne.
  - rewrite series_add_keys. exact ND.
  - rewrite series_add_sum by assumption. lia.
  - exists s'. rewrite series_add_sum in Hsum by assumption.
    rewrite series_add_keys in Hkeys. repeat split; auto; [lia|].
    intros Hs. apply Hnn. apply (series_add_nonneg largest 1 v); auto.
    unfold nonneg in Hs. rewrite Forall_forall in Hs. specialize (Hs _ Hin). simpl in Hs. lia.
Qed.

(** The two loops together end with the sum at [n], given fuel for as
    many passes as the sum is away from [n]. *)
Lemma adjust_quotas_spec (fuel : nat) (n : Z) (s : Series) :
  s <> [] -> NoDup (map fst s) -> (Z.to_nat (Z.abs (series_sum s - n)) <= fuel)%nat ->
  exists s', adjust_quotas fuel n s = Ok s'
    /\ series_sum s' = n
    /\ map fst s' = map fst s
    /\ ((0 <= n)%Z -> nonneg s -> nonneg s').
Proof.
  intros Hne ND Hfuel. unfold adjust_quotas.
  destruct (shrink_quotas_spec fuel n s Hne ND) as (s1 & E1 & Hsum1 & Hkeys1 & Hnn1); [lia|].
  rewrite E1. simpl.
  assert (Hne1 : s1 <> []).
  { intros ->. destruct s; [congruence | discriminate Hkeys1]. }
  destruct (grow_quotas_spec fuel n s1 Hne1) as (s2 & E2 & Hsum2 & Hkeys2 & Hnn2).
  - rewrite Hkeys1. exact ND.
  - lia.
  - exists s2. repeat split; auto; [lia | congruence].
Qed.

Lemma cat_samples0_inv (df_dedup : DataFrame) (n M : Z) (cat : string) (q : Z) :
  In (cat, q) (cat_samples0 df_dedup n M) ->
  In cat (map category df_dedup)
  /\ q = Z.max (int_of_float (scaled_proportion df_dedup cat n)) M.
Proof.
  intros H.
  assert (Hk : In cat (map fst (cat_samples0 df_dedup n M))).
  { apply in_map_iff. exists (cat, q). auto. }
  rewrite cat_samples0_keys in Hk.
  apply (Permutation_in _ (value_counts_keys (map category df_dedup))) in Hk.
  apply (proj1 (uniq_In _ _)) in Hk. split; [exact Hk|].
  eapply unique_key; [| exact H | apply cat_samples0_In, Hk].
  rewrite cat_samples0_keys. apply value_counts_NoDup.
Qed.

Lemma cat_samples0_nonneg (df_dedup : DataFrame) (n M : Z) :
  (0 <= n)%Z -> nonneg (cat_samples0 df_dedup n M).
Proof.
  intros Hn. unfold nonneg. rewrite Forall_forall. intros [cat q] H. simpl.
  apply cat_samples0_inv in H. destruct H as [_ ->].
  pose proof (scaled_proportion_nonneg df_dedup cat n Hn) as P.
  rewrite (int_of_float_floor _ P).
  assert (0 <= Qfloor (scaled_proportion df_dedup cat n))%Z; [|lia].
  change 0%Z with (Qfloor 0). apply Qfloor_resp_le, P.
Qed.

Lemma cat_samples0_nonempty (df_dedup : DataFrame) (n M : Z) :
  df_dedup <> [] -> cat_samples0 df_dedup n M <> [].
Proof.
  intros H E. apply (value_counts_nonempty (map category df_dedup)).
  - destruct df_dedup; [congruence | discriminate].
  - pose proof (cat_samples0_keys df_dedup n M) as K. rewrite E in K.
    destruct (value_counts (map category df_dedup)); [reflexivity | discriminate K].
Qed.

Lemma cat_samples0_NoDup (df_dedup : DataFrame) (n M : Z) :
  NoDup (map fst (cat_samples0 df_dedup n M)).
Proof. rewrite cat_samples0_keys. apply value_counts_NoDup. Qed.

(** C4 (amended): for every non-empty deduplicated frame the quota
    adjustment terminates, and the quotas it ends with add up to [N]
    itself, whatever the size of the frame. *)
Theorem quota_adjustment_converges (df : DataFrame) (n M : Z) :
  dedup df <> [] ->
  exists fuel0, forall fuel, (fuel0 <= fuel)%nat ->
    exists quotas,
      adjust_quotas fuel n (cat_samples0 (dedup df) n M) = Ok quotas
      /\ series_sum quotas = n.
Proof.
  intros Hne.
  exists (Z.to_nat (Z.abs (series_sum (cat_samples0 (dedup df) n M) - n))).
  intros fuel Hfuel.
  destruct (adjust_quotas_spec fuel n (cat_samples0 (dedup df) n M))
    as (quotas & E & Hsum & _); auto.
  - apply cat_samples0_nonempty, Hne.
  - apply cat_samples0_NoDup.
  - eauto.
Qed.

Lemma quota_adjustment_converges_witness :
  dedup ten_jobs <> []
  /\ exists fuel0, forall fuel, (fuel0 <= fuel)%nat ->
    exists quotas,
      adjust_quotas fuel 4 (cat_samples0 (dedup ten_jobs) 4 2) = Ok quotas
      /\ series_sum quotas = 4%Z.
Proof.
  split; [discriminate|].
  apply (quota_adjustment_converges ten_jobs 4 2). discriminate.
Defined.

(** C4, the claim as stated, fails: a frame of one job with [N = 10] and
    [M = 5] ends with a quota of 10, which is [N] and not
    [min(N, 1) = 1]. *)
Lemma quota_sum_not_min :
  adjust_quotas 10 10 (cat_samples0 (dedup one_job) 10 5) = Ok [("A", 10%Z)]
  /\ series_sum [("A", 10%Z)] <> Z.min 10 (Z.of_nat (length (dedup one_job))).
Proof. split; [reflexivity | discriminate]. Qed.

(** ** The sampler *)

(** C5 (amended): if the deduplicated frame is empty, the stratified
    sampler raises [ValueError], under every target size and minimum, and
    returns no SampledSet. *)
Theorem empty_corpus_raises (S : RowSampler) (fuel : nat) (df : DataFrame) (n M : Z) :
  dedup df = [] -> stratified_sample S fuel df n M = Raise ValueError.
Proof.
  intros E. unfold stratified_sample, adjust_quotas. rewrite E.
  change (cat_samples0 [] n M) with (@nil (string * Z)).
  rewrite shrink_quotas_eq. change (series_sum []) with 0%Z.
  destruct (n <? 0)%Z; [reflexivity|]. simpl.
  rewrite grow_quotas_eq. change (series_sum []) with 0%Z.
  destruct (0 <? n)%Z; reflexivity.
Qed.

Lemma empty_corpus_raises_witness :
  dedup [] = [] /\ stratified_sample head_rows 0 [] 1000 5 = Raise ValueError.
Proof.
  split; [reflexivity|].
  apply (empty_corpus_raises head_rows 0 [] 1000 5). reflexivity.
Defined.

(** C5, the claim as stated, fails: on the empty frame, with the default
    [n = 1000] and [min_per_group = 5], the sampler raises [ValueError]
    (from [idxmax] on the empty quota Series) instead of returning an empty
    SampledSet. *)
Lemma empty_corpus_not_sampled :
  stratified_sample head_rows 1000 [] 1000 5 = Raise ValueError.
Proof. vm_compute. reflexivity. Qed.

Lemma sample_rows_spec (S : RowSampler) (cat_df : DataFrame) (count : Z) :
  (0 <= count)%Z ->
  exists g, sample_rows S cat_df (Z.min count (Z.of_nat (length cat_df))) = Ok g
    /\ Z.of_nat (length g) = Z.min count (Z.of_nat (length cat_df))
    /\ incl g cat_df.
Proof.
  intros H. unfold sample_rows.
  destruct (Z.ltb_spec (Z.min count (Z.of_nat (length cat_df))) 0) as [L | L]; [lia|].
  destruct (Z.ltb_spec (Z.of_nat (length cat_df)) (Z.min count (Z.of_nat (length cat_df))))
    as [L' | L']; [lia|]. simpl.
  eexists. split; [reflexivity|]. split; [|apply draw_incl].
  rewrite draw_length; lia.
Qed.

Lemma sample_groups_spec (S : RowSampler) (df_dedup : DataFrame) (quotas : Series) :
  nonneg quotas ->
  exists groups, sample_groups S df_dedup quotas = Ok groups
    /\ length groups = length quotas
    /\ Z.of_nat (length (concat groups)) = drawn df_dedup quotas
    /\ incl (concat groups) df_dedup.
Proof.
  unfold drawn, series_sum. induction quotas as [|[cat count] quotas IH]; intros Hnn; simpl.
  - exists []. repeat split. intros x [].
  - inversion Hnn as [|? ? Hc Hnn']; subst. simpl in Hc.
    destruct (sample_rows_spec S (filter (fun j => String.eqb (category j) cat) df_dedup)
                count Hc) as (g & Eg & Lg & Ig).
    rewrite Eg. simpl. destruct (IH Hnn') as (gs & Egs & Lgs & Sgs & Igs).
    rewrite Egs. simpl. exists (g :: gs). repeat split.
    + simpl. congruence.
    + simpl. rewrite length_app, Nat2Z.inj_add, Lg, Sgs. reflexivity.
    + simpl. apply incl_app; [|exact Igs].
      intros x Hx. apply Ig in Hx. apply filter_In in Hx. tauto.
Qed.

Lemma drawn_le (df_dedup : DataFrame) (quotas : Series) :
  (drawn df_dedup quotas <= series_sum quotas)%Z
  /\ (drawn df_dedup quotas = series_sum quotas
      <-> Forall (fun p => (snd p <= cat_size df_dedup (fst p))%Z) quotas).
Proof.
  unfold drawn, series_sum. induction quotas as [|[cat q] quotas [IHle IHeq]]; simpl.
  - split; [lia|]. split; [constructor | reflexivity].
  - split; [lia|]. split.
    + intros H. constructor; [simpl; lia | apply IHeq; lia].
    + intros H. inversion H as [|? ? Hq Hr]; subst. simpl in Hq.
      apply IHeq in Hr. lia.
Qed.

(** From adjusted quotas to the sample: with non-negative quotas for at
    least one category the sampling loop and the concatenation go through,
    and the sample has as many rows as the quotas draw. *)
Lemma stratified_sample_spec (S : RowSampler) (fuel : nat) (df : DataFrame) (n M : Z)
  (quotas : Series) :
  adjust_quotas fuel n (cat_samples0 (dedup df) n M) = Ok quotas ->
  quotas <> [] -> nonneg quotas ->
  exists result, stratified_sample S fuel df n M = Ok result
    /\ Z.of_nat (length result) = drawn (dedup df) quotas
    /\ incl result (dedup df).
Proof.
  intros E Hne Hnn. unfold stratified_sample. rewrite E. simpl.
  destruct (sample_groups_spec S (dedup df) quotas Hnn) as (groups & Eg & Lg & Sg & Ig).
  rewrite Eg. simpl. destruct groups as [|g groups].
  - destruct quotas; [congruence | discriminate Lg].
  - simpl. eexists. split; [reflexivity|]. split; assumption.
Qed.

(** C8 (amended): for every corpus with a non-empty deduplicated frame
    and every target size [N >= 0], the SampledSet has at most [N] rows;
    its size is the sum over the categories of the smaller of the final
    quota and the number of rows of the category, so it is [N] exactly
    when no final quota exceeds the rows of its category, and smaller
    than [N] otherwise. *)
Theorem sampled_set_size (S : RowSampler) (df : DataFrame) (n M : Z) :
  dedup df <> [] -> (0 <= n)%Z ->
  exists fuel0, forall fuel, (fuel0 <= fuel)%nat ->
    exists quotas result,
      adjust_quotas fuel n (cat_samples0 (dedup df) n M) = Ok quotas
      /\ stratified_sample S fuel df n M = Ok result
      /\ Z.of_nat (length result) = drawn (dedup df) quotas
      /\ (Z.of_nat (length result) <= n)%Z
      /\ (Z.of_nat (length result) = n
          <-> Forall (fun p => (snd p <= cat_size (dedup df) (fst p))%Z) quotas).
Proof.
  intros Hne Hn.
  exists (Z.to_nat (Z.abs (series_sum (cat_samples0 (dedup df) n M) - n))).
  intros fuel Hfuel.
  destruct (adjust_quotas_spec fuel n (cat_samples0 (dedup df) n M))
    as (quotas & E & Hsum & Hkeys & Hnn); auto.
  - apply cat_samples0_nonempty, Hne.
  - apply cat_samples0_NoDup.
  - assert (Hq : quotas <> []).
    { intros ->. apply (cat_samples0_nonempty (dedup df) n M Hne).
      destruct (cat_samples0 (dedup df) n M); [reflexivity | discriminate Hkeys]. }
    specialize (Hnn Hn (cat_samples0_nonneg _ _ _ Hn)).
    destruct (stratified_sample_spec S fuel df n M quotas E Hq Hnn) as (result & Er & Lr & _).
    destruct (drawn_le (dedup df) quotas) as [Hle Heq].
    rewrite Hsum in Hle, Heq. exists quotas, result. rewrite Lr.
    split; [exact E|]. split; [exact Er|]. split; [reflexivity|].
    split; [exact Hle | exact Heq].
Qed.

Lemma sampled_set_size_witness :
  dedup ten_jobs <> [] /\ (0 <= 4)%Z
  /\ exists fuel0, forall fuel, (fuel0 <= fuel)%nat ->
    exists quotas result,
      adjust_quotas fuel 4 (cat_samples0 (dedup ten_jobs) 4 2) = Ok quotas
      /\ stratified_sample head_rows fuel ten_jobs 4 2 = Ok result
      /\ Z.of_nat (length result) = drawn (dedup ten_jobs) quotas
      /\ (Z.of_nat (length result) <= 4)%Z
      /\ (Z.of_nat (length result) = 4%Z
          <-> Forall (fun p => (snd p <= cat_size (dedup ten_jobs) (fst p))%Z) quotas).
Proof.
  split; [discriminate|]. split; [lia|].
  apply (sampled_set_size head_rows ten_jobs 4 2); [discriminate | lia].
Defined.

(** C8, the claim as stated, fails: [ten_jobs] has ten distinct jobs,
    nine of category A and one of category B. With [N = 4] and [M = 2] the
    quotas end at 2 and 2, category B has one row to give, and the
    SampledSet has 3 rows, fewer than [N], whatever rows the seeded draw
    picks, although the deduplicated frame has more than [N] rows. *)
Lemma sample_short_of_target :
  (forall S : RowSampler,
     exists result, stratified_sample S 10 ten_jobs 4 2 = Ok result
                    /\ length result = 3%nat)
  /\ length (dedup ten_jobs) = 10%nat.
Proof.
  split; [|reflexivity]. intros S.
  destruct (stratified_sample_spec S 10 ten_jobs 4 2 [("A", 2%Z); ("B", 2%Z)])
    as (result & E & L & _).
  - reflexivity.
  - discriminate.
  - repeat constructor; simpl; lia.
  - exists result. split; [exact E|].
    change (drawn (dedup ten_jobs) [("A", 2%Z); ("B", 2%Z)]) with 3%Z in L. lia.
Qed.

(** ** Similarity matrices and the composer *)

Lemma entry_pairwise {A : Type} (f : A -> A -> Q) (xs : list A) (i j : nat) (a b : A) :
  nth_error xs i = Some a -> nth_error xs j = Some b ->
  entry (pairwise f xs) i j = Some (f a b).
Proof.
  intros Ha Hb. unfold entry, pairwise.
  rewrite nth_error_map, Ha. simpl. rewrite nth_error_map, Hb. reflexivity.
Qed.

Lemma square_pairwise {A : Type} (f : A -> A -> Q) (xs : list A) :
  square (pairwise f xs) (length xs).
Proof.
  unfold square, pairwise. split; [apply length_map|].
  rewrite Forall_forall. intros row H. apply in_map_iff in H.
  destruct H as (a & <- & _). apply length_map.
Qed.

Lemma square_map (g : Q -> Q) (m : Matrix) (k : nat) :
  square m k -> square (map (map g) m) k.
Proof.
  intros [L F]. split; [rewrite length_map; exact L|].
  rewrite Forall_forall in *. intros row H. apply in_map_iff in H.
  destruct H as (r & <- & Hr). rewrite length_map. auto.
Qed.

Lemma zip_with_length {A B C : Type} (f : A -> B -> C) (xs : list A) (ys : list B) :
  length xs = length ys -> length (zip_with f xs ys) = length xs.
Proof.
  revert ys. induction xs as [|x xs IH]; intros [|y ys] H; simpl in *; try lia.
  rewrite IH; lia.
Qed.

Lemma nth_error_zip_with {A B C : Type} (f : A -> B -> C) (xs : list A) (ys : list B)
  (i : nat) (x : A) (y : B) :
  nth_error xs i = Some x -> nth_error ys i = Some y ->
  nth_error (zip_with f xs ys) i = Some (f x y).
Proof.
  revert ys i. induction xs as [|a xs IH]; intros [|b ys] [|i] Hx Hy; simpl in *;
    try discriminate.
  - congruence.
  - apply IH; assumption.
Qed.

Lemma square_mat_add (a b : Matrix) (k : nat) :
  square a k -> square b k -> square (mat_add a b) k.
Proof.
  intros [La Fa] [Lb Fb]. unfold mat_add. split.
  - rewrite zip_with_length; congruence.
  - clear La Lb. revert b Fb. induction Fa as [|r a Hr Fa IH]; intros [|r' b] Fb; simpl;
      constructor.
    + inversion Fb; subst. rewrite zip_with_length; congruence.
    + inversion Fb; subst. apply IH. assumption.
Qed.

Lemma entry_mat_scale (w : Q) (m : Matrix) (i j : nat) (x : Q) :
  entry m i j = Some x -> entry (mat_scale w m) i j = Some (w * x)%Q.
Proof.
  unfold entry, mat_scale. rewrite nth_error_map.
  destruct (nth_error m i) as [row|]; simpl; [|discriminate].
  intros H. rewrite nth_error_map, H. reflexivity.
Qed.

Lemma entry_mat_add (a b : Matrix) (i j : nat) (x y : Q) :
  entry a i j = Some x -> entry b i j = Some y ->
  entry (mat_add a b) i j = Some (x + y)%Q.
Proof.
  unfold entry, mat_add.
  destruct (nth_error a i) as [ra|] eqn:Ea; [|discriminate].
  destruct (nth_error b i) as [rb|] eqn:Eb; [|discriminate].
  intros Hx Hy. rewrite (nth_error_zip_with _ _ _ _ _ _ Ea Eb).
  apply nth_error_zip_with; assumption.
Qed.

Lemma square_weighted_sim (w : Weights) (d t c l y e : Matrix) (k : nat) :
  square d k -> square t k -> square c k -> square l k -> square y k -> square e k ->
  square (weighted_sim w d t c l y e) k.
Proof.
  intros. unfold weighted_sim, mat_scale.
  repeat apply square_mat_add; apply square_map; assumption.
Qed.

(** The weights that [main] composes the matrices with add up to 1. *)
Lemma WEIGHTS_sum : (weights_sum WEIGHTS == 1)%Q.
Proof. reflexivity. Qed.

Lemma exp_sim_Ok (df : DataFrame) :
  df <> [] -> exists m, exp_sim df = Ok m /\ square m (length df).
Proof.
  intros Hne. unfold exp_sim.
  set (dist := pairwise _ df).
  assert (Sq : square dist (length df)) by apply square_pairwise.
  destruct (matrix_max dist) as [mx| |] eqn:E.
  - simpl. destruct (Qlt_le_dec 0 mx); eexists; (split; [reflexivity|]);
      apply square_map; exact Sq.
  - exfalso. unfold matrix_max in E. destruct (concat dist) eqn:Ec; [|discriminate].
    destruct df as [|a df]; [congruence|]. discriminate Ec.
  - exfalso. unfold matrix_max in E. destruct (concat dist); discriminate.
Qed.

(** C9: the location similarity of two rows is 1 when the cities are
    equal, else 1/2 when the states are equal, else 1/5 when the countries
    are equal, else 0; it is one of these four values. *)
Theorem loc_sim_priority (df : DataFrame) (i j : nat) (a b : Job) :
  nth_error df i = Some a -> nth_error df j = Some b ->
  exists v, entry (loc_sim df) i j = Some v
    /\ In v [0; 1 # 5; 1 # 2; 1]%Q
    /\ (city a = city b -> v = 1%Q)
    /\ (city a <> city b -> state a = state b -> v = (1 # 2)%Q)
    /\ (city a <> city b -> state a <> state b -> country a = country b ->
        v = (1 # 5)%Q)
    /\ (city a <> city b -> state a <> state b -> country a <> country b ->
        v = 0%Q).
Proof.
  intros Ha Hb. exists (loc_pair a b). split; [apply entry_pairwise; assumption|].
  unfold loc_pair.
  destruct (String.eqb_spec (city a) (city b)) as [Ec | Nc];
    [|destruct (String.eqb_spec (state a) (state b)) as [Es | Ns];
      [|destruct (String.eqb_spec (country a) (country b)) as [Ek | Nk]]];
    simpl; repeat split; try tauto; intros; congruence.
Qed.

Lemma loc_sim_priority_witness :
  nth_error no_city_jobs 0 = Some (job_at "a" "" "Texas" "US")
  /\ nth_error no_city_jobs 1 = Some (job_at "b" "" "Bavaria" "DE")
  /\ exists v, entry (loc_sim no_city_jobs) 0 1 = Some v
    /\ In v [0; 1 # 5; 1 # 2; 1]%Q
    /\ (city (job_at "a" "" "Texas" "US") = city (job_at "b" "" "Bavaria" "DE") -> v = 1%Q)
    /\ (city (job_at "a" "" "Texas" "US") <> city (job_at "b" "" "Bavaria" "DE") ->
        state (job_at "a" "" "Texas" "US") = state (job_at "b" "" "Bavaria" "DE") ->
        v = (1 # 2)%Q)
    /\ (city (job_at "a" "" "Texas" "US") <> city (job_at "b" "" "Bavaria" "DE") ->
        state (job_at "a" "" "Texas" "US") <> state (job_at "b" "" "Bavaria" "DE") ->
        country (job_at "a" "" "Texas" "US") = country (job_at "b" "" "Bavaria" "DE") ->
        v = (1 # 5)%Q)
    /\ (city (job_at "a" "" "Texas" "US") <> city (job_at "b" "" "Bavaria" "DE") ->
        state (job_at "a" "" "Texas" "US") <> state (job_at "b" "" "Bavaria" "DE") ->
        country (job_at "a" "" "Texas" "US") <> country (job_at "b" "" "Bavaria" "DE") ->
        v = 0%Q).
Proof.
  split; [reflexivity|]. split; [reflexivity|].
  apply (loc_sim_priority no_city_jobs 0 1); reflexivity.
Defined.

(** C10: two rows whose city cells are both empty are both filled with
    "Unknown" by [main], and their location similarity is 1, whatever
    their states and countries. *)
Theorem missing_cities_match (df : DataFrame) (i j : nat) (a b : Job) :
  nth_error df i = Some a -> nth_error df j = Some b ->
  city a = "" -> city b = "" ->
  entry (loc_sim (map fill_missing df)) i j = Some 1%Q.
Proof.
  intros Ha Hb Ca Cb.
  rewrite (entry_pairwise loc_pair _ i j (fill_missing a) (fill_missing b)).
  - unfold loc_pair, fill_missing. simpl. rewrite Ca, Cb. reflexivity.
  - rewrite nth_error_map, Ha. reflexivity.
  - rewrite nth_error_map, Hb. reflexivity.
Qed.

Lemma missing_cities_match_witness :
  state (job_at "a" "" "Texas" "US") <> state (job_at "b" "" "Bavaria" "DE")
  /\ country (job_at "a" "" "Texas" "US") <> country (job_at "b" "" "Bavaria" "DE")
  /\ entry (loc_sim (map fill_missing no_city_jobs)) 0 1 = Some 1%Q.
Proof.
  split; [discriminate|]. split; [discriminate|].
  apply (missing_cities_match no_city_jobs 0 1
           (job_at "a" "" "Texas" "US") (job_at "b" "" "Bavaria" "DE"));
    reflexivity.
Defined.

(** * Further properties of the code *)

(** ** The selection of the extractor *)

Lemma StronglySorted_app_pairs {A : Type} (R : A -> A -> Prop) (l1 l2 : list A) (a b : A) :
  StronglySorted R (l1 ++ l2) -> In a l1 -> In b l2 -> R a b.
Proof.
  induction l1 as [|x l1 IH]; simpl; intros Hs Ha Hb; [contradiction|].
  inversion Hs as [|? ? Hs' Hall]; subst. destruct Ha as [-> | Ha].
  - rewrite Forall_forall in Hall. apply Hall, in_or_app. right. assumption.
  - apply IH; assumption.
Qed.

(** The columns that [np.argsort(scores)[::-1][:n]] selects are the
    highest of the row: they are distinct columns of the row, as many as
    [n] or the whole row, and no column left out scores more than one
    that was selected. *)
Lemma top_indices_highest {np : Argsort} (scores : list Q) (n : nat) :
  NoDup (top_indices scores n)
  /\ length (top_indices scores n) = Nat.min n (length scores)
  /\ (forall a, In a (top_indices scores n) -> (a < length scores)%nat)
  /\ (forall a c, In a (top_indices scores n) -> (c < length scores)%nat ->
       ~ In c (top_indices scores n) -> (score scores c <= score scores a)%Q).
Proof.
  split; [apply top_indices_NoDup|]. split; [apply top_indices_length|].
  split; [intros a; apply top_indices_In|].
  intros a c Ha Hc Hn. unfold top_indices in *.
  pose proof (StronglySorted_rev (ascending scores) _ (argsort_ascending scores)) as Hs.
  rewrite <- (firstn_skipn n (rev (argsort scores))) in Hs.
  apply (StronglySorted_app_pairs _ _ _ a c Hs Ha).
  assert (Hin : In c (rev (argsort scores))) by (apply -> in_rev; apply argsort_In, Hc).
  rewrite <- (firstn_skipn n (rev (argsort scores))) in Hin.
  apply in_app_or in Hin. tauto.
Qed.

Lemma row_of_unique_id {np : Argsort} (sim : Matrix) (df : DataFrame) (n i : nat) (job : Job)
  (recs : Recs) (l : list Rec) :
  get_top_n_recs sim df n = Ok recs -> NoDup (map id df) ->
  nth_error df i = Some job -> dict_get (id job) recs = Some l ->
  exists scores, masked_row sim i = Ok scores
    /\ length l = n
    /\ Forall2 (emits df scores) (top_indices scores n) l.
Proof.
  intros E ND Hi Hget. apply dict_get_In in Hget.
  assert (R : row_result sim df n (id job) l).
  { apply (get_top_n_loop_Ok _ _ _ _ _ _ E); [intros ? ? [] | exact Hget]. }
  destruct R as (i' & job' & Hi' & Hid & Hrow).
  assert (i' = i) as -> by (eapply unique_id_index; eauto).
  apply recs_of_row_Ok in Hrow. destruct Hrow as (scores & Hm & _ & L & F). eauto.
Qed.

(** The recommended jobs are the most similar ones: on a frame with
    unique ids, a job that is not in the list of job [i] (and is not [i]
    itself) has a rounded similarity to [i] that is at most the score of
    every recommendation in the list. *)
Theorem recommended_are_most_similar {np : Argsort} (sim : Matrix) (df : DataFrame) (n : nat) :
  square sim (length df) -> (n <= length df)%nat -> NoDup (map id df) ->
  exists recs, get_top_n_recs sim df n = Ok recs
    /\ forall i c job other l v r,
         nth_error df i = Some job -> nth_error df c = Some other -> c <> i ->
         dict_get (id job) recs = Some l -> ~ In (id other) (map fst l) ->
         entry sim i c = Some v -> In r l ->
         (round4 v <= snd r)%Q.
Proof.
  intros Hsq Hn ND. destruct (get_top_n_recs_total sim df n Hsq Hn) as (recs & E & _).
  exists recs. split; [exact E|].
  intros i c job other l v r Hi Hc Hne Hget Hout Hv Hr.
  destruct (row_of_unique_id _ _ _ _ _ _ _ E ND Hi Hget) as (scores & Hm & _ & F).
  destruct (Forall2_In_r _ _ _ _ F Hr) as (a & Ha & ja & Hja & ->). simpl.
  apply round4_mono.
  destruct (masked_row_Ok _ _ _ Hm) as (row & Hrow & _ & Len & _ & Ho).
  assert (Hvc : score scores c = v).
  { rewrite (Ho c Hne). unfold entry in Hv. rewrite Hrow in Hv.
    apply score_nth_error, Hv. }
  rewrite <- Hvc.
  apply (proj2 (proj2 (proj2 (top_indices_highest scores n)))); [exact Ha| |].
  - rewrite Len. unfold entry in Hv. rewrite Hrow in Hv.
    apply nth_error_Some. congruence.
  - intros Hin. apply Hout.
    destruct (Forall2_In_l _ _ _ _ F Hin) as (r' & Hr' & jc & Hjc & ->).
    apply in_map_iff. exists (id jc, round4 (score scores c)). split; [|exact Hr'].
    simpl. congruence.
Qed.

(** With one recommendation per job of [three_jobs], job c is left out of
    the list of job a, which holds job b alone: the similarity of c to a,
    1/4, rounds to no more than the score of b, 1/2. *)
Lemma recommended_are_most_similar_witness :
  square three_sim (length three_jobs) /\ (1 <= length three_jobs)%nat
  /\ NoDup (map id three_jobs)
  /\ get_top_n_recs (np := stable_sort) three_sim three_jobs 1
     = Ok [("a", [("b", 5000 # 10000)]%Q); ("b", [("a", 5000 # 10000)]%Q);
           ("c", [("b", 3333 # 10000)]%Q)]
  /\ nth_error three_jobs 0 = Some (job_with_id "a")
  /\ nth_error three_jobs 2 = Some (job_with_id "c")
  /\ 2%nat <> 0%nat
  /\ ~ In (id (job_with_id "c")) (map fst [("b", 5000 # 10000)%Q])
  /\ entry three_sim 0 2 = Some (1 # 4)%Q
  /\ In ("b", 5000 # 10000)%Q [("b", 5000 # 10000)%Q]
  /\ (round4 (1 # 4) <= snd ("b", 5000 # 10000)%Q)%Q.
Proof.
  assert (Hn : (1 <= length three_jobs)%nat) by (simpl; lia).
  assert (Hout : ~ In (id (job_with_id "c")) (map fst [("b", 5000 # 10000)%Q])).
  { simpl. intros [H | []]. discriminate H. }
  assert (Hin : In ("b", 5000 # 10000)%Q [("b", 5000 # 10000)%Q]) by (left; reflexivity).
  split; [exact three_sim_square|]. split; [exact Hn|]. split; [exact three_jobs_ids|].
  split; [reflexivity|]. split; [reflexivity|]. split; [reflexivity|].
  split; [discriminate|]. split; [exact Hout|]. split; [reflexivity|].
  split; [exact Hin|].
  destruct (recommended_are_most_similar (np := stable_sort) three_sim three_jobs 1
              three_sim_square Hn three_jobs_ids) as (recs & E & H).
  apply (H 0%nat 2%nat (job_with_id "a") (job_with_id "c") [("b", 5000 # 10000)%Q]
           (1 # 4)%Q ("b", 5000 # 10000)%Q);
    try reflexivity; try assumption; try discriminate.
  vm_compute in E. inversion E; subst recs. reflexivity.
Defined.

(** ** The closing checks *)

Lemma existsb_eqb_In (k : string) (ks : list string) :
  existsb (String.eqb k) ks = true <-> In k ks.
Proof.
  rewrite existsb_exists. split.
  - intros (x & Hx & E). apply String.eqb_eq in E. congruence.
  - intros H. exists k. split; [exact H | apply String.eqb_refl].
Qed.

(** The assertions at the end of [main] cannot fail on a map that
    [get_top_n_recs] returned for the exported frame: every key and every
    recommended id is the id of a job of the frame, and every list has
    [n] entries. The weighted model goes through the same function, so
    its map passes too. *)
Theorem sanity_check_passes {np : Argsort} (sim : Matrix) (df : DataFrame) (n : nat) (recs : Recs) :
  get_top_n_recs sim df n = Ok recs -> sanity_check (map id df) n recs = true.
Proof.
  intros E. unfold sanity_check. apply forallb_forall. intros [k l] Hin. simpl.
  assert (R : row_result sim df n k l).
  { apply (get_top_n_loop_Ok _ _ _ _ _ _ E); [intros ? ? [] | exact Hin]. }
  destruct R as (i & job & Hi & Hid & Hrow).
  apply recs_of_row_Ok in Hrow. destruct Hrow as (scores & _ & _ & L & F).
  apply andb_true_iff. split; [apply andb_true_iff; split|].
  - apply existsb_eqb_In. subst k. apply in_map, (nth_error_In _ _ Hi).
  - apply Nat.eqb_eq, L.
  - apply forallb_forall. intros r Hr.
    destruct (Forall2_In_r _ _ _ _ F Hr) as (c & _ & jc & Hjc & ->). simpl.
    apply existsb_eqb_In. apply in_map, (nth_error_In _ _ Hjc).
Qed.

Lemma sanity_check_passes_witness :
  get_top_n_recs (np := stable_sort) three_sim three_jobs TOP_N
  = Ok [("a", [("b", 5000 # 10000); ("c", 2500 # 10000); ("a", -10000 # 10000)]%Q);
        ("b", [("a", 5000 # 10000); ("c", 3333 # 10000); ("b", -10000 # 10000)]%Q);
        ("c", [("b", 3333 # 10000); ("a", 2500 # 10000); ("c", -10000 # 10000)]%Q)]
  /\ sanity_check (map id three_jobs) TOP_N
       [("a", [("b", 5000 # 10000); ("c", 2500 # 10000); ("a", -10000 # 10000)]%Q);
        ("b", [("a", 5000 # 10000); ("c", 3333 # 10000); ("b", -10000 # 10000)]%Q);
        ("c", [("b", 3333 # 10000); ("a", 2500 # 10000); ("c", -10000 # 10000)]%Q)]
     = true.
Proof.
  split; [reflexivity|].
  apply (sanity_check_passes (np := stable_sort) three_sim three_jobs TOP_N). reflexivity.
Defined.

(** ** The keys of the recommendation map *)

Lemma dict_set_keys {V : Type} (k : string) (v : V) (d : list (string * V)) :
  map fst (dict_set k v d)
  = if existsb (String.eqb k) (map fst d) then map fst d else map fst d ++ [k].
Proof.
  induction d as [|[k' v'] d IH]; simpl; [reflexivity|].
  rewrite (String.eqb_sym k k'). destruct (String.eqb_spec k' k) as [-> | Ne]; simpl.
  - reflexivity.
  - rewrite IH. destruct (existsb (String.eqb k) (map fst d)); reflexivity.
Qed.

Lemma filter_implied {A : Type} (p q : A -> bool) (u : list A) :
  (forall y, p y = true -> q y = true) -> filter p (filter q u) = filter p u.
Proof.
  intros H. induction u as [|y u IH]; simpl; [reflexivity|].
  destruct (q y) eqn:Eq; simpl.
  - rewrite IH. reflexivity.
  - destruct (p y) eqn:Ep; [apply H in Ep; congruence | exact IH].
Qed.

Lemma filter_not_in_snoc (acc : list string) (x : string) (u : list string) :
  filter (fun y => negb (existsb (String.eqb y) (acc ++ [x]))) u
  = filter (fun y => negb (existsb (String.eqb y) acc))
      (filter (fun y => negb (String.eqb y x)) u).
Proof.
  induction u as [|y u IH]; simpl; [reflexivity|].
  rewrite existsb_app. simpl. rewrite orb_false_r.
  destruct (String.eqb y x); simpl.
  - rewrite orb_true_r. simpl. exact IH.
  - rewrite orb_false_r. destruct (existsb (String.eqb y) acc); simpl; [exact IH|].
    rewrite IH. reflexivity.
Qed.

(** Setting the keys of a list one after the other in a dict leaves them
    in the order they are first seen. *)
Lemma fold_keys_uniq (ks acc : list string) :
  fold_left (fun a k => if existsb (String.eqb k) a then a else a ++ [k]) ks acc
  = acc ++ filter (fun y => negb (existsb (String.eqb y) acc)) (uniq ks).
Proof.
  revert acc. induction ks as [|x ks IH]; intros acc; simpl.
  - rewrite app_nil_r. reflexivity.
  - rewrite IH. destruct (existsb (String.eqb x) acc) eqn:E; simpl.
    + rewrite filter_implied; [reflexivity|].
      intros y Hy. destruct (String.eqb_spec y x) as [-> | Ne]; [|reflexivity].
      rewrite E in Hy. discriminate.
    + rewrite <- app_assoc. simpl. rewrite filter_not_in_snoc. reflexivity.
Qed.

Lemma get_top_n_loop_key_order {np : Argsort} (sim : Matrix) (df : DataFrame) (n : nat)
  (rows : list nat) (recs recs' : Recs) :
  get_top_n_loop sim df n rows recs = Ok recs' ->
  map fst recs'
  = fold_left (fun a k => if existsb (String.eqb k) a then a else a ++ [k])
      (map (fun i => match nth_error df i with Some job => id job | None => "" end) rows)
      (map fst recs).
Proof.
  revert recs. induction rows as [|i rows IH]; intros recs H; simpl in *.
  - inversion H. reflexivity.
  - destruct (recs_of_row sim df n i) as [l| |]; simpl in H; try discriminate.
    unfold item in H. destruct (nth_error df i) as [job|]; simpl in H; try discriminate.
    rewrite (IH _ H), dict_set_keys. reflexivity.
Qed.

Lemma map_ids_seq (pre df : DataFrame) :
  map (fun i => match nth_error (pre ++ df) i with Some job => id job | None => "" end)
      (seq (length pre) (length df))
  = map id df.
Proof.
  revert pre. induction df as [|job df IH]; intros pre; simpl; [reflexivity|].
  rewrite nth_error_app2 by lia. rewrite Nat.sub_diag. simpl. f_equal.
  specialize (IH (pre ++ [job])). rewrite <- app_assoc, length_app in IH. simpl in IH.
  rewrite Nat.add_1_r in IH. exact IH.
Qed.

Lemma uniq_of_NoDup (ks : list string) : NoDup ks -> uniq ks = ks.
Proof.
  induction 1 as [|x ks Hx ND IH]; simpl; [reflexivity|].
  rewrite IH, filter_other_id by assumption. reflexivity.
Qed.

(** The map that [get_top_n_recs] returns has one entry for each
    distinct job id, in the order the ids first appear in the frame; when
    the ids are unique its keys are the ids of the frame, row by row. *)
Theorem recs_keys {np : Argsort} (sim : Matrix) (df : DataFrame) (n : nat) (recs : Recs) :
  get_top_n_recs sim df n = Ok recs ->
  map fst recs = uniq (map id df)
  /\ (NoDup (map id df) -> map fst recs = map id df /\ length recs = length df).
Proof.
  intros E. unfold get_top_n_recs in E. apply get_top_n_loop_key_order in E.
  pose proof (map_ids_seq [] df) as M. simpl in M. rewrite M, fold_keys_uniq in E.
  simpl in E.
  assert (K : map fst recs = uniq (map id df)).
  { rewrite E. clear. induction (uniq (map id df)) as [|x u IH]; simpl; congruence. }
  split; [exact K|]. intros ND. rewrite uniq_of_NoDup in K by assumption.
  split; [exact K|]. rewrite <- (length_map fst recs), K. apply length_map.
Qed.

Lemma recs_keys_witness :
  get_top_n_recs (np := stable_sort) tied_sim three_jobs 2
  = Ok [("a", [("c", 5000 # 10000); ("b", 5000 # 10000)]%Q);
        ("b", [("a", 5000 # 10000); ("c", 3333 # 10000)]%Q);
        ("c", [("a", 5000 # 10000); ("b", 3333 # 10000)]%Q)]
  /\ map fst [("a", [("c", 5000 # 10000); ("b", 5000 # 10000)]%Q);
              ("b", [("a", 5000 # 10000); ("c", 3333 # 10000)]%Q);
              ("c", [("a", 5000 # 10000); ("b", 3333 # 10000)]%Q)]
     = uniq (map id three_jobs).
Proof.
  split; [reflexivity|].
  apply (proj1 (recs_keys (np := stable_sort) tied_sim three_jobs 2 _ eq_refl)).
Defined.

Lemma emitted_ids_distinct (df : DataFrame) (scores : list Q) (top : list nat)
  (l : list Rec) :
  NoDup (map id df) -> NoDup top -> Forall2 (emits df scores) top l ->
  NoDup (map fst l).
Proof.
  intros ND Ht F. induction F as [|c r top l (jc & Hjc & ->) F IH]; simpl.
  - constructor.
  - inversion Ht as [|? ? Hc Ht']; subst. constructor; [|apply IH, Ht'].
    intros Hin. apply in_map_iff in Hin. destruct Hin as (r' & Hid & Hr').
    destruct (Forall2_In_r _ _ _ _ F Hr') as (c' & Hc' & jc' & Hjc' & ->).
    simpl in Hid. apply Hc.
    rewrite (unique_id_index df c c' jc jc' ND Hjc Hjc'); [exact Hc' | congruence].
Qed.

(** On a frame with unique ids no job is recommended twice to the same
    job. *)
Theorem neighbours_distinct {np : Argsort} (sim : Matrix) (df : DataFrame) (n : nat) (recs : Recs) :
  get_top_n_recs sim df n = Ok recs -> NoDup (map id df) ->
  forall k l, In (k, l) recs -> NoDup (map fst l).
Proof.
  intros E ND k l Hin.
  assert (R : row_result sim df n k l).
  { apply (get_top_n_loop_Ok _ _ _ _ _ _ E); [intros ? ? [] | exact Hin]. }
  destruct R as (i & job & _ & _ & Hrow).
  apply recs_of_row_Ok in Hrow. destruct Hrow as (scores & _ & _ & _ & F).
  eapply emitted_ids_distinct; [exact ND | apply top_indices_NoDup | exact F].
Qed.

Lemma neighbours_distinct_witness :
  NoDup (map id three_jobs)
  /\ NoDup (map fst [("b", 5000 # 10000); ("c", 2500 # 10000); ("a", -10000 # 10000)]%Q).
Proof.
  split; [exact three_jobs_ids|].
  apply (neighbours_distinct (np := stable_sort) three_sim three_jobs TOP_N _ eq_refl
           three_jobs_ids "a").
  left. reflexivity.
Defined.

(** ** The range of the emitted scores *)

Lemma round4_unit (x : Q) : (0 <= x <= 1)%Q -> (0 <= round4 x <= 1)%Q.
Proof.
  intros [L U]. split.
  - apply (Qle_trans _ (round4 0)); [discriminate | apply round4_mono, L].
  - apply (Qle_trans _ (round4 1)); [apply round4_mono, U | discriminate].
Qed.

Lemma masked_entry (sim : Matrix) (i c : nat) (scores : list Q) :
  masked_row sim i = Ok scores -> c <> i -> (c < length scores)%nat ->
  entry sim i c = Some (score scores c).
Proof.
  intros Hm Hne Hc. destruct (masked_row_Ok _ _ _ Hm) as (row & Hrow & _ & Len & _ & Ho).
  unfold entry. rewrite Hrow, (Ho c Hne). unfold score. apply nth_error_nth'. lia.
Qed.

Lemma emitted_unit_range {np : Argsort} (sim : Matrix) (df : DataFrame) (n : nat) :
  square sim (length df) -> (n < length df)%nat -> unit_range sim ->
  exists recs, get_top_n_recs sim df n = Ok recs
    /\ forall k l r, In (k, l) recs -> In r l -> (0 <= snd r <= 1)%Q.
Proof.
  intros Hsq Hn Hu.
  destruct (get_top_n_recs_total sim df n Hsq) as (recs & E & _ & R); [lia|].
  exists recs. split; [exact E|]. intros k l r Hin Hr.
  destruct (R _ _ Hin) as (i & job & Hi & _ & Hrow).
  apply recs_of_row_Ok in Hrow. destruct Hrow as (scores & Hm & _ & _ & F).
  destruct (Forall2_In_r _ _ _ _ F Hr) as (c & Hc & jc & Hjc & ->). simpl.
  destruct (masked_row_Ok _ _ _ Hm) as (row & Hrow & Lt & Len & Hs & Ho).
  assert (Lrow : length row = length df).
  { destruct Hsq as [_ Hr']. rewrite Forall_forall in Hr'.
    apply Hr'. eapply nth_error_In, Hrow. }
  assert (Hlen : (c < length scores)%nat) by (eapply top_indices_In, Hc).
  assert (Hne : c <> i).
  { intros ->. revert Hc. apply self_not_in_top; try lia; [exact Hs|].
    intros k' Hk' Hne'. apply (Qlt_le_trans _ 0); [reflexivity|].
    apply (Hu i k'), masked_entry; assumption. }
  apply round4_unit, (Hu i c), masked_entry; assumption.
Qed.

(** When the similarities lie between 0 and 1, as cosine and indicator
    similarities do, and the frame has more than [n] jobs, every score in
    the returned map lies between 0 and 1: the sentinel -1 is never
    emitted and rounding does not leave the range. *)
Theorem emitted_scores_in_unit_range {np : Argsort} (sim : Matrix) (df : DataFrame) (n : nat) :
  square sim (length df) -> (n < length df)%nat -> unit_range sim ->
  exists recs, get_top_n_recs sim df n = Ok recs
    /\ forall k l r, In (k, l) recs -> In r l -> (0 <= snd r <= 1)%Q.
Proof. exact (emitted_unit_range sim df n). Qed.

Lemma three_sim_unit_range : unit_range three_sim.
Proof.
  intros i j v H.
  destruct i as [|[|[|i]]]; destruct j as [|[|[|j]]];
    try (destruct i; discriminate); try (destruct j; discriminate);
    try discriminate; inversion H; subst; split; discriminate.
Qed.

Lemma emitted_scores_in_unit_range_witness :
  square three_sim (length three_jobs) /\ (2 < length three_jobs)%nat
  /\ unit_range three_sim
  /\ exists recs, get_top_n_recs (np := stable_sort) three_sim three_jobs 2 = Ok recs
    /\ forall k l r, In (k, l) recs -> In r l -> (0 <= snd r <= 1)%Q.
Proof.
  split; [exact three_sim_square|]. split; [simpl; lia|].
  split; [exact three_sim_unit_range|].
  apply (emitted_scores_in_unit_range (np := stable_sort) three_sim three_jobs 2).
  - exact three_sim_square.
  - simpl. lia.
  - exact three_sim_unit_range.
Defined.

(** ** The feature matrices *)

Lemma entry_pairwise_eq {A : Type} (f : A -> A -> Q) (xs : list A) (i j : nat) :
  entry (pairwise f xs) i j
  = match nth_error xs i, nth_error xs j with
    | Some a, Some b => Some (f a b)
    | _, _ => None
    end.
Proof.
  unfold entry, pairwise. rewrite nth_error_map.
  destruct (nth_error xs i) as [a|]; simpl; [|reflexivity].
  rewrite nth_error_map. destruct (nth_error xs j); reflexivity.
Qed.

Lemma pairwise_symmetric {A : Type} (f : A -> A -> Q) (xs : list A) (i j : nat) :
  (forall a b, f a b = f b a) -> entry (pairwise f xs) i j = entry (pairwise f xs) j i.
Proof.
  intros H. rewrite !entry_pairwise_eq.
  destruct (nth_error xs i), (nth_error xs j); try reflexivity. rewrite H. reflexivity.
Qed.

Lemma pairwise_diagonal {A : Type} (f : A -> A -> Q) (xs : list A) (i : nat) (v : Q) :
  (forall a, f a a = v) -> (i < length xs)%nat -> entry (pairwise f xs) i i = Some v.
Proof.
  intros H Hi. rewrite entry_pairwise_eq.
  destruct (nth_error xs i) eqn:E; [rewrite H; reflexivity|].
  apply nth_error_None in E. lia.
Qed.

Lemma pairwise_unit_range {A : Type} (f : A -> A -> Q) (xs : list A) :
  (forall a b, (0 <= f a b <= 1)%Q) -> unit_range (pairwise f xs).
Proof.
  intros H i j v E. rewrite entry_pairwise_eq in E.
  destruct (nth_error xs i), (nth_error xs j); try discriminate.
  inversion E; subst. apply H.
Qed.

Lemma indicator_sym (a b : string) : indicator a b = indicator b a.
Proof. unfold indicator. rewrite String.eqb_sym. reflexivity. Qed.

Lemma loc_pair_sym (a b : Job) : loc_pair a b = loc_pair b a.
Proof.
  unfold loc_pair.
  rewrite (String.eqb_sym (city a)), (String.eqb_sym (state a)),
    (String.eqb_sym (country a)). reflexivity.
Qed.

Lemma indicator_range (a b : string) : (0 <= indicator a b <= 1)%Q.
Proof. unfold indicator. destruct (String.eqb a b); split; discriminate. Qed.

Lemma loc_pair_range (a b : Job) : (0 <= loc_pair a b <= 1)%Q.
Proof.
  unfold loc_pair.
  destruct (String.eqb (city a) (city b)); [split; discriminate|].
  destruct (String.eqb (state a) (state b)); [split; discriminate|].
  destruct (String.eqb (country a) (country b)); split; discriminate.
Qed.

(** The category, job-type and location matrices are symmetric, have
    1 on the diagonal and entries between 0 and 1. *)
Theorem indicator_matrices_symmetric (df : DataFrame) (i j : nat) :
  (entry (cat_sim df) i j = entry (cat_sim df) j i
   /\ entry (type_sim df) i j = entry (type_sim df) j i
   /\ entry (loc_sim df) i j = entry (loc_sim df) j i)
  /\ ((i < length df)%nat ->
      entry (cat_sim df) i i = Some 1%Q /\ entry (type_sim df) i i = Some 1%Q
      /\ entry (loc_sim df) i i = Some 1%Q)
  /\ (unit_range (cat_sim df) /\ unit_range (type_sim df) /\ unit_range (loc_sim df)).
Proof.
  unfold cat_sim, type_sim, loc_sim. split; [|split].
  - split; [|split]; apply pairwise_symmetric; intros;
      [apply indicator_sym | apply indicator_sym | apply loc_pair_sym].
  - intros Hi. split; [|split]; apply pairwise_diagonal; try assumption; intros a;
      unfold indicator, loc_pair; rewrite String.eqb_refl; reflexivity.
  - split; [|split]; apply pairwise_unit_range; intros;
      [apply indicator_range | apply indicator_range | apply loc_pair_range].
Qed.

Lemma indicator_matrices_symmetric_witness :
  (0 < length no_city_jobs)%nat
  /\ entry (cat_sim no_city_jobs) 0 0 = Some 1%Q
  /\ entry (type_sim no_city_jobs) 0 0 = Some 1%Q
  /\ entry (loc_sim no_city_jobs) 0 0 = Some 1%Q.
Proof.
  split; [simpl; lia|].
  apply (proj1 (proj2 (indicator_matrices_symmetric no_city_jobs 0 0))). simpl. lia.
Defined.

(** ** The experience matrix *)

Lemma Qmax2_ge (a b : Q) : (a <= Qmax2 a b)%Q /\ (b <= Qmax2 a b)%Q.
Proof.
  unfold Qmax2. destruct (Qle_bool a b) eqn:E.
  - apply Qle_bool_iff in E. split; [exact E | apply Qle_refl].
  - split; [apply Qle_refl|]. apply Qlt_le_weak, Qnot_le_lt.
    intros C. apply Qle_bool_iff in C. congruence.
Qed.

Lemma fold_max_ge (xs : list Q) (x y : Q) :
  In y (x :: xs) -> (y <= fold_left Qmax2 xs x)%Q.
Proof.
  revert x. induction xs as [|a xs IH]; intros x Hy; simpl in *.
  - destruct Hy as [E | []]. rewrite E. apply Qle_refl.
  - destruct (Qmax2_ge x a) as [Lx La].
    assert (Hm : (Qmax2 x a <= fold_left Qmax2 xs (Qmax2 x a))%Q).
    { clear IH Hy. generalize (Qmax2 x a). clear. induction xs as [|b xs IH]; intros z; simpl.
      - apply Qle_refl.
      - eapply Qle_trans; [apply (proj1 (Qmax2_ge z b)) | apply IH]. }
    destruct Hy as [E | [E | Hy]].
    + rewrite <- E. eapply Qle_trans; [exact Lx | exact Hm].
    + rewrite <- E. eapply Qle_trans; [exact La | exact Hm].
    + apply IH. right. exact Hy.
Qed.

Lemma fold_max_In (xs : list Q) (x : Q) : In (fold_left Qmax2 xs x) (x :: xs).
Proof.
  revert x. induction xs as [|a xs IH]; intros x; simpl.
  - left. reflexivity.
  - destruct (IH (Qmax2 x a)) as [E | H].
    + rewrite <- E. unfold Qmax2. destruct (Qle_bool x a); auto.
    + right. right. exact H.
Qed.

Lemma entry_In_concat (m : Matrix) (i j : nat) (v : Q) :
  entry m i j = Some v -> In v (concat m).
Proof.
  unfold entry. destruct (nth_error m i) as [row|] eqn:E; [|discriminate].
  intros H. apply in_concat. exists row. split; eapply nth_error_In; eassumption.
Qed.

Lemma entry_map (g : Q -> Q) (m : Matrix) (i j : nat) :
  entry (map (map g) m) i j = option_map g (entry m i j).
Proof.
  unfold entry. rewrite nth_error_map. destruct (nth_error m i); simpl; [|reflexivity].
  rewrite nth_error_map. reflexivity.
Qed.

Lemma matrix_max_Ok (m : Matrix) (mx : Q) :
  matrix_max m = Ok mx ->
  In mx (concat m) /\ forall i j v, entry m i j = Some v -> (v <= mx)%Q.
Proof.
  unfold matrix_max. destruct (concat m) as [|x xs] eqn:E; [discriminate|].
  intros H. inversion H; subst. split; [apply fold_max_In|].
  intros i j v Hv. apply fold_max_ge. rewrite <- E. eapply entry_In_concat, Hv.
Qed.

(** The distance of experience levels behind [exp_sim]. *)
Lemma exp_dist_entry (df : DataFrame) (i j : nat) (d : Q) :
  entry (pairwise (fun a b => Qabs (exp_val (experience a) - exp_val (experience b))) df)
        i j = Some d ->
  exists a b, nth_error df i = Some a /\ nth_error df j = Some b
              /\ d = Qabs (exp_val (experience a) - exp_val (experience b)).
Proof.
  rewrite entry_pairwise_eq.
  destruct (nth_error df i) as [a|], (nth_error df j) as [b|]; try discriminate.
  intros H. inversion H. eauto.
Qed.

Lemma exp_sim_spec (df : DataFrame) :
  df <> [] ->
  exists m, exp_sim df = Ok m
    /\ square m (length df)
    /\ unit_range m
    /\ (forall i j, entry m i j = entry m j i)
    /\ (forall i, (i < length df)%nat ->
          exists v, entry m i i = Some v /\ (v == 1)%Q)
    /\ ((forall a b, In a df -> In b df ->
           (exp_val (experience a) == exp_val (experience b))%Q) ->
        forall i j v, entry m i j = Some v -> v = 1%Q).
Proof.
  intros Hne.
  destruct (exp_sim_Ok df Hne) as (m & E & Sq). exists m.
  split; [exact E|]. split; [exact Sq|].
  unfold exp_sim in E.
  set (dist := pairwise (fun a b => Qabs (exp_val (experience a) - exp_val (experience b))) df)
    in *.
  assert (Dsym : forall i j, entry dist i j = entry dist j i).
  { intros i j. apply pairwise_symmetric. intros a b. apply Qabs_Qminus. }
  destruct (matrix_max dist) as [mx| |] eqn:Em; simpl in E; try discriminate.
  destruct (matrix_max_Ok _ _ Em) as [Hin Hmax].
  destruct (Qlt_le_dec 0 mx) as [Pos | NotPos]; inversion E; subst m; clear E.
  - repeat split.
    + rewrite entry_map in H. destruct (entry dist i j) as [d|] eqn:Ed; [|discriminate].
      simpl in H. inversion H; subst v.
      assert (d / mx <= 1)%Q by (apply Qle_shift_div_r; [exact Pos | rewrite Qmult_1_l; eauto]).
      lra.
    + rewrite entry_map in H. destruct (entry dist i j) as [d|] eqn:Ed; [|discriminate].
      simpl in H. inversion H; subst v.
      assert (0 <= d / mx)%Q.
      { apply Qle_shift_div_l; [exact Pos|]. rewrite Qmult_0_l.
        apply exp_dist_entry in Ed. destruct Ed as (a & b & _ & _ & ->). apply Qabs_nonneg. }
      lra.
    + intros i j. rewrite !entry_map, Dsym. reflexivity.
    + intros i Hi. rewrite entry_map.
      destruct (nth_error df i) as [a|] eqn:Ea; [|apply nth_error_None in Ea; lia].
      unfold dist. rewrite (entry_pairwise _ _ _ _ a a Ea Ea). simpl.
      eexists. split; [reflexivity|].
      assert (Z : (Qabs (exp_val (experience a) - exp_val (experience a)) == 0)%Q).
      { setoid_replace (exp_val (experience a) - exp_val (experience a))%Q with 0%Q by ring.
        reflexivity. }
      rewrite Z. field. intros C. rewrite C in Pos. discriminate.
    + intros Hsame i j v Hv. exfalso.
      assert (Hz : (mx == 0)%Q).
      { apply in_concat in Hin. destruct Hin as (row & Hrow & Hmx).
        apply In_nth_error in Hrow. destruct Hrow as [i' Hi'].
        apply In_nth_error in Hmx. destruct Hmx as [j' Hj'].
        assert (Ed : entry dist i' j' = Some mx) by (unfold entry; rewrite Hi'; exact Hj').
        apply exp_dist_entry in Ed. destruct Ed as (a & b & Ha & Hb & ->).
        rewrite (Hsame a b (nth_error_In _ _ Ha) (nth_error_In _ _ Hb)).
        setoid_replace (exp_val (experience b) - exp_val (experience b))%Q with 0%Q by ring.
        reflexivity. }
      rewrite Hz in Pos. discriminate.
  - repeat split.
    + rewrite entry_map in H. destruct (entry dist i j); [|discriminate].
      inversion H. discriminate.
    + rewrite entry_map in H. destruct (entry dist i j); [|discriminate].
      inversion H. discriminate.
    + intros i j. rewrite !entry_map, Dsym. reflexivity.
    + intros i Hi. rewrite entry_map.
      destruct (nth_error df i) as [a|] eqn:Ea; [|apply nth_error_None in Ea; lia].
      unfold dist. rewrite (entry_pairwise _ _ _ _ a a Ea Ea). simpl.
      eexists. split; reflexivity.
    + intros _ i j v Hv. rewrite entry_map in Hv.
      destruct (entry dist i j); [|discriminate]. inversion Hv. reflexivity.
Qed.

(** The experience matrix: an empty frame raises [ValueError] (the
    maximum of an array without entries); on any other frame the matrix
    is square over the frame, symmetric, with entries between 0 and 1 and
    1 (up to the representation of the fraction) on the diagonal; and when
    all jobs have the same experience level every entry is 1. *)
Theorem exp_sim_properties (df : DataFrame) :
  exp_sim [] = Raise ValueError
  /\ (df <> [] ->
      exists m, exp_sim df = Ok m
        /\ square m (length df)
        /\ unit_range m
        /\ (forall i j, entry m i j = entry m j i)
        /\ (forall i, (i < length df)%nat ->
              exists v, entry m i i = Some v /\ (v == 1)%Q)
        /\ ((forall a b, In a df -> In b df ->
               (exp_val (experience a) == exp_val (experience b))%Q) ->
            forall i j v, entry m i j = Some v -> v = 1%Q)).
Proof. split; [reflexivity | apply exp_sim_spec]. Qed.

Lemma exp_sim_properties_witness :
  two_jobs <> []
  /\ exists m, exp_sim two_jobs = Ok m
      /\ square m (length two_jobs)
      /\ unit_range m
      /\ (forall i j, entry m i j = entry m j i)
      /\ (forall i, (i < length two_jobs)%nat ->
            exists v, entry m i i = Some v /\ (v == 1)%Q)
      /\ ((forall a b, In a two_jobs -> In b two_jobs ->
             (exp_val (experience a) == exp_val (experience b))%Q) ->
          forall i j v, entry m i j = Some v -> v = 1%Q).
Proof.
  split; [discriminate|].
  apply (proj2 (exp_sim_properties two_jobs)). discriminate.
Defined.

(** ** The composite similarity *)

Lemma square_entry (m : Matrix) (k i j : nat) :
  square m k -> (i < k)%nat -> (j < k)%nat -> exists x, entry m i j = Some x.
Proof.
  intros [L F] Hi Hj. unfold entry.
  destruct (nth_error m i) as [row|] eqn:E; [|apply nth_error_None in E; lia].
  rewrite Forall_forall in F. specialize (F row (nth_error_In _ _ E)).
  destruct (nth_error row j) as [x|] eqn:Ex; [eauto | apply nth_error_None in Ex; lia].
Qed.

Lemma entry_in_square (m : Matrix) (k i j : nat) (v : Q) :
  square m k -> entry m i j = Some v -> (i < k)%nat /\ (j < k)%nat.
Proof.
  intros [L F] H. unfold entry in H.
  destruct (nth_error m i) as [row|] eqn:E; [|discriminate].
  rewrite Forall_forall in F. specialize (F row (nth_error_In _ _ E)).
  split.
  - rewrite <- L. apply nth_error_Some. congruence.
  - rewrite <- F. apply nth_error_Some. congruence.
Qed.

(** With the weights of the code, which are not negative and sum to 1,
    the composite of six matrices with entries between 0 and 1 has its
    entries between 0 and 1. *)
Lemma weighted_sim_unit_range (d t c l y e : Matrix) (k : nat) :
  square d k -> square t k -> square c k -> square l k -> square y k -> square e k ->
  unit_range d -> unit_range t -> unit_range c -> unit_range l -> unit_range y ->
  unit_range e ->
  unit_range (weighted_sim WEIGHTS d t c l y e).
Proof.
  intros Sd St Sc Sl Sy Se Ud Ut Uc Ul Uy Ue i j v Hv.
  destruct (entry_in_square _ k i j v
              (square_weighted_sim WEIGHTS d t c l y e k Sd St Sc Sl Sy Se) Hv) as [Hi Hj].
  destruct (square_entry d k i j Sd Hi Hj) as [xd Ed].
  destruct (square_entry t k i j St Hi Hj) as [xt Et].
  destruct (square_entry c k i j Sc Hi Hj) as [xc Ec].
  destruct (square_entry l k i j Sl Hi Hj) as [xl El].
  destruct (square_entry y k i j Sy Hi Hj) as [xy Ey].
  destruct (square_entry e k i j Se Hi Hj) as [xe Ee].
  assert (F : entry (weighted_sim WEIGHTS d t c l y e) i j
              = Some (w_description WEIGHTS * xd + w_title WEIGHTS * xt
                      + w_category WEIGHTS * xc + w_location WEIGHTS * xl
                      + w_job_type WEIGHTS * xy + w_experience WEIGHTS * xe)%Q).
  { unfold weighted_sim. repeat apply entry_mat_add; apply entry_mat_scale; assumption. }
  rewrite F in Hv. inversion Hv; subst v. simpl.
  pose proof (Ud _ _ _ Ed). pose proof (Ut _ _ _ Et). pose proof (Uc _ _ _ Ec).
  pose proof (Ul _ _ _ El). pose proof (Uy _ _ _ Ey). pose proof (Ue _ _ _ Ee).
  lra.
Qed.

(** The weighted model of [main] on a frame of more than [n] jobs: when
    the two text similarity matrices are square over the frame with
    entries between 0 and 1, the weighted recommendations are computed and
    every score in them lies between 0 and 1. *)
Theorem weighted_scores_in_unit_range {np : Argsort} (df : DataFrame)
  (desc_sim title_sim_matrix : Matrix) (n : nat) :
  (n < length df)%nat ->
  square desc_sim (length df) -> square title_sim_matrix (length df) ->
  unit_range desc_sim -> unit_range title_sim_matrix ->
  exists recs, weighted_recs WEIGHTS df desc_sim title_sim_matrix n = Ok recs
    /\ forall k l r, In (k, l) recs -> In r l -> (0 <= snd r <= 1)%Q.
Proof.
  intros Hn Sd St Ud Ut.
  assert (Hne : df <> []) by (intros ->; simpl in Hn; lia).
  destruct (exp_sim_spec df Hne) as (e & Ee & Se & Ue & _).
  unfold weighted_recs. rewrite Ee. simpl.
  apply emitted_unit_range; [|exact Hn|].
  - apply square_weighted_sim; auto; apply square_pairwise.
  - eapply weighted_sim_unit_range; eauto; try apply square_pairwise;
      apply pairwise_unit_range; intros;
      [apply indicator_range | apply loc_pair_range | apply indicator_range].
Qed.

Lemma two_sim_square : square two_sim (length two_jobs).
Proof. split; [reflexivity | repeat constructor]. Qed.

Lemma two_sim_unit_range : unit_range two_sim.
Proof.
  intros i j v H.
  destruct i as [|[|i]]; destruct j as [|[|j]];
    try (destruct i; discriminate); try (destruct j; discriminate);
    try discriminate; inversion H; subst; split; discriminate.
Qed.

Lemma weighted_scores_in_unit_range_witness :
  (1 < length two_jobs)%nat /\ square two_sim (length two_jobs) /\ unit_range two_sim
  /\ exists recs, weighted_recs (np := stable_sort) WEIGHTS two_jobs two_sim two_sim 1 = Ok recs
    /\ forall k l r, In (k, l) recs -> In r l -> (0 <= snd r <= 1)%Q.
Proof.
  split; [simpl; lia|]. split; [exact two_sim_square|]. split; [exact two_sim_unit_range|].
  apply (weighted_scores_in_unit_range (np := stable_sort) two_jobs two_sim two_sim 1%nat).
  - simpl. lia.
  - exact two_sim_square.
  - exact two_sim_square.
  - exact two_sim_unit_range.
  - exact two_sim_unit_range.
Defined.

(** ** Deduplication *)

Lemma same_key_iff (a b : Job) : same_key a b = true <-> key_of a = key_of b.
Proof.
  unfold same_key, key_of. rewrite !andb_true_iff, !String.eqb_eq. split.
  - intros [[-> ->] ->]. reflexivity.
  - intros H. inversion H. auto.
Qed.

Lemma same_key_seen (a b : Job) (seen : list Job) :
  key_of a = key_of b -> existsb (same_key a) seen = existsb (same_key b) seen.
Proof.
  intros H. induction seen as [|x seen IH]; simpl; [reflexivity|]. rewrite IH. f_equal.
  destruct (same_key a x) eqn:Ea, (same_key b x) eqn:Eb; try reflexivity.
  - apply same_key_iff in Ea. assert (same_key b x = true) by (apply same_key_iff; congruence).
    congruence.
  - apply same_key_iff in Eb. assert (same_key a x = true) by (apply same_key_iff; congruence).
    congruence.
Qed.

Lemma drop_duplicates_from_first (seen : list Job) (df : DataFrame) (j : Job) :
  In j (drop_duplicates_from seen df) ->
  existsb (same_key j) seen = false /\ find (same_key j) df = Some j.
Proof.
  revert seen. induction df as [|x df IH]; intros seen H; simpl in *; [contradiction|].
  destruct (existsb (same_key x) seen) eqn:Ex.
  - destruct (IH _ H) as [Hs Hf]. split; [exact Hs|].
    destruct (same_key j x) eqn:Ej; [|exact Hf].
    apply same_key_iff in Ej. rewrite (same_key_seen j x seen Ej) in Hs. congruence.
  - destruct H as [-> | H].
    + split; [exact Ex|]. replace (same_key j j) with true; [reflexivity|].
      symmetry. apply same_key_iff. reflexivity.
    + destruct (IH _ H) as [Hs Hf]. simpl in Hs. apply orb_false_iff in Hs.
      destruct Hs as [Hx Hs]. split; [exact Hs|]. rewrite Hx. exact Hf.
Qed.

Lemma drop_duplicates_from_NoDup (seen : list Job) (df : DataFrame) :
  NoDup (map key_of (drop_duplicates_from seen df)).
Proof.
  revert seen. induction df as [|x df IH]; intros seen; simpl; [constructor|].
  destruct (existsb (same_key x) seen); [apply IH|]. simpl. constructor; [|apply IH].
  intros Hin. apply in_map_iff in Hin. destruct Hin as (y & Hk & Hy).
  apply drop_duplicates_from_first in Hy. destruct Hy as [Hs _]. simpl in Hs.
  apply orb_false_iff in Hs. destruct Hs as [Hx _].
  assert (same_key y x = true) by (apply same_key_iff; exact Hk). congruence.
Qed.

Lemma drop_duplicates_from_covers (seen : list Job) (df : DataFrame) (j : Job) :
  In j df ->
  existsb (same_key j) seen = true
  \/ exists j', In j' (drop_duplicates_from seen df) /\ key_of j' = key_of j.
Proof.
  revert seen. induction df as [|x df IH]; intros seen H; simpl in *; [contradiction|].
  destruct H as [-> | H].
  - destruct (existsb (same_key j) seen) eqn:E; [left; reflexivity|].
    right. exists j. split; [left|]; reflexivity.
  - destruct (existsb (same_key x) seen) eqn:E; [apply IH, H|].
    destruct (IH (x :: seen) H) as [Hs | (j' & Hj' & Hk)].
    + simpl in Hs. apply orb_true_iff in Hs. destruct Hs as [Hx | Hs]; [|left; exact Hs].
      right. exists x. split; [left; reflexivity|]. symmetry. apply same_key_iff, Hx.
    + right. exists j'. split; [right; exact Hj' | exact Hk].
Qed.

Lemma dedup_keys (df : DataFrame) :
  map key_of (dedup df) = map key_of (drop_duplicates df).
Proof. unfold dedup. rewrite map_map. reflexivity. Qed.

(** Deduplication: no two rows of the deduplicated frame share title,
    company and city; every row of the input keeps a row with its key;
    the row kept for a key is the first row of the input with that key;
    and after the fill no row has an empty category. *)
Theorem dedup_properties (df : DataFrame) :
  NoDup (map key_of (dedup df))
  /\ (forall j, In j df -> exists j', In j' (drop_duplicates df) /\ key_of j' = key_of j)
  /\ (forall j, In j (drop_duplicates df) -> find (same_key j) df = Some j)
  /\ (forall j, In j (dedup df) -> category j <> "").
Proof.
  split; [rewrite dedup_keys; apply drop_duplicates_from_NoDup|]. split; [|split].
  - intros j Hj. destruct (drop_duplicates_from_covers [] df j Hj) as [C | H];
      [discriminate | exact H].
  - intros j Hj. apply (drop_duplicates_from_first [] df j Hj).
  - intros j Hj. unfold dedup in Hj. apply in_map_iff in Hj. destruct Hj as (x & <- & _).
    simpl. unfold replace_empty. destruct (String.eqb_spec (category x) "") as [E | Ne];
      [discriminate | exact Ne].
Qed.

(** A frame with a repeated (title, company, city): the second and the
    third row repeat the first and differ in id. *)
Lemma dedup_keeps_first :
  drop_duplicates [job_in "1" "t" "A"; job_in "2" "t" "B"; job_in "3" "u" "A";
                   job_in "4" "t" "A"]
  = [job_in "1" "t" "A"; job_in "3" "u" "A"].
Proof. reflexivity. Qed.

Lemma dedup_properties_witness :
  In (job_in "10" "10" "B") ten_jobs
  /\ exists j', In j' (drop_duplicates ten_jobs)
                /\ key_of j' = key_of (job_in "10" "10" "B").
Proof.
  assert (H : In (job_in "10" "10" "B") ten_jobs) by (simpl; tauto).
  split; [exact H|].
  apply (proj1 (proj2 (dedup_properties ten_jobs)) _ H).
Defined.

(** ** The composition of the sample *)

Lemma shrink_quotas_keys (fuel : nat) (n : Z) (s s' : Series) :
  shrink_quotas fuel n s = Ok s' -> map fst s' = map fst s.
Proof.
  revert s. induction fuel as [|fuel IH]; intros s; rewrite shrink_quotas_eq;
    destruct (n <? series_sum s)%Z; try (intros H; inversion H; reflexivity);
    destruct (idxmax s) as [largest| |]; simpl; try discriminate.
  intros H. rewrite (IH _ H). apply series_add_keys.
Qed.

Lemma grow_quotas_keys (fuel : nat) (n : Z) (s s' : Series) :
  grow_quotas fuel n s = Ok s' -> map fst s' = map fst s.
Proof.
  revert s. induction fuel as [|fuel IH]; intros s; rewrite grow_quotas_eq;
    destruct (series_sum s <? n)%Z; try (intros H; inversion H; reflexivity);
    destruct (idxmax s) as [largest| |]; simpl; try discriminate.
  intros H. rewrite (IH _ H). apply series_add_keys.
Qed.

Lemma adjust_quotas_keys (fuel : nat) (n : Z) (s s' : Series) :
  adjust_quotas fuel n s = Ok s' -> map fst s' = map fst s.
Proof.
  unfold adjust_quotas. destruct (shrink_quotas fuel n s) as [s1| |] eqn:E; simpl;
    try discriminate.
  intros H. rewrite (grow_quotas_keys _ _ _ _ H). apply (shrink_quotas_keys _ _ _ _ E).
Qed.

(** What the sampling loop returns: one group for each quota, drawn from
    the rows of its category, of the size of the quota or of the category. *)
Lemma sample_groups_Ok (S : RowSampler) (df_dedup : DataFrame) (quotas : Series)
  (groups : list DataFrame) :
  sample_groups S df_dedup quotas = Ok groups ->
  Forall2 (fun p g =>
             g = draw S (rows_of (fst p) df_dedup)
                   (Z.to_nat (Z.min (snd p) (cat_size df_dedup (fst p))))
             /\ incl g (rows_of (fst p) df_dedup)
             /\ Z.of_nat (length g) = Z.min (snd p) (cat_size df_dedup (fst p)))
          quotas groups.
Proof.
  unfold rows_of, cat_size.
  revert groups. induction quotas as [|[cat count] quotas IH]; intros groups H; simpl in H.
  - inversion H. constructor.
  - unfold sample_rows in H.
    set (cat_df := filter (fun j => String.eqb (category j) cat) df_dedup) in *.
    destruct (Z.ltb_spec (Z.min count (Z.of_nat (length cat_df))) 0) as [L | L];
      simpl in H; try discriminate.
    destruct (Z.ltb_spec (Z.of_nat (length cat_df))
                (Z.min count (Z.of_nat (length cat_df)))) as [L' | L'];
      simpl in H; try discriminate.
    destruct (sample_groups S df_dedup quotas) as [gs| |]; simpl in H; try discriminate.
    inversion H; subst. constructor; [|apply IH; reflexivity]. simpl. fold cat_df.
    split; [reflexivity|]. split; [apply draw_incl|].
    rewrite draw_length; lia.
Qed.

Lemma stratified_sample_Ok (S : RowSampler) (fuel : nat) (df : DataFrame) (n M : Z)
  (result : DataFrame) :
  stratified_sample S fuel df n M = Ok result ->
  exists quotas groups,
    adjust_quotas fuel n (cat_samples0 (dedup df) n M) = Ok quotas
    /\ sample_groups S (dedup df) quotas = Ok groups
    /\ NoDup (map fst quotas)
    /\ result = concat groups.
Proof.
  unfold stratified_sample.
  destruct (adjust_quotas fuel n (cat_samples0 (dedup df) n M)) as [quotas| |] eqn:Ea;
    simpl; try discriminate.
  destruct (sample_groups S (dedup df) quotas) as [groups| |] eqn:Eg; simpl;
    try discriminate.
  destruct groups as [|g groups]; simpl; [discriminate|].
  intros H. inversion H; subst. exists quotas, (g :: groups).
  repeat split; auto.
  rewrite (adjust_quotas_keys _ _ _ _ Ea). apply cat_samples0_NoDup.
Qed.

Lemma rows_of_all (cat : string) (g : DataFrame) :
  (forall j, In j g -> category j = cat) -> rows_of cat g = g.
Proof.
  intros H. unfold rows_of. induction g as [|x g IH]; simpl; [reflexivity|].
  rewrite (H x (or_introl eq_refl)), String.eqb_refl, IH; [reflexivity|].
  intros j Hj. apply H. right. exact Hj.
Qed.

Lemma rows_of_none (cat : string) (g : DataFrame) :
  (forall j, In j g -> category j <> cat) -> rows_of cat g = [].
Proof.
  intros H. unfold rows_of. induction g as [|x g IH]; simpl; [reflexivity|].
  destruct (String.eqb_spec (category x) cat) as [E | Ne].
  - exfalso. apply (H x (or_introl eq_refl) E).
  - apply IH. intros j Hj. apply H. right. exact Hj.
Qed.

Lemma rows_of_In (cat : string) (rows : DataFrame) (j : Job) :
  In j (rows_of cat rows) <-> In j rows /\ category j = cat.
Proof. unfold rows_of. rewrite filter_In, String.eqb_eq. reflexivity. Qed.

(** The rows of one category in the concatenated groups are the group of
    that category. *)
Lemma rows_of_concat (df_dedup : DataFrame) (quotas : Series) (groups : list DataFrame)
  (cat : string) (q : Z) :
  NoDup (map fst quotas) ->
  Forall2 (fun p g => incl g (rows_of (fst p) df_dedup)
                      /\ Z.of_nat (length g) = Z.min (snd p) (cat_size df_dedup (fst p)))
          quotas groups ->
  In (cat, q) quotas ->
  Z.of_nat (length (rows_of cat (concat groups))) = Z.min q (cat_size df_dedup cat).
Proof.
  intros ND F. induction F as [|[c count] g quotas groups [Hg Hl] F IH]; intros Hin;
    simpl in *; [contradiction|].
  inversion ND as [|? ? Hc ND']; subst.
  unfold rows_of at 1. rewrite filter_app. fold (rows_of cat g).
  fold (rows_of cat (concat groups)). rewrite length_app.
  destruct Hin as [E | Hin].
  - inversion E; subst c count.
    rewrite rows_of_all by (intros j Hj; apply Hg, rows_of_In in Hj; tauto).
    rewrite rows_of_none; [simpl; lia|].
    intros j Hj Hcat. apply in_concat in Hj. destruct Hj as (g' & Hg' & Hj).
    destruct (Forall2_In_r _ _ _ _ F Hg') as ([c' q'] & Hp & Hinc & _). simpl in Hinc.
    apply Hinc, rows_of_In in Hj. destruct Hj as [_ Hj].
    apply Hc. apply in_map_iff. exists (c', q'). split; [simpl; congruence | exact Hp].
  - rewrite rows_of_none; [simpl; apply IH; assumption|].
    intros j Hj Hcat. apply Hg, rows_of_In in Hj. destruct Hj as [_ Hj].
    apply Hc. apply in_map_iff. exists (cat, q). split; [simpl; congruence | exact Hin].
Qed.

(** The sample, category by category: every row of the SampledSet is a
    row of the deduplicated frame, and for each category the sample holds
    as many rows of it as the smaller of its final quota and its number of
    rows in the deduplicated frame. *)
Theorem sample_category_counts (S : RowSampler) (fuel : nat) (df : DataFrame) (n M : Z)
  (result : DataFrame) :
  stratified_sample S fuel df n M = Ok result ->
  incl result (dedup df)
  /\ exists quotas,
       adjust_quotas fuel n (cat_samples0 (dedup df) n M) = Ok quotas
       /\ forall cat q, In (cat, q) quotas ->
            Z.of_nat (length (rows_of cat result)) = Z.min q (cat_size (dedup df) cat).
Proof.
  intros H. destruct (stratified_sample_Ok _ _ _ _ _ _ H) as (quotas & groups & Ea & Eg & ND & ->).
  pose proof (sample_groups_Ok _ _ _ _ Eg) as F. split.
  - intros j Hj. apply in_concat in Hj. destruct Hj as (g & Hg & Hj).
    destruct (Forall2_In_r _ _ _ _ F Hg) as (p & _ & _ & Hinc & _).
    apply Hinc, rows_of_In in Hj. tauto.
  - exists quotas. split; [exact Ea|]. intros cat q Hin.
    apply (rows_of_concat (dedup df) quotas groups cat q ND); [|exact Hin].
    eapply Forall2_impl; [|exact F]. simpl. tauto.
Qed.

Lemma sample_category_counts_witness :
  stratified_sample head_rows 10 ten_jobs 4 2
  = Ok [job_in "1" "1" "A"; job_in "2" "2" "A"; job_in "10" "10" "B"]
  /\ incl [job_in "1" "1" "A"; job_in "2" "2" "A"; job_in "10" "10" "B"] (dedup ten_jobs)
  /\ exists quotas,
       adjust_quotas 10 4 (cat_samples0 (dedup ten_jobs) 4 2) = Ok quotas
       /\ forall cat q, In (cat, q) quotas ->
            Z.of_nat (length (rows_of cat
                        [job_in "1" "1" "A"; job_in "2" "2" "A"; job_in "10" "10" "B"]))
            = Z.min q (cat_size (dedup ten_jobs) cat).
Proof.
  split; [reflexivity|].
  apply (sample_category_counts head_rows 10 ten_jobs 4 2). reflexivity.
Defined.

Lemma NoDup_map_injective {A B : Type} (f : A -> B) (l : list A) (a b : A) :
  NoDup (map f l) -> In a l -> In b l -> f a = f b -> a = b.
Proof.
  induction l as [|x l IH]; simpl; intros ND Ha Hb E; [contradiction|].
  inversion ND as [|? ? Hx ND']; subst.
  destruct Ha as [-> | Ha], Hb as [-> | Hb]; auto.
  - exfalso. apply Hx. rewrite E. apply in_map, Hb.
  - exfalso. apply Hx. rewrite <- E. apply in_map, Ha.
Qed.

Lemma NoDup_map_incl {A B : Type} (f : A -> B) (l l' : list A) :
  NoDup (map f l) -> NoDup l' -> incl l' l -> NoDup (map f l').
Proof.
  intros ND ND' Hinc. induction ND' as [|x l' Hx ND' IH]; simpl; constructor.
  - intros Hin. apply in_map_iff in Hin. destruct Hin as (y & E & Hy).
    apply Hx. rewrite <- (NoDup_map_injective f l y x ND); auto.
    + apply Hinc. right. exact Hy.
    + apply Hinc. left. reflexivity.
  - apply IH. intros y Hy. apply Hinc. right. exact Hy.
Qed.

Lemma groups_NoDup (df_dedup : DataFrame) (quotas : Series) (groups : list DataFrame) :
  NoDup (map fst quotas) ->
  Forall2 (fun p g => incl g (rows_of (fst p) df_dedup) /\ NoDup g) quotas groups ->
  NoDup (concat groups).
Proof.
  intros ND F. induction F as [|[c count] g quotas groups [Hg Hn] F IH]; simpl;
    [constructor|].
  inversion ND as [|? ? Hc ND']; subst. apply NoDup_app; [exact Hn | apply IH, ND'|].
  intros j Hj Hj'. apply in_concat in Hj'. destruct Hj' as (g' & Hg' & Hj').
  destruct (Forall2_In_r _ _ _ _ F Hg') as ([c' q'] & Hp & Hinc & _). simpl in *.
  apply Hinc, rows_of_In in Hj'. apply Hg, rows_of_In in Hj.
  apply Hc. apply in_map_iff. exists (c', q'). split; [simpl; destruct Hj, Hj'; congruence|].
  exact Hp.
Qed.

(** No duplicates in the SampledSet: when the draw is without
    replacement (it returns distinct rows when given distinct rows), no
    two rows of the sample share title, company and city. *)
Theorem sample_no_duplicate_keys (S : RowSampler) (fuel : nat) (df : DataFrame)
  (n M : Z) (result : DataFrame) :
  (forall rows k, NoDup rows -> NoDup (draw S rows k)) ->
  stratified_sample S fuel df n M = Ok result ->
  NoDup (map key_of result).
Proof.
  intros Hdraw H.
  destruct (stratified_sample_Ok _ _ _ _ _ _ H) as (quotas & groups & Ea & Eg & ND & ->).
  pose proof (sample_groups_Ok _ _ _ _ Eg) as F.
  assert (NDk : NoDup (map key_of (dedup df)))
    by (rewrite dedup_keys; apply drop_duplicates_from_NoDup).
  pose proof (NoDup_map_inv _ _ NDk) as NDd.
  apply (NoDup_map_incl key_of (dedup df)); [exact NDk| |].
  - apply (groups_NoDup (dedup df) quotas groups ND).
    eapply Forall2_impl; [|exact F]. simpl. intros p g (-> & Hinc & _).
    split; [exact Hinc|]. apply Hdraw. unfold rows_of. apply NoDup_filter, NDd.
  - intros j Hj. apply in_concat in Hj. destruct Hj as (g & Hg & Hj).
    destruct (Forall2_In_r _ _ _ _ F Hg) as (p & _ & _ & Hinc & _).
    apply Hinc, rows_of_In in Hj. tauto.
Qed.

Lemma head_rows_distinct (rows : DataFrame) (k : nat) :
  NoDup rows -> NoDup (draw head_rows rows k).
Proof. simpl. apply NoDup_firstn. Qed.

Lemma sample_no_duplicate_keys_witness :
  stratified_sample head_rows 10 ten_jobs 4 2
  = Ok [job_in "1" "1" "A"; job_in "2" "2" "A"; job_in "10" "10" "B"]
  /\ NoDup (map key_of [job_in "1" "1" "A"; job_in "2" "2" "A"; job_in "10" "10" "B"]).
Proof.
  split; [reflexivity|].
  apply (sample_no_duplicate_keys head_rows 10 ten_jobs 4 2 _ head_rows_distinct).
  reflexivity.
Defined.

(** ** A negative target size *)

Lemma negative_entry (s : Series) :
  (series_sum s < 0)%Z -> exists p, In p s /\ (snd p < 0)%Z.
Proof.
  unfold series_sum. induction s as [|p s IH]; simpl; intros H; [lia|].
  destruct (Z.lt_ge_cases (snd p) 0) as [L | G].
  - exists p. auto.
  - destruct IH as (q & Hq & Lq); [lia|]. exists q. auto.
Qed.

Lemma sample_groups_negative (S : RowSampler) (df_dedup : DataFrame) (quotas : Series) :
  (exists p, In p quotas /\ (snd p < 0)%Z) ->
  sample_groups S df_dedup quotas = Raise ValueError.
Proof.
  induction quotas as [|[cat count] quotas IH]; intros (p & Hp & Lp); simpl in *;
    [contradiction|].
  set (cat_df := filter (fun j => String.eqb (category j) cat) df_dedup).
  destruct (Z.lt_ge_cases count 0) as [L | G].
  - unfold sample_rows.
    destruct (Z.ltb_spec (Z.min count (Z.of_nat (length cat_df))) 0) as [L' | L'];
      [reflexivity | lia].
  - destruct (sample_rows_spec S cat_df count G) as (g & Eg & _). rewrite Eg. simpl.
    destruct Hp as [<- | Hp]; [simpl in Lp; lia|].
    rewrite IH; [reflexivity | eauto].
Qed.

(** A negative target size: on a non-empty deduplicated frame the
    adjustment loop brings the quota sum down to the negative [n], some
    quota ends below zero, and the draw for it raises [ValueError]. *)
Theorem negative_target_raises (S : RowSampler) (df : DataFrame) (n M : Z) :
  dedup df <> [] -> (n < 0)%Z ->
  exists fuel0, forall fuel, (fuel0 <= fuel)%nat ->
    stratified_sample S fuel df n M = Raise ValueError.
Proof.
  intros Hne Hn.
  exists (Z.to_nat (Z.abs (series_sum (cat_samples0 (dedup df) n M) - n))).
  intros fuel Hfuel.
  destruct (adjust_quotas_spec fuel n (cat_samples0 (dedup df) n M))
    as (quotas & E & Hsum & _); auto.
  - apply cat_samples0_nonempty, Hne.
  - apply cat_samples0_NoDup.
  - unfold stratified_sample. rewrite E. simpl.
    rewrite sample_groups_negative; [reflexivity|]. apply negative_entry. lia.
Qed.

Lemma negative_target_raises_witness :
  dedup one_job <> [] /\ (-1 < 0)%Z
  /\ exists fuel0, forall fuel, (fuel0 <= fuel)%nat ->
       stratified_sample head_rows fuel one_job (-1) 5 = Raise ValueError.
Proof.
  split; [discriminate|]. split; [lia|].
  apply (negative_target_raises head_rows one_job (-1) 5); [discriminate | lia].
Defined.

(** ** The minimum per category *)

Lemma series_sum_le (v : Z) (s : Series) :
  (forall p, In p s -> (snd p <= v)%Z) -> (series_sum s <= Z.of_nat (length s) * v)%Z.
Proof.
  unfold series_sum. induction s as [|p s IH]; simpl length; simpl map; simpl fold_right;
    intros H; [lia|].
  specialize (H p (or_introl eq_refl)) as Hp.
  assert (fold_right Z.add 0 (map snd s) <= Z.of_nat (length s) * v)%Z
    by (apply IH; intros q Hq; apply H; right; exact Hq).
  lia.
Qed.

Lemma series_sum_ge (v : Z) (s : Series) :
  Forall (fun p => (v <= snd p)%Z) s -> (Z.of_nat (length s) * v <= series_sum s)%Z.
Proof.
  unfold series_sum. induction 1 as [|p s Hp _ IH]; simpl length; simpl map;
    simpl fold_right; lia.
Qed.

Lemma series_add_floor (label : string) (d v M : Z) (s : Series) :
  NoDup (map fst s) -> In (label, v) s -> (M <= v + d)%Z ->
  Forall (fun p => (M <= snd p)%Z) s ->
  Forall (fun p => (M <= snd p)%Z) (series_add label d s).
Proof.
  intros ND Hin Hv Hs. unfold series_add. rewrite Forall_forall in *.
  intros q Hq. apply in_map_iff in Hq. destruct Hq as ([k w] & <- & Hp). simpl.
  destruct (String.eqb_spec k label) as [-> | Ne]; simpl.
  - rewrite (unique_key label w v s ND Hp Hin). exact Hv.
  - apply (Hs _ Hp).
Qed.

Lemma series_add_length (label : string) (d : Z) (s : Series) :
  length (series_add label d s) = length s.
Proof. apply length_map. Qed.

(** The shrinking loop never takes a quota below the minimum as long as
    the minima of all categories fit into [n]. *)
Lemma shrink_quotas_floor (fuel : nat) (n M : Z) (s s' : Series) :
  shrink_quotas fuel n s = Ok s' -> NoDup (map fst s) ->
  (Z.of_nat (length s) * M <= n)%Z ->
  Forall (fun p => (M <= snd p)%Z) s -> Forall (fun p => (M <= snd p)%Z) s'.
Proof.
  revert s. induction fuel as [|fuel IH]; intros s; rewrite shrink_quotas_eq;
    destruct (Z.ltb_spec n (series_sum s)) as [L | L];
    try (intros H; inversion H; subst; auto; fail).
  - destruct (idxmax s); simpl; discriminate.
  - intros H ND Hfit Hfloor.
    destruct (idxmax s) as [largest| |] eqn:E; simpl in H; try discriminate.
    assert (Hne : s <> []) by (intros ->; discriminate E).
    destruct (idxmax_Ok s Hne) as (largest' & v & E' & Hin & Hmax).
    rewrite E in E'. inversion E'; subst largest'.
    apply (IH _ H).
    + rewrite series_add_keys. exact ND.
    + rewrite series_add_length. exact Hfit.
    + apply (series_add_floor largest (-1) v); auto.
      pose proof (series_sum_le v s Hmax).
      destruct (Z.le_gt_cases v M) as [Hv | Hv]; [|lia]. nia.
Qed.

Lemma grow_quotas_floor (fuel : nat) (n M : Z) (s s' : Series) :
  grow_quotas fuel n s = Ok s' -> NoDup (map fst s) ->
  Forall (fun p => (M <= snd p)%Z) s -> Forall (fun p => (M <= snd p)%Z) s'.
Proof.
  revert s. induction fuel as [|fuel IH]; intros s; rewrite grow_quotas_eq;
    destruct (Z.ltb_spec (series_sum s) n) as [L | L];
    try (intros H; inversion H; subst; auto; fail).
  - destruct (idxmax s); simpl; discriminate.
  - intros H ND Hfloor.
    destruct (idxmax s) as [largest| |] eqn:E; simpl in H; try discriminate.
    assert (Hne : s <> []) by (intros ->; discriminate E).
    destruct (idxmax_Ok s Hne) as (largest' & v & E' & Hin & Hmax).
    rewrite E in E'. inversion E'; subst largest'.
    apply (IH _ H).
    + rewrite series_add_keys. exact ND.
    + apply (series_add_floor largest 1 v); auto.
      rewrite Forall_forall in Hfloor. specialize (Hfloor _ Hin). simpl in Hfloor. lia.
Qed.

Lemma cat_samples0_floor (df_dedup : DataFrame) (n M : Z) :
  Forall (fun p => (M <= snd p)%Z) (cat_samples0 df_dedup n M).
Proof.
  unfold cat_samples0, initial_quotas. rewrite Forall_forall. intros p Hp.
  apply in_map_iff in Hp. destruct Hp as (x & <- & _). simpl. lia.
Qed.

Lemma cat_samples0_length (df_dedup : DataFrame) (n M : Z) :
  length (cat_samples0 df_dedup n M) = length (uniq (map category df_dedup)).
Proof.
  rewrite <- (length_map fst), cat_samples0_keys.
  apply Permutation_length, value_counts_keys.
Qed.

Lemma adjusted_quotas_floor (fuel : nat) (df_dedup : DataFrame) (n M : Z) (quotas : Series) :
  adjust_quotas fuel n (cat_samples0 df_dedup n M) = Ok quotas ->
  (Z.of_nat (length (uniq (map category df_dedup))) * M <= n)%Z ->
  Forall (fun p => (M <= snd p)%Z) quotas.
Proof.
  unfold adjust_quotas.
  destruct (shrink_quotas fuel n (cat_samples0 df_dedup n M)) as [s1| |] eqn:E1; simpl;
    try discriminate.
  intros E2 Hfit. apply (grow_quotas_floor _ _ _ _ _ E2).
  - rewrite (shrink_quotas_keys _ _ _ _ E1). apply cat_samples0_NoDup.
  - apply (shrink_quotas_floor _ _ _ _ _ E1).
    + apply cat_samples0_NoDup.
    + rewrite cat_samples0_length. exact Hfit.
    + apply cat_samples0_floor.
Qed.

(** The minimum per category and the target: when the minima of all
    categories fit into [n] (categories times [min_per_group] is at most
    [n]), the adjustment ends with every quota at or above
    [min_per_group]; when they do not fit, some quota ends below it. *)
Theorem minimum_quota_kept (df : DataFrame) (n M : Z) :
  dedup df <> [] ->
  exists fuel0, forall fuel, (fuel0 <= fuel)%nat ->
    exists quotas,
      adjust_quotas fuel n (cat_samples0 (dedup df) n M) = Ok quotas
      /\ ((Z.of_nat (length (uniq (map category (dedup df)))) * M <= n)%Z ->
          Forall (fun p => (M <= snd p)%Z) quotas)
      /\ ((n < Z.of_nat (length (uniq (map category (dedup df)))) * M)%Z ->
          exists p, In p quotas /\ (snd p < M)%Z).
Proof.
  intros Hne.
  exists (Z.to_nat (Z.abs (series_sum (cat_samples0 (dedup df) n M) - n))).
  intros fuel Hfuel.
  destruct (adjust_quotas_spec fuel n (cat_samples0 (dedup df) n M))
    as (quotas & E & Hsum & Hkeys & _); auto.
  - apply cat_samples0_nonempty, Hne.
  - apply cat_samples0_NoDup.
  - exists quotas. split; [exact E|]. split.
    + apply (adjusted_quotas_floor _ _ _ _ _ E).
    + intros Hbig.
      assert (Hlen : length quotas = length (uniq (map category (dedup df)))).
      { rewrite <- (length_map fst quotas), Hkeys, length_map. apply cat_samples0_length. }
      destruct (Forall_Exists_dec (fun p : string * Z => (M <= snd p)%Z)
                  (fun p => Z_le_dec M (snd p)) quotas) as [F | Ex].
      * apply series_sum_ge in F. rewrite Hlen in F. lia.
      * apply Exists_exists in Ex. destruct Ex as (p & Hp & Hlt). exists p. split; [exact Hp|lia].
Qed.

Lemma minimum_quota_kept_witness :
  dedup ten_jobs <> []
  /\ exists fuel0, forall fuel, (fuel0 <= fuel)%nat ->
    exists quotas,
      adjust_quotas fuel 4 (cat_samples0 (dedup ten_jobs) 4 2) = Ok quotas
      /\ ((Z.of_nat (length (uniq (map category (dedup ten_jobs)))) * 2 <= 4)%Z ->
          Forall (fun p => (2 <= snd p)%Z) quotas)
      /\ ((4 < Z.of_nat (length (uniq (map category (dedup ten_jobs)))) * 2)%Z ->
          exists p, In p quotas /\ (snd p < 2)%Z).
Proof.
  split; [discriminate|].
  apply (minimum_quota_kept ten_jobs 4 2). discriminate.
Defined.

(** Category coverage: when the minima fit into a target [n >= 0], the
    sampler returns a SampledSet in which every category of the
    deduplicated frame has at least [min_per_group] rows, or all of its
    rows when it has fewer. *)
Theorem category_coverage (S : RowSampler) (df : DataFrame) (n M : Z) :
  dedup df <> [] -> (0 <= n)%Z ->
  (Z.of_nat (length (uniq (map category (dedup df)))) * M <= n)%Z ->
  exists fuel0, forall fuel, (fuel0 <= fuel)%nat ->
    exists result, stratified_sample S fuel df n M = Ok result
      /\ forall cat, In cat (map category (dedup df)) ->
           (Z.min M (cat_size (dedup df) cat)
            <= Z.of_nat (length (rows_of cat result)))%Z.
Proof.
  intros Hne Hn Hfit.
  exists (Z.to_nat (Z.abs (series_sum (cat_samples0 (dedup df) n M) - n))).
  intros fuel Hfuel.
  destruct (adjust_quotas_spec fuel n (cat_samples0 (dedup df) n M))
    as (quotas & E & Hsum & Hkeys & Hnn); auto.
  - apply cat_samples0_nonempty, Hne.
  - apply cat_samples0_NoDup.
  - assert (Hq : quotas <> []).
    { intros ->. apply (cat_samples0_nonempty (dedup df) n M Hne).
      destruct (cat_samples0 (dedup df) n M); [reflexivity | discriminate Hkeys]. }
    specialize (Hnn Hn (cat_samples0_nonneg _ _ _ Hn)).
    destruct (stratified_sample_spec S fuel df n M quotas E Hq Hnn) as (result & Er & _).
    exists result. split; [exact Er|]. intros cat Hcat.
    destruct (stratified_sample_Ok _ _ _ _ _ _ Er) as (quotas' & groups & Ea & Eg & ND & ->).
    rewrite E in Ea. inversion Ea; subst quotas'.
    assert (Hk : In cat (map fst quotas)).
    { rewrite Hkeys, cat_samples0_keys.
      apply (Permutation_in _ (Permutation_sym (value_counts_keys _))), uniq_In, Hcat. }
    apply in_map_iff in Hk. destruct Hk as ([c q] & Hc & Hin). simpl in Hc. subst c.
    rewrite (rows_of_concat (dedup df) quotas groups cat q ND); [|  | exact Hin].
    + pose proof (adjusted_quotas_floor _ _ _ _ _ E Hfit) as Hfl.
      rewrite Forall_forall in Hfl. specialize (Hfl _ Hin). simpl in Hfl. lia.
    + eapply Forall2_impl; [|exact (sample_groups_Ok _ _ _ _ Eg)]. simpl. tauto.
Qed.

Lemma category_coverage_witness :
  dedup ten_jobs <> [] /\ (0 <= 4)%Z
  /\ (Z.of_nat (length (uniq (map category (dedup ten_jobs)))) * 2 <= 4)%Z
  /\ exists fuel0, forall fuel, (fuel0 <= fuel)%nat ->
    exists result, stratified_sample head_rows fuel ten_jobs 4 2 = Ok result
      /\ forall cat, In cat (map category (dedup ten_jobs)) ->
           (Z.min 2 (cat_size (dedup ten_jobs) cat)
            <= Z.of_nat (length (rows_of cat result)))%Z.
Proof.
  split; [discriminate|]. split; [lia|]. split; [simpl; lia|].
  apply (category_coverage head_rows ten_jobs 4 2); [discriminate | lia | simpl; lia].
Defined.

(** ** Text normalization *)

Example preprocess_text_example :
  preprocess_text "  Sr. Software-Engineer (C++/Go), NYC  " = "sr software engineer c go nyc".
Proof. reflexivity. Qed.

Ltac each_char c := destruct c as [[] [] [] [] [] [] [] []].

Lemma space_is_space : is_space " "%char = true.
Proof. reflexivity. Qed.

(** After lowering and the replacement a character is a lower-case
    letter, a digit or whitespace. *)
Lemma keep_lower_class (c : ascii) :
  let c' := keep_char (lower_char c) in
  is_lower c' || is_digit c' = true \/ is_space c' = true.
Proof. each_char c; vm_compute; auto. Qed.

(** A lower-case letter, a digit or a space is left as it is. *)
Lemma keep_lower_fixed (c : ascii) :
  is_lower c || is_digit c = true \/ c = " "%char -> keep_char (lower_char c) = c.
Proof.
  intros [H | ->]; [|reflexivity]. revert H. each_char c; vm_compute; congruence.
Qed.

Lemma alnum_not_space (c : ascii) : is_lower c || is_digit c = true -> is_space c = false.
Proof. each_char c; vm_compute; congruence. Qed.

Lemma collapse_ws_In (l : list ascii) (c : ascii) :
  In c (collapse_ws l) -> c = " "%char \/ (In c l /\ is_space c = false).
Proof.
  induction l as [|x r IH]; simpl; [contradiction|].
  destruct (is_space x) eqn:Ex.
  - destruct r as [|y r']; [intros [<- | []]; auto|].
    destruct (is_space y) eqn:Ey.
    + intros H. destruct (IH H) as [-> | [Hin Hs]]; auto.
    + intros [<- | H]; [auto|]. destruct (IH H) as [-> | [Hin Hs]]; auto.
  - intros [<- | H]; [auto|]. destruct (IH H) as [-> | [Hin Hs]]; auto.
Qed.

Lemma collapse_ws_head (l : list ascii) :
  match collapse_ws l with
  | [] => True
  | c :: _ => c = " "%char \/ is_space c = false
  end.
Proof.
  induction l as [|x r IH]; simpl; [exact I|].
  destruct (is_space x) eqn:Ex; [|right; exact Ex].
  destruct r as [|y r']; [left; reflexivity|].
  destruct (is_space y) eqn:Ey; [exact IH | left; reflexivity].
Qed.

Lemma collapse_ws_single (l : list ascii) : single_spaced (collapse_ws l).
Proof.
  induction l as [|x r IH]; simpl; [exact I|].
  destruct (is_space x) eqn:Ex.
  - destruct r as [|y r']; [simpl; auto|].
    destruct (is_space y) eqn:Ey; [exact IH|].
    split; [|exact IH]. intros _. split; [reflexivity|].
    simpl. rewrite Ey. exact Ey.
  - split; [congruence | exact IH].
Qed.

Lemma collapse_ws_fixed (l : list ascii) : single_spaced l -> collapse_ws l = l.
Proof.
  induction l as [|x r IH]; simpl; [reflexivity|]. intros [Hx Hr].
  rewrite (IH Hr). destruct (is_space x) eqn:Ex; [|reflexivity].
  destruct (Hx eq_refl) as [-> Hn]. destruct r as [|y r']; [reflexivity|].
  rewrite Hn. reflexivity.
Qed.

Lemma single_spaced_tail (x : ascii) (r : list ascii) :
  single_spaced (x :: r) -> single_spaced r.
Proof. simpl. tauto. Qed.

Lemma lstrip_single (l : list ascii) : single_spaced l -> single_spaced (lstrip l).
Proof.
  induction l as [|x r IH]; [auto|]. intros H. simpl lstrip.
  destruct (is_space x) eqn:Ex; [apply IH, (single_spaced_tail _ _ H) | exact H].
Qed.

Lemma lstrip_In (l : list ascii) (c : ascii) : In c (lstrip l) -> In c l.
Proof.
  induction l as [|x r IH]; simpl; [auto|].
  destruct (is_space x); [intros H; right; apply IH, H | auto].
Qed.

Lemma lstrip_head (l : list ascii) :
  match lstrip l with [] => True | c :: _ => is_space c = false end.
Proof.
  induction l as [|x r IH]; simpl; [exact I|].
  destruct (is_space x) eqn:Ex; [exact IH | exact Ex].
Qed.

Lemma rstrip_cons (x : ascii) (r : list ascii) :
  is_space x = false -> rstrip (x :: r) = x :: rstrip r.
Proof. intros H. simpl. rewrite H. destruct (rstrip r); reflexivity. Qed.

Lemma rstrip_In (l : list ascii) (c : ascii) : In c (rstrip l) -> In c l.
Proof.
  induction l as [|x r IH]; simpl; [auto|].
  destruct (rstrip r) as [|y r'] eqn:E.
  - destruct (is_space x); [contradiction | intros [<- | []]; auto].
  - intros [<- | H]; [auto | right; apply IH, H].
Qed.

Lemma rstrip_head (l r' : list ascii) (y : ascii) :
  rstrip l = y :: r' -> exists r0, l = y :: r0.
Proof.
  destruct l as [|x r]; simpl; [discriminate|].
  destruct (rstrip r); [destruct (is_space x); [discriminate|]|];
    intros H; inversion H; eauto.
Qed.

Lemma rstrip_single (l : list ascii) : single_spaced l -> single_spaced (rstrip l).
Proof.
  induction l as [|x r IH]; [auto|]. intros [Hx Hr]. specialize (IH Hr).
  simpl. destruct (rstrip r) as [|y r'] eqn:E.
  - destruct (is_space x) eqn:Ex; simpl; [exact I|]. split; [congruence | exact I].
  - split; [|exact IH]. intros Hs. destruct (Hx Hs) as [-> Hn]. split; [reflexivity|].
    destruct (rstrip_head _ _ _ E) as [r0 ->]. exact Hn.
Qed.

Lemma rstrip_last (l : list ascii) (d : ascii) :
  match rstrip l with [] => True | _ :: _ => is_space (last (rstrip l) d) = false end.
Proof.
  induction l as [|x r IH]; simpl; [exact I|].
  destruct (rstrip r) as [|y r'] eqn:E.
  - destruct (is_space x) eqn:Ex; simpl; [exact I | exact Ex].
  - exact IH.
Qed.

Lemma rstrip_fixed (l : list ascii) (d : ascii) :
  l <> [] -> is_space (last l d) = false -> rstrip l = l.
Proof.
  induction l as [|x r IH]; [congruence|]. intros _ H. destruct r as [|y r'].
  - simpl in *. rewrite H. reflexivity.
  - assert (H' : is_space (last (y :: r') d) = false) by exact H.
    specialize (IH ltac:(discriminate) H').
    change (rstrip (x :: y :: r'))
      with (match rstrip (y :: r') with
            | [] => if is_space x then [] else [x]
            | a :: l0 => x :: a :: l0
            end).
    rewrite IH. reflexivity.
Qed.

Lemma last_change_default (l : list ascii) (d d' : ascii) :
  l <> [] -> last l d = last l d'.
Proof.
  induction l as [|x r IH]; [congruence|]. intros _.
  destruct r as [|y r']; [reflexivity|]. apply IH. discriminate.
Qed.

(** Stripping a text whose whitespace is single spaces leaves it trimmed
    and single-spaced; such a text is a fixed point of the collapse and of
    the strip. *)
Lemma strip_trimmed (l : list ascii) : trimmed (strip l).
Proof.
  unfold strip, trimmed. pose proof (lstrip_head l) as Hh.
  destruct (lstrip l) as [|x r] eqn:E; [exact I|].
  rewrite (rstrip_cons x r Hh). split; [exact Hh|].
  pose proof (rstrip_last (x :: r) x) as Hl. rewrite (rstrip_cons x r Hh) in Hl. exact Hl.
Qed.

Lemma strip_fixed (l : list ascii) : trimmed l -> strip l = l.
Proof.
  unfold strip, trimmed. destruct l as [|x r]; [reflexivity|]. intros [Hh Hl].
  simpl lstrip. rewrite Hh. apply (rstrip_fixed _ x); [discriminate | exact Hl].
Qed.

Lemma preprocess_text_eq (text : string) :
  preprocess_text text
  = string_of_list_ascii (preprocess_chars (list_ascii_of_string text)).
Proof. destruct text; reflexivity. Qed.

Lemma preprocess_chars_class (l : list ascii) (c : ascii) :
  In c (preprocess_chars l) -> is_lower c || is_digit c = true \/ c = " "%char.
Proof.
  unfold preprocess_chars, strip. intros H.
  apply rstrip_In, lstrip_In, collapse_ws_In in H.
  destruct H as [-> | [H Hs]]; [right; reflexivity|].
  rewrite map_map in H. apply in_map_iff in H. destruct H as (c0 & <- & _).
  destruct (keep_lower_class c0) as [K | K]; [left; exact K | congruence].
Qed.

Lemma preprocess_chars_single (l : list ascii) : single_spaced (preprocess_chars l).
Proof. apply rstrip_single, lstrip_single, collapse_ws_single. Qed.

Lemma preprocess_chars_idempotent (l : list ascii) :
  preprocess_chars (preprocess_chars l) = preprocess_chars l.
Proof.
  set (out := preprocess_chars l).
  assert (Hmap : map keep_char (map lower_char out) = out).
  { rewrite map_map. rewrite <- (map_id out) at 2. apply map_ext_in.
    intros c Hc. apply keep_lower_fixed, (preprocess_chars_class l), Hc. }
  unfold preprocess_chars at 1. rewrite Hmap.
  rewrite (collapse_ws_fixed out (preprocess_chars_single l)).
  apply strip_fixed. apply strip_trimmed.
Qed.

(** The text that [preprocess_text] returns holds only lower-case
    letters, digits and spaces, with no space at either end and no two
    spaces in a row. *)
Theorem preprocess_text_shape (text : string) :
  let out := list_ascii_of_string (preprocess_text text) in
  Forall (fun c => is_lower c || is_digit c = true \/ c = " "%char) out
  /\ single_spaced out /\ trimmed out.
Proof.
  simpl. rewrite preprocess_text_eq, list_ascii_of_string_of_list_ascii.
  split; [|split].
  - apply Forall_forall. intros c. apply preprocess_chars_class.
  - apply preprocess_chars_single.
  - apply strip_trimmed.
Qed.

(** [preprocess_text] is idempotent: a text that went through it comes
    back unchanged. *)
Theorem preprocess_text_idempotent (text : string) :
  preprocess_text (preprocess_text text) = preprocess_text text.
Proof.
  rewrite !preprocess_text_eq, list_ascii_of_string_of_list_ascii,
    preprocess_chars_idempotent. reflexivity.
Qed.

(** ** Feed parsing *)

Example parse_feed_example :
  map (fun j => (id j, title j, remote j, city j)) (parse_feed None three_elements)
  = [("A1", "Engineer", true, ""); ("A3", "Nurse", false, "")]
  /\ map id (parse_feed (Some 1%Z) three_elements) = ["A1"].
Proof. split; reflexivity. Qed.

Lemma parse_loop_unlimited (max_jobs : option Z) (elems : list Element) (jobs : list Job) :
  max_jobs = None \/ max_jobs = Some 0%Z ->
  parse_loop max_jobs elems jobs
  = jobs ++ filter valid_job (map job_of_element elems).
Proof.
  intros Hm. revert jobs. induction elems as [|elem rest IH]; intros jobs; simpl.
  - rewrite app_nil_r. reflexivity.
  - assert (L : forall js, limit_reached max_jobs js = false)
      by (intros js; destruct Hm as [-> | ->]; reflexivity).
    rewrite L, IH. destruct (valid_job (job_of_element elem)); [|reflexivity].
    rewrite <- app_assoc. reflexivity.
Qed.

Lemma parse_loop_limited (k : Z) (elems : list Element) (jobs : list Job) :
  (Z.of_nat (length jobs) < k)%Z ->
  parse_loop (Some k) elems jobs
  = jobs ++ firstn (Z.to_nat k - length jobs) (filter valid_job (map job_of_element elems)).
Proof.
  revert jobs. induction elems as [|elem rest IH]; intros jobs Hk; simpl.
  - rewrite firstn_nil, app_nil_r. reflexivity.
  - destruct (Z.eqb_spec k 0) as [-> | Hz]; [lia|]. simpl.
    destruct (valid_job (job_of_element elem)).
    + rewrite length_app. simpl length.
      destruct (Z.leb_spec k (Z.of_nat (length jobs + 1))) as [L | L].
      * replace (Z.to_nat k - length jobs)%nat with 1%nat by lia. simpl. reflexivity.
      * rewrite IH by (rewrite length_app; simpl; lia). rewrite length_app. simpl length.
        rewrite <- app_assoc. simpl.
        replace (Z.to_nat k - length jobs)%nat
          with (S (Z.to_nat k - (length jobs + 1)))%nat by lia.
        reflexivity.
    + destruct (Z.leb_spec k (Z.of_nat (length jobs))) as [L | L]; [lia|].
      apply IH, Hk.
Qed.

Lemma field_trimmed (elem : Element) (tag : string) :
  trimmed (list_ascii_of_string (field elem tag)).
Proof.
  unfold field. destruct (dict_get tag elem); [|exact I].
  rewrite list_ascii_of_string_of_list_ascii. apply strip_trimmed.
Qed.

Lemma nonempty_iff (s : string) : nonempty s = true <-> s <> "".
Proof. destruct s; simpl; split; congruence. Qed.

(** [parse_feed]: without a limit ([max_jobs] is [None] or 0) it returns
    the jobs of all elements that have an id, a title and a description,
    in feed order; with a limit [k > 0] it returns the first [k] of them;
    every job it returns has a non-empty id, title and description, and
    its id, title and city carry no whitespace at either end. *)
Theorem parse_feed_spec (elems : list Element) :
  parse_feed None elems = filter valid_job (map job_of_element elems)
  /\ parse_feed (Some 0%Z) elems = parse_feed None elems
  /\ (forall k, (0 < k)%Z ->
        parse_feed (Some k) elems = firstn (Z.to_nat k) (parse_feed None elems)
        /\ (Z.of_nat (length (parse_feed (Some k) elems)) <= k)%Z)
  /\ (forall max_jobs job, In job (parse_feed max_jobs elems) ->
        id job <> "" /\ title job <> "" /\ description job <> ""
        /\ trimmed (list_ascii_of_string (id job))
        /\ trimmed (list_ascii_of_string (title job))
        /\ trimmed (list_ascii_of_string (city job))).
Proof.
  assert (N : parse_feed None elems = filter valid_job (map job_of_element elems)).
  { unfold parse_feed. rewrite parse_loop_unlimited by auto. reflexivity. }
  assert (Z0 : parse_feed (Some 0%Z) elems = parse_feed None elems).
  { unfold parse_feed. rewrite !parse_loop_unlimited by auto. reflexivity. }
  assert (K : forall k, (0 < k)%Z ->
                parse_feed (Some k) elems = firstn (Z.to_nat k) (parse_feed None elems)).
  { intros k Hk. rewrite N. unfold parse_feed. rewrite parse_loop_limited by (simpl; lia).
    simpl. rewrite Nat.sub_0_r. reflexivity. }
  split; [exact N|]. split; [exact Z0|]. split.
  - intros k Hk. split; [apply K, Hk|]. rewrite (K k Hk), length_firstn. lia.
  - intros max_jobs job Hin.
    assert (Hall : In job (parse_feed None elems)).
    { destruct max_jobs as [k|]; [|exact Hin].
      destruct (Z.eqb_spec k 0) as [-> | Hz]; [rewrite Z0 in Hin; exact Hin|].
      destruct (Z.lt_ge_cases 0 k) as [Hk | Hk].
      - rewrite (K k Hk) in Hin. apply In_firstn in Hin. exact Hin.
      - unfold parse_feed in *. destruct elems as [|elem rest]; [contradiction|].
        simpl in Hin. rewrite N. simpl.
        destruct (valid_job (job_of_element elem)) eqn:V.
        + destruct (Z.eqb_spec k 0); [contradiction|]. simpl in Hin.
          destruct (Z.leb_spec k 1); [|lia]. destruct Hin as [<- | []]. left. reflexivity.
        + destruct (Z.eqb_spec k 0); [contradiction|]. simpl in Hin.
          destruct (Z.leb_spec k 0); [contradiction | lia]. }
    rewrite N in Hall. apply filter_In in Hall. destruct Hall as [Hmap V].
    apply in_map_iff in Hmap. destruct Hmap as (elem & <- & _).
    unfold valid_job in V. apply andb_true_iff in V. destruct V as [V Vd].
    apply andb_true_iff in V. destruct V as [Vi Vt].
    repeat split; try (apply nonempty_iff; assumption); apply field_trimmed.
Qed.

Lemma parse_feed_spec_witness :
  (0 < 1)%Z
  /\ parse_feed (Some 1%Z) three_elements = firstn (Z.to_nat 1) (parse_feed None three_elements)
  /\ (Z.of_nat (length (parse_feed (Some 1%Z) three_elements)) <= 1)%Z.
Proof.
  split; [lia|].
  apply (proj1 (proj2 (proj2 (parse_feed_spec three_elements))) 1%Z). lia.
Defined.

(** ** HTML to text *)

Example clean_html_example :
  clean_html "<p>Build &amp; ship</p>  <ul><li>APIs</li><li>a < b</li></ul>"
  = "Build ship APIs a".
Proof. reflexivity. Qed.

Example clean_html_leftovers :
  clean_html "<>x &;y <b" = "<>x &;y <b".
Proof. reflexivity. Qed.

Lemma span_of_spec (p : ascii -> bool) (l a b : list ascii) :
  span_of p l = (a, b) ->
  l = a ++ b /\ Forall (fun c => p c = true) a
  /\ match b with [] => True | c :: _ => p c = false end.
Proof.
  revert a b. induction l as [|c r IH]; intros a b; simpl.
  - intros H. inversion H. repeat split. constructor.
  - destruct (p c) eqn:E.
    + destruct (span_of p r) as [a' b'] eqn:Es. intros H. inversion H; subst.
      destruct (IH a' b eq_refl) as (-> & Fa & Hb). repeat split; auto.
    + intros H. inversion H; subst. repeat split; auto.
Qed.

Lemma sub_bracketed_In (o c : ascii) (inside : ascii -> bool) (fuel : nat)
  (l : list ascii) (x : ascii) :
  In x (sub_bracketed o c inside fuel l) -> x = " "%char \/ In x l.
Proof.
  revert l. induction fuel as [|fuel IH]; intros l; simpl; [auto|].
  destruct l as [|y r]; [auto|].
  assert (Hkeep : In x (y :: sub_bracketed o c inside fuel r) -> x = " "%char \/ In x (y :: r)).
  { intros [<- | H]; [right; left; reflexivity|].
    destruct (IH _ H); [left | right; right]; assumption. }
  destruct (Ascii.eqb y o); [|exact Hkeep].
  destruct (span_of inside r) as [a b] eqn:Es.
  destruct a as [|a0 a]; [exact Hkeep|]. destruct b as [|c' rest]; [exact Hkeep|].
  destruct (Ascii.eqb c' c); [|exact Hkeep].
  intros [<- | H]; [left; reflexivity|].
  destruct (IH _ H) as [-> | Hin]; [left; reflexivity|]. right. right.
  destruct (span_of_spec _ _ _ _ Es) as (-> & _). apply in_or_app. right. right. exact Hin.
Qed.

Lemma sub_bracketed_other (o c : ascii) (inside : ascii -> bool) (fuel : nat)
  (y : ascii) (r : list ascii) :
  Ascii.eqb y o = false ->
  sub_bracketed o c inside (S fuel) (y :: r) = y :: sub_bracketed o c inside fuel r.
Proof. intros H. simpl. rewrite H. reflexivity. Qed.

Lemma tag_free_suffix (a b : list ascii) : tag_free (a ++ b) -> tag_free b.
Proof. induction a as [|x a IH]; simpl; [auto | intros [_ H]; apply IH, H]. Qed.

Lemma no_tag_ahead_prefix (a b : list ascii) : no_tag_ahead (a ++ b) -> no_tag_ahead a.
Proof.
  destruct a as [|x a]; simpl; [auto|]. intros [H | H]; [left; exact H | right].
  intros [E | Hin]; apply H; [left; exact E | right; apply in_or_app; left; exact Hin].
Qed.

Lemma tag_free_prefix (a b : list ascii) : tag_free (a ++ b) -> tag_free a.
Proof.
  induction a as [|x a IH]; simpl; [auto|]. intros [Hx H]. split; [|apply IH, H].
  intros E. apply (no_tag_ahead_prefix a b), Hx, E.
Qed.

(** A [<] that opened no tag opens none after a rewriting that brings in
    no new [>] and leaves a [>] at the front in its place. *)
Lemma no_tag_ahead_transfer (r t : list ascii) :
  no_tag_ahead r ->
  (forall x, In x t -> x = " "%char \/ In x r) ->
  (forall r', r = ">"%char :: r' -> exists t', t = ">"%char :: t') ->
  no_tag_ahead t.
Proof.
  intros Hr Hin Hhead. destruct t as [|y t]; [exact I|]. simpl.
  destruct r as [|x r].
  - right. intros C. destruct (Hin _ C) as [E | []]. discriminate E.
  - destruct Hr as [-> | Hr].
    + destruct (Hhead r eq_refl) as [t' E]. inversion E. left. reflexivity.
    + right. intros C. destruct (Hin _ C) as [E | H]; [discriminate E | exact (Hr H)].
Qed.

Lemma sub_tags_free (fuel : nat) (l : list ascii) :
  (length l <= fuel)%nat ->
  tag_free (sub_bracketed "<" ">" (fun c => negb (Ascii.eqb c ">")) fuel l).
Proof.
  revert l. induction fuel as [|fuel IH]; intros l Hf.
  - destruct l; [exact I | simpl in Hf; lia].
  - destruct l as [|y r]; [exact I|]. simpl in Hf.
    assert (Hkeep : tag_free (y :: sub_bracketed "<" ">" (fun c => negb (Ascii.eqb c ">")) fuel r)
                    \/ exists a0 a rest,
                         y = "<"%char
                         /\ span_of (fun c => negb (Ascii.eqb c ">")) r
                            = (a0 :: a, ">"%char :: rest)).
    { destruct (Ascii.eqb_spec y "<") as [-> | Ne].
      - destruct (span_of (fun c => negb (Ascii.eqb c ">")) r) as [a b] eqn:Es.
        destruct (span_of_spec _ _ _ _ Es) as (Er & Fa & Hb).
        destruct a as [|a0 a].
        + left. split; [|apply IH; lia]. intros _.
          simpl in Er. subst b. destruct r as [|c' r']; [destruct fuel; exact I|].
          destruct (Ascii.eqb_spec c' ">") as [-> | Ne']; [|simpl in Hb; destruct (Ascii.eqb_spec c' ">"); [contradiction | discriminate]].
          destruct fuel as [|fuel']; [simpl in Hf; lia|].
          rewrite sub_bracketed_other by reflexivity. left. reflexivity.
        + destruct b as [|c' rest].
          * left. split; [|apply IH; lia]. intros _.
            eapply no_tag_ahead_transfer with (r := r).
            -- destruct r as [|x r']; [exact I|]. right. rewrite Er, app_nil_r.
               intros C. rewrite Forall_forall in Fa. specialize (Fa _ C). discriminate Fa.
            -- intros x. apply sub_bracketed_In.
            -- intros r' E. exfalso. rewrite Er, app_nil_r in E. inversion E; subst.
               inversion Fa as [|? ? H0 _]; subst. discriminate H0.
          * right. exists a0, a, rest. split; [reflexivity|].
            destruct (Ascii.eqb_spec c' ">") as [-> | Ne']; [reflexivity|].
            simpl in Hb. destruct (Ascii.eqb_spec c' ">"); [contradiction | discriminate].
      - left. split; [intros E; contradiction | apply IH; lia]. }
    destruct Hkeep as [H | (a0 & a & rest & -> & Es)].
    + simpl. destruct (Ascii.eqb y "<"); [|exact H].
      destruct (span_of (fun c => negb (Ascii.eqb c ">")) r) as [[|a0 a] [|c' rest]] eqn:Es;
        try exact H.
      destruct (Ascii.eqb c' ">"); [|exact H].
      split; [discriminate|]. apply IH.
      destruct (span_of_spec _ _ _ _ Es) as (Er & _). rewrite Er, length_app in Hf.
      simpl in Hf. lia.
    + simpl. rewrite Es. simpl. split; [discriminate|]. apply IH.
      destruct (span_of_spec _ _ _ _ Es) as (Er & _). rewrite Er, length_app in Hf.
      simpl in Hf. lia.
Qed.

Lemma sub_entities_free (fuel : nat) (l : list ascii) :
  tag_free l -> tag_free (sub_bracketed "&" ";" is_word fuel l).
Proof.
  revert l. induction fuel as [|fuel IH]; intros l H; [exact H|].
  destruct l as [|y r]; [exact I|]. destruct H as [Hy Hr].
  assert (Hkeep : tag_free (y :: sub_bracketed "&" ";" is_word fuel r)).
  { split; [|apply IH, Hr]. intros E. apply (no_tag_ahead_transfer r); [apply Hy, E | |].
    - intros x. apply sub_bracketed_In.
    - intros r' ->. destruct fuel as [|fuel']; [exists r'; reflexivity|].
      rewrite sub_bracketed_other by reflexivity. eexists. reflexivity. }
  simpl. destruct (Ascii.eqb y "&"); [|exact Hkeep].
  destruct (span_of is_word r) as [[|a0 a] [|c' rest]] eqn:Es; try exact Hkeep.
  destruct (Ascii.eqb c' ";"); [|exact Hkeep].
  split; [discriminate|]. apply IH.
  destruct (span_of_spec _ _ _ _ Es) as (Er & _). rewrite Er in Hr.
  apply (tag_free_suffix ((a0 :: a) ++ [c'])). rewrite <- app_assoc. exact Hr.
Qed.

Lemma collapse_ws_free (l : list ascii) : tag_free l -> tag_free (collapse_ws l).
Proof.
  induction l as [|y r IH]; [auto|]. intros [Hy Hr]. specialize (IH Hr).
  simpl. destruct (is_space y) eqn:Ey.
  - destruct r as [|c' r']; [split; [discriminate | exact I]|].
    destruct (is_space c'); [exact IH | split; [discriminate | exact IH]].
  - split; [|exact IH]. intros E. apply (no_tag_ahead_transfer r); [apply Hy, E | |].
    + intros x Hx. apply collapse_ws_In in Hx. tauto.
    + intros r' ->. simpl. eexists. reflexivity.
Qed.

Lemma lstrip_suffix (l : list ascii) : exists a, l = a ++ lstrip l.
Proof.
  induction l as [|y r [a IH]]; simpl; [exists []; reflexivity|].
  destruct (is_space y); [|exists []; reflexivity].
  exists (y :: a). simpl. f_equal. exact IH.
Qed.

Lemma rstrip_prefix (l : list ascii) : exists b, l = rstrip l ++ b.
Proof.
  induction l as [|y r [b IH]]; simpl; [exists []; reflexivity|].
  destruct (rstrip r) as [|z r'] eqn:E.
  - destruct (is_space y); [exists (y :: r); reflexivity|].
    exists r. reflexivity.
  - exists b. simpl. f_equal. exact IH.
Qed.

Lemma strip_free (l : list ascii) : tag_free l -> tag_free (strip l).
Proof.
  intros H. unfold strip. destruct (lstrip_suffix l) as [a Ea].
  rewrite Ea in H. apply tag_free_suffix in H.
  destruct (rstrip_prefix (lstrip l)) as [b Eb]. rewrite Eb in H.
  apply tag_free_prefix in H. exact H.
Qed.

Lemma clean_html_eq (raw_html : string) :
  clean_html raw_html
  = string_of_list_ascii (clean_html_chars (list_ascii_of_string raw_html)).
Proof. destruct raw_html; reflexivity. Qed.

Lemma tag_free_no_match (l pre inner post : list ascii) :
  tag_free l -> l = pre ++ "<"%char :: inner ++ ">"%char :: post ->
  inner = [] \/ In ">"%char inner.
Proof.
  intros H ->. apply tag_free_suffix in H. destruct H as [Hx _].
  specialize (Hx eq_refl). destruct inner as [|c inner]; [left; reflexivity|]. right.
  simpl in Hx. destruct Hx as [-> | Hn]; [left; reflexivity|].
  exfalso. apply Hn. right. apply in_or_app. right. left. reflexivity.
Qed.

(** [clean_html] of the sample-data script returns a text with no space
    at either end and no whitespace other than single spaces, and no
    complete tag is left in it: whenever a [<] and a later [>] stand in
    the result, there is nothing between them or another [>] comes
    first, so that [<[^>]+>] matches nowhere. *)
Theorem clean_html_shape (raw_html : string) :
  let out := list_ascii_of_string (clean_html raw_html) in
  single_spaced out /\ trimmed out
  /\ forall pre inner post, out = pre ++ "<"%char :: inner ++ ">"%char :: post ->
       inner = [] \/ In ">"%char inner.
Proof.
  simpl. rewrite clean_html_eq, list_ascii_of_string_of_list_ascii.
  unfold clean_html_chars. split; [|split].
  - apply rstrip_single, lstrip_single, collapse_ws_single.
  - apply strip_trimmed.
  - intros pre inner post. apply tag_free_no_match.
    apply strip_free, collapse_ws_free, sub_entities_free, sub_tags_free. lia.
Qed.

Lemma clean_html_shape_witness :
  list_ascii_of_string (clean_html "<>x &;y <b")
  = [] ++ "<"%char :: [] ++ ">"%char :: list_ascii_of_string "x &;y <b"
  /\ (@nil ascii = [] \/ In ">"%char (@nil ascii)).
Proof.
  split; [reflexivity|].
  apply (proj2 (proj2 (clean_html_shape "<>x &;y <b")) [] []
           (list_ascii_of_string "x &;y <b")).
  reflexivity.
Defined.

(** ** The overlap analysis *)

Lemma dict_get_key {V : Type} (k : string) (d : list (string * V)) :
  In k (map fst d) -> exists v, dict_get k d = Some v /\ In (k, v) d.
Proof.
  induction d as [|[k' v'] d IH]; simpl; [contradiction|].
  destruct (String.eqb_spec k' k) as [-> | Ne].
  - intros _. exists v'. auto.
  - intros [E | H]; [contradiction|]. destruct (IH H) as (v & E & Hin). exists v. auto.
Qed.

Lemma uniq_length (l : list string) : (length (uniq l) <= length l)%nat.
Proof.
  induction l as [|x l IH]; simpl; [lia|].
  apply le_n_S. eapply Nat.le_trans; [apply filter_length_le | exact IH].
Qed.

Lemma overlap_le (base wtd : list Rec) : (overlap base wtd <= length base)%nat.
Proof.
  unfold overlap, id_set.
  eapply Nat.le_trans; [apply filter_length_le|].
  eapply Nat.le_trans; [apply uniq_length|]. rewrite length_map. apply Nat.le_refl.
Qed.

Lemma recs_list_length {np : Argsort} (sim : Matrix) (df : DataFrame) (n : nat) (recs : Recs)
  (k : string) (l : list Rec) :
  get_top_n_recs sim df n = Ok recs -> In (k, l) recs -> length l = n.
Proof.
  intros E Hin.
  assert (R : row_result sim df n k l).
  { apply (get_top_n_loop_Ok _ _ _ _ _ _ E); [intros ? ? [] | exact Hin]. }
  destruct R as (i & job & _ & _ & Hrow). apply recs_of_row_Ok in Hrow.
  destruct Hrow as (scores & _ & _ & L & _). exact L.
Qed.

Lemma recs_key_order {np : Argsort} (sim : Matrix) (df : DataFrame) (n : nat) (recs : Recs) :
  get_top_n_recs sim df n = Ok recs -> map fst recs = uniq (map id df).
Proof.
  intros E. unfold get_top_n_recs in E. apply get_top_n_loop_key_order in E.
  pose proof (map_ids_seq [] df) as M. simpl in M. rewrite M, fold_keys_uniq in E.
  simpl in E. rewrite E. clear. induction (uniq (map id df)) as [|x u IH]; simpl; congruence.
Qed.

(** The overlap analysis of [main]: the baseline and the weighted map
    come from [get_top_n_recs] on the same frame, so they have the same
    keys, no lookup fails, and there is one overlap for each key, between
    0 and [n]. *)
Theorem overlaps_defined {np : Argsort} (sim sim' : Matrix) (df : DataFrame) (n : nat)
  (baseline_recs weighted_recs : Recs) :
  get_top_n_recs sim df n = Ok baseline_recs ->
  get_top_n_recs sim' df n = Ok weighted_recs ->
  map fst baseline_recs = map fst weighted_recs
  /\ exists counts, overlaps baseline_recs weighted_recs = Some counts
       /\ length counts = length baseline_recs
       /\ Forall (fun c => (c <= n)%nat) counts.
Proof.
  intros Eb Ew.
  assert (K : map fst baseline_recs = map fst weighted_recs)
    by (rewrite (recs_key_order _ _ _ _ Eb), (recs_key_order _ _ _ _ Ew); reflexivity).
  split; [exact K|]. unfold overlaps.
  assert (G : forall keys, incl keys (map fst baseline_recs) ->
                exists counts, overlaps_loop keys baseline_recs weighted_recs = Some counts
                  /\ length counts = length keys /\ Forall (fun c => (c <= n)%nat) counts).
  { induction keys as [|k keys IH]; intros Hinc; simpl.
    - exists []. repeat split. constructor.
    - destruct (dict_get_key k baseline_recs (Hinc k (or_introl eq_refl))) as (b & Gb & Hb).
      assert (Hkw : In k (map fst weighted_recs))
        by (rewrite <- K; apply Hinc; left; reflexivity).
      destruct (dict_get_key k weighted_recs Hkw) as (w & Gw & Hw).
      rewrite Gb, Gw.
      destruct IH as (counts & Ec & Lc & Fc); [intros x Hx; apply Hinc; right; exact Hx|].
      rewrite Ec. simpl. exists (overlap b w :: counts). repeat split; [simpl; lia|].
      constructor; [|exact Fc].
      rewrite <- (recs_list_length _ _ _ _ _ _ Eb Hb). apply overlap_le. }
  destruct (G (map fst baseline_recs) (incl_refl _)) as (counts & Ec & Lc & Fc).
  exists counts. rewrite length_map in Lc. auto.
Qed.

Lemma overlaps_defined_witness :
  get_top_n_recs (np := stable_sort) three_sim three_jobs 2
  = Ok [("a", [("b", 5000 # 10000); ("c", 2500 # 10000)]%Q);
        ("b", [("a", 5000 # 10000); ("c", 3333 # 10000)]%Q);
        ("c", [("b", 3333 # 10000); ("a", 2500 # 10000)]%Q)]
  /\ overlaps [("a", [("b", 5000 # 10000); ("c", 2500 # 10000)]%Q);
               ("b", [("a", 5000 # 10000); ("c", 3333 # 10000)]%Q);
               ("c", [("b", 3333 # 10000); ("a", 2500 # 10000)]%Q)]
              [("a", [("c", 5000 # 10000); ("b", 5000 # 10000)]%Q);
               ("b", [("a", 5000 # 10000); ("c", 3333 # 10000)]%Q);
               ("c", [("a", 5000 # 10000); ("b", 3333 # 10000)]%Q)]
      = Some [2; 2; 2]%nat
  /\ map fst [("a", [("b", 5000 # 10000); ("c", 2500 # 10000)]%Q);
              ("b", [("a", 5000 # 10000); ("c", 3333 # 10000)]%Q);
              ("c", [("b", 3333 # 10000); ("a", 2500 # 10000)]%Q)]
     = map fst [("a", [("c", 5000 # 10000); ("b", 5000 # 10000)]%Q);
                ("b", [("a", 5000 # 10000); ("c", 3333 # 10000)]%Q);
                ("c", [("a", 5000 # 10000); ("b", 3333 # 10000)]%Q)].
Proof.
  split; [reflexivity|]. split; [reflexivity|].
  apply (proj1 (overlaps_defined (np := stable_sort) three_sim tied_sim three_jobs 2 _ _ eq_refl eq_refl)).
Defined.

(** ** The order of the sample *)

Lemma categories_of_groups (df_dedup : DataFrame) (quotas : Series)
  (groups : list DataFrame) :
  Forall2 (fun p g => incl g (rows_of (fst p) df_dedup)
                      /\ Z.of_nat (length g) = Z.min (snd p) (cat_size df_dedup (fst p)))
          quotas groups ->
  map category (concat groups)
  = concat (map (fun p => repeat (fst p)
                            (Z.to_nat (Z.min (snd p) (cat_size df_dedup (fst p)))))
                quotas).
Proof.
  induction 1 as [|[c q] g quotas groups [Hg Hl] F IH]; simpl; [reflexivity|].
  rewrite map_app, IH. f_equal. simpl in *.
  replace (Z.to_nat (Z.min q (cat_size df_dedup c))) with (length g) by lia.
  clear Hl. induction g as [|j g IHg]; simpl; [reflexivity|].
  rewrite IHg by (intros x Hx; apply Hg; right; exact Hx). f_equal.
  apply (rows_of_In c df_dedup j), Hg. left. reflexivity.
Qed.

(** The SampledSet is grouped by category, not shuffled: its category
    column is, for each category in the order of the quota Series, the
    category repeated as many times as the smaller of its final quota and
    its number of rows. *)
Theorem sample_grouped_by_category (S : RowSampler) (fuel : nat) (df : DataFrame)
  (n M : Z) (result : DataFrame) :
  stratified_sample S fuel df n M = Ok result ->
  exists quotas,
    adjust_quotas fuel n (cat_samples0 (dedup df) n M) = Ok quotas
    /\ map category result
       = concat (map (fun p => repeat (fst p)
                                 (Z.to_nat (Z.min (snd p) (cat_size (dedup df) (fst p)))))
                     quotas).
Proof.
  intros H. destruct (stratified_sample_Ok _ _ _ _ _ _ H) as (quotas & groups & Ea & Eg & _ & ->).
  exists quotas. split; [exact Ea|]. apply categories_of_groups.
  eapply Forall2_impl; [|exact (sample_groups_Ok _ _ _ _ Eg)]. simpl. tauto.
Qed.

Lemma sample_grouped_by_category_witness :
  stratified_sample head_rows 10 ten_jobs 4 2
  = Ok [job_in "1" "1" "A"; job_in "2" "2" "A"; job_in "10" "10" "B"]
  /\ exists quotas,
       adjust_quotas 10 4 (cat_samples0 (dedup ten_jobs) 4 2) = Ok quotas
       /\ map category [job_in "1" "1" "A"; job_in "2" "2" "A"; job_in "10" "10" "B"]
          = concat (map (fun p => repeat (fst p)
                                    (Z.to_nat (Z.min (snd p) (cat_size (dedup ten_jobs) (fst p)))))
                        quotas).
Proof.
  split; [reflexivity|].
  apply (sample_grouped_by_category head_rows 10 ten_jobs 4 2). reflexivity.
Defined.
